(** * The CUDA driver binding of TensorRT-LLM

    A shallow embedding of [cpp/tensorrt_llm/common/cudaDriverWrapper.cpp]:
    the loader macros, the constructor that fills the table of function
    pointers, the destructor, the forwarding methods, the launch
    configuration trace and the singleton accessor.

    Conventions.  Machine integers, enum values and pointers are [Z]
    (a null pointer is [0]); the only arithmetic of the file, the loop
    counter, has its 32-bit wrap-around written out.  Everything the code
    does to the outside world (loader calls, log lines, calls through a
    function pointer) is appended to a trace kept in the [World]. *)

From Stdlib Require Import ZArith NArith String Ascii List Bool Lia.
From Stdlib Require Import DecimalString HexadecimalString DecimalN HexadecimalN.
From stdpp Require Import base list strings.

Local Open Scope Z_scope.

(** ** Data of <cuda.h> used by the file *)

(** [CUlaunchAttribute]: the attribute kind and the two members of the
    value union that the file reads.  In C the members overlay the same
    bytes; the code reads only the member selected by [attr_id], so the
    two views are kept as independent fields. *)
Record CUlaunchAttribute := {
  attr_id : Z;               (* CUlaunchAttributeID id *)
  value_clusterDim_x : Z;    (* unsigned int value.clusterDim.x *)
  value_clusterDim_y : Z;
  value_clusterDim_z : Z;
  value_priority : Z         (* int value.priority *)
}.

(** [CUlaunchConfig]: [attrs] is the array the C pointer designates,
    [numAttrs] the separately stored count. *)
Record CUlaunchConfig := {
  gridDimX : Z; gridDimY : Z; gridDimZ : Z;
  blockDimX : Z; blockDimY : Z; blockDimZ : Z;
  sharedMemBytes : Z;
  hStream : Z;
  attrs : list CUlaunchAttribute;
  numAttrs : Z
}.

(** ** The host: everything the file takes from its surroundings *)

Inductive Platform := Win32 | Posix.

Record Host := {
  platform : Platform;
  (** the loader: the handle returned by the n-th open of a file (0 when
      it cannot be opened) and the address of an exported name (0 when
      the library does not export it) *)
  os_open : nat -> string -> Z;
  os_sym : Z -> string -> Z;
  (** the code behind an address: the result code it returns on an
      argument list *)
  native : Z -> list Z -> Z;
  (** memory: the launch configuration stored at an address *)
  mem_config : Z -> option CUlaunchConfig;
  (** logger.h and assert.h: is the logger at DEBUG level, are the
      debug checks switched on *)
  log_debug : bool;
  check_debug : bool;
  (** the two enumerators of CUlaunchAttributeID named in the file *)
  CU_LAUNCH_ATTRIBUTE_CLUSTER_DIMENSION : Z;
  CU_LAUNCH_ATTRIBUTE_PRIORITY : Z
}.

(** ** The binding instance *)

(** The class: the library handle and one pointer per bound operation,
    in the order of the constructor's assignments. *)
Record CUDADriverWrapper := {
  handle : Z;
  _cuGetErrorName : Z;
  _cuGetErrorString : Z;
  _cuFuncSetAttribute : Z;
  _cuLinkComplete : Z;
  _cuModuleUnload : Z;
  _cuLinkDestroy : Z;
  _cuModuleLoadData : Z;
  _cuLinkCreate : Z;
  _cuModuleGetFunction : Z;
  _cuModuleGetGlobal : Z;
  _cuLibraryGetKernel : Z;
  _cuLibraryLoadData : Z;
  _cuLibraryGetGlobal : Z;
  _cuLibraryUnload : Z;
  _cuKernelSetAttribute : Z;
  _cuCtxGetDevice : Z;
  _cuLinkAddFile : Z;
  _cuLinkAddData : Z;
  _cuLaunchCooperativeKernel : Z;
  _cuLaunchKernel : Z;
  _cuLaunchKernelEx : Z;
  _cuTensorMapEncodeTiled : Z;
  _cuMemcpyDtoH : Z;
  _cuDeviceGetAttribute : Z;
  _cuOccupancyMaxActiveClusters : Z
}.

(** ** Observable events and the world *)

Inductive Event :=
| EvOpen (file : string)              (* dllOpen *)
| EvSym (h : Z) (name : string)       (* dllGetSym *)
| EvClose (h : Z)                     (* dllClose *)
| EvLog (msg : string)                (* a line of the debug log *)
| EvCall (fn : Z) (args : list Z).    (* a call through a function pointer *)

(** A control block of [std::shared_ptr]: the object and its number of
    strong references.  The destructor has run once the count is 0. *)
Record Obj := { obj_val : CUDADriverWrapper; strong : nat }.

Record World := {
  opens : nat;                 (* number of dllOpen calls so far *)
  trace : list Event;
  objs : list Obj;             (* every wrapper constructed so far *)
  instance : option nat;       (* static std::weak_ptr in getInstance *)
  mutex : option nat           (* static std::mutex: the owning thread *)
}.

Definition world0 : World :=
  {| opens := 0; trace := []; objs := []; instance := None; mutex := None |}.

Definition emit (e : Event) (w : World) : World :=
  {| opens := opens w; trace := trace w ++ [e]; objs := objs w;
     instance := instance w; mutex := mutex w |}.

(** ** A state and error monad for the effectful code *)

Inductive Outcome (A : Type) :=
| Ret (a : A)            (* normal return *)
| Fatal (msg : string)   (* a failed TLLM_CHECK: no result *)
| Fault.                 (* undefined behaviour: null call, bad read *)
Arguments Ret {A} a.
Arguments Fatal {A} msg.
Arguments Fault {A}.

Definition M (A : Type) : Type := World -> World * Outcome A.

Definition ret {A} (a : A) : M A := fun w => (w, Ret a).

Definition bind {A B} (c : M A) (k : A -> M B) : M B :=
  fun w =>
    match c w with
    | (w', Ret a) => k a w'
    | (w', Fatal msg) => (w', Fatal msg)
    | (w', Fault) => (w', Fault)
    end.

Notation "x <- c ;; k" := (bind c (fun x => k))
  (at level 100, c at next level, right associativity).
Notation "c ;;; k" := (bind c (fun _ => k))
  (at level 100, right associativity).

(** ** The loader macros (lines 17-29) *)

Definition CUDA_LIB_NAME : string := "cuda".

Definition dll_file (p : Platform) (name : string) : string :=
  match p with
  | Win32 => "nv" +:+ name +:+ ".dll"
  | Posix => "lib" +:+ name +:+ ".so.1"
  end.

Definition dllOpen (H : Host) (name : string) : M Z :=
  fun w =>
    let file := dll_file (platform H) name in
    ({| opens := S (opens w); trace := trace w ++ [EvOpen file];
        objs := objs w; instance := instance w; mutex := mutex w |},
     Ret (os_open H (opens w) file)).

Definition dllGetSym (H : Host) (h : Z) (name : string) : M Z :=
  fun w => (emit (EvSym h name) w, Ret (os_sym H h name)).

Definition dllClose (h : Z) : M unit :=
  fun w => (emit (EvClose h) w, Ret tt).

(** Modelled from the spec: [TLLM_CHECK_WITH_INFO] of assert.h, which is
    not among the sources.  A failed check is fatal for the enclosing
    call, which produces no result. *)
Definition TLLM_CHECK_WITH_INFO (val : bool) (info : string) : M unit :=
  fun w => if val then (w, Ret tt) else (w, Fatal info).

(** ** The constructor (lines 62-99) *)

(** The lambda [load_sym]: the resolved address is returned as it is. *)
Definition load_sym (H : Host) (h : Z) (name : string) : M Z :=
  ret_ <- dllGetSym H h name ;;
  ret ret_.

Definition CUDADriverWrapper_ctor (H : Host) : M CUDADriverWrapper :=
  h <- dllOpen H CUDA_LIB_NAME ;;
  TLLM_CHECK_WITH_INFO (negb (h =? 0))
    "CUDA driver library is not open correctly." ;;;
  p1 <- load_sym H h "cuGetErrorName" ;;
  p2 <- load_sym H h "cuGetErrorString" ;;
  p3 <- load_sym H h "cuFuncSetAttribute" ;;
  p4 <- load_sym H h "cuLinkComplete" ;;
  p5 <- load_sym H h "cuModuleUnload" ;;
  p6 <- load_sym H h "cuLinkDestroy" ;;
  p7 <- load_sym H h "cuModuleLoadData" ;;
  p8 <- load_sym H h "cuLinkCreate_v2" ;;
  p9 <- load_sym H h "cuModuleGetFunction" ;;
  p10 <- load_sym H h "cuModuleGetGlobal_v2" ;;
  p11 <- load_sym H h "cuLibraryGetKernel" ;;
  p12 <- load_sym H h "cuLibraryLoadData" ;;
  p13 <- load_sym H h "cuLibraryGetGlobal" ;;
  p14 <- load_sym H h "cuLibraryUnload" ;;
  p15 <- load_sym H h "cuKernelSetAttribute" ;;
  p16 <- load_sym H h "cuCtxGetDevice" ;;
  p17 <- load_sym H h "cuLinkAddFile_v2" ;;
  p18 <- load_sym H h "cuLinkAddData_v2" ;;
  p19 <- load_sym H h "cuLaunchCooperativeKernel" ;;
  p20 <- load_sym H h "cuLaunchKernel" ;;
  p21 <- load_sym H h "cuLaunchKernelEx" ;;
  p22 <- load_sym H h "cuTensorMapEncodeTiled" ;;
  p23 <- load_sym H h "cuMemcpyDtoH_v2" ;;
  p24 <- load_sym H h "cuDeviceGetAttribute" ;;
  p25 <- load_sym H h "cuOccupancyMaxActiveClusters" ;;
  ret {| handle := h;
         _cuGetErrorName := p1;
         _cuGetErrorString := p2;
         _cuFuncSetAttribute := p3;
         _cuLinkComplete := p4;
         _cuModuleUnload := p5;
         _cuLinkDestroy := p6;
         _cuModuleLoadData := p7;
         _cuLinkCreate := p8;
         _cuModuleGetFunction := p9;
         _cuModuleGetGlobal := p10;
         _cuLibraryGetKernel := p11;
         _cuLibraryLoadData := p12;
         _cuLibraryGetGlobal := p13;
         _cuLibraryUnload := p14;
         _cuKernelSetAttribute := p15;
         _cuCtxGetDevice := p16;
         _cuLinkAddFile := p17;
         _cuLinkAddData := p18;
         _cuLaunchCooperativeKernel := p19;
         _cuLaunchKernel := p20;
         _cuLaunchKernelEx := p21;
         _cuTensorMapEncodeTiled := p22;
         _cuMemcpyDtoH := p23;
         _cuDeviceGetAttribute := p24;
         _cuOccupancyMaxActiveClusters := p25 |}.

(** The destructor (lines 101-104). *)
Definition CUDADriverWrapper_dtor (self : CUDADriverWrapper) : M unit :=
  dllClose (handle self).

(** ** The forwarding methods (lines 106-218 and 273-296) *)

(** A call through a stored pointer [( *p)(args)]: calling through a
    null pointer is undefined behaviour; otherwise the code behind the
    address runs on the arguments and its result code comes back. *)
Definition invoke (H : Host) (fn : Z) (args : list Z) : M Z :=
  fun w =>
    if fn =? 0 then (w, Fault)
    else (emit (EvCall fn args) w, Ret (native H fn args)).

Section Forwarding.
Variable H : Host.
Variable self : CUDADriverWrapper.

Definition cuGetErrorName (error pStr : Z) : M Z :=
  invoke H (_cuGetErrorName self) [error; pStr].

Definition cuGetErrorString (error pStr : Z) : M Z :=
  invoke H (_cuGetErrorString self) [error; pStr].

Definition cuFuncSetAttribute (hfunc attrib value : Z) : M Z :=
  invoke H (_cuFuncSetAttribute self) [hfunc; attrib; value].

Definition cuLinkComplete (state cubinOut sizeOut : Z) : M Z :=
  invoke H (_cuLinkComplete self) [state; cubinOut; sizeOut].

Definition cuModuleUnload (hmod : Z) : M Z :=
  invoke H (_cuModuleUnload self) [hmod].

Definition cuLinkDestroy (state : Z) : M Z :=
  invoke H (_cuLinkDestroy self) [state].

Definition cuModuleLoadData (module image : Z) : M Z :=
  invoke H (_cuModuleLoadData self) [module; image].

Definition cuLinkCreate (numOptions options optionValues stateOut : Z) : M Z :=
  invoke H (_cuLinkCreate self) [numOptions; options; optionValues; stateOut].

Definition cuModuleGetFunction (hfunc hmod name : Z) : M Z :=
  invoke H (_cuModuleGetFunction self) [hfunc; hmod; name].

Definition cuModuleGetGlobal (dptr bytes hmod name : Z) : M Z :=
  invoke H (_cuModuleGetGlobal self) [dptr; bytes; hmod; name].

Definition cuLibraryGetKernel (pKernel library name : Z) : M Z :=
  invoke H (_cuLibraryGetKernel self) [pKernel; library; name].

Definition cuLibraryLoadData
    (library code jitOptions jitOptionsValues numJitOptions
     libraryOptions libraryOptionValues numLibraryOptions : Z) : M Z :=
  invoke H (_cuLibraryLoadData self)
    [library; code; jitOptions; jitOptionsValues; numJitOptions;
     libraryOptions; libraryOptionValues; numLibraryOptions].

Definition cuLibraryGetGlobal (dptr bytes library name : Z) : M Z :=
  invoke H (_cuLibraryGetGlobal self) [dptr; bytes; library; name].

Definition cuLibraryUnload (library : Z) : M Z :=
  invoke H (_cuLibraryUnload self) [library].

Definition cuKernelSetAttribute (attrib val kernel dev : Z) : M Z :=
  invoke H (_cuKernelSetAttribute self) [attrib; val; kernel; dev].

Definition cuCtxGetDevice (device : Z) : M Z :=
  invoke H (_cuCtxGetDevice self) [device].

Definition cuLinkAddFile
    (state type path numOptions options optionValues : Z) : M Z :=
  invoke H (_cuLinkAddFile self)
    [state; type; path; numOptions; options; optionValues].

Definition cuLinkAddData
    (state type data size name numOptions options optionValues : Z) : M Z :=
  invoke H (_cuLinkAddData self)
    [state; type; data; size; name; numOptions; options; optionValues].

Definition cuLaunchCooperativeKernel
    (f gridDimX gridDimY gridDimZ blockDimX blockDimY blockDimZ
     sharedMemBytes hStream kernelParams : Z) : M Z :=
  invoke H (_cuLaunchCooperativeKernel self)
    [f; gridDimX; gridDimY; gridDimZ; blockDimX; blockDimY; blockDimZ;
     sharedMemBytes; hStream; kernelParams].

Definition cuLaunchKernel
    (f gridDimX gridDimY gridDimZ blockDimX blockDimY blockDimZ
     sharedMemBytes hStream kernelParams extra : Z) : M Z :=
  invoke H (_cuLaunchKernel self)
    [f; gridDimX; gridDimY; gridDimZ; blockDimX; blockDimY; blockDimZ;
     sharedMemBytes; hStream; kernelParams; extra].

Definition cuTensorMapEncodeTiled
    (tensorMap tensorDataType tensorRank globalAddress globalDim
     globalStrides boxDim elementStrides interleave swizzle
     l2Promotion oobFill : Z) : M Z :=
  invoke H (_cuTensorMapEncodeTiled self)
    [tensorMap; tensorDataType; tensorRank; globalAddress; globalDim;
     globalStrides; boxDim; elementStrides; interleave; swizzle;
     l2Promotion; oobFill].

Definition cuMemcpyDtoH (dstHost srcDevice ByteCount : Z) : M Z :=
  invoke H (_cuMemcpyDtoH self) [dstHost; srcDevice; ByteCount].

Definition cuDeviceGetAttribute (pi attrib dev : Z) : M Z :=
  invoke H (_cuDeviceGetAttribute self) [pi; attrib; dev].

Definition cuOccupancyMaxActiveClusters (maxActiveClusters f config : Z) : M Z :=
  invoke H (_cuOccupancyMaxActiveClusters self) [maxActiveClusters; f; config].
End Forwarding.

(** ** The launch configuration trace (lines 220-261) *)

(** The line feed written ["\n"] in the source. *)
Definition nl : string := String "010"%char EmptyString.

(** Digits of a non-negative number, as iostreams print them: decimal,
    and lower-case hexadecimal without prefix. *)
Definition show_dec (n : Z) : string :=
  DecimalString.NilZero.string_of_uint (N.to_uint (Z.to_N n)).

Definition show_hex (n : Z) : string :=
  HexadecimalString.NilZero.string_of_uint (N.to_hex_uint (Z.to_N n)).

(** [std::stringstream]: the text written so far and the numeric base
    flag, which [std::hex] sets and nothing in the file resets. *)
Record sstream := { str : string; hexfield : bool }.

Definition sstream0 : sstream := {| str := ""; hexfield := false |}.

Definition put (s : string) (ss : sstream) : sstream :=
  {| str := str ss +:+ s; hexfield := hexfield ss |}.

(** [operator<<] on [unsigned int] and [uintptr_t]. *)
Definition put_unsigned (n : Z) (ss : sstream) : sstream :=
  put (if hexfield ss then show_hex n else show_dec n) ss.

(** [operator<<] on [int], which an unscoped enum promotes to: signed in
    decimal; in hexadecimal the value is first converted to
    [unsigned int]. *)
Definition put_int (n : Z) (ss : sstream) : sstream :=
  put (if hexfield ss then show_hex (n mod 2 ^ 32)
       else if n <? 0 then "-" +:+ show_dec (- n) else show_dec n) ss.

Definition std_hex (ss : sstream) : sstream :=
  {| str := str ss; hexfield := true |}.

Notation "ss |> f" := (f ss) (at level 45, left associativity, only parsing).

(** The [switch] on [attr.id]. *)
Definition put_attr (H : Host) (attr : CUlaunchAttribute) (ss : sstream) : sstream :=
  if attr_id attr =? CU_LAUNCH_ATTRIBUTE_CLUSTER_DIMENSION H then
    ss |> put "Cluster Dimension: (" |> put_unsigned (value_clusterDim_x attr)
       |> put ", " |> put_unsigned (value_clusterDim_y attr)
       |> put ", " |> put_unsigned (value_clusterDim_z attr) |> put ")"
  else if attr_id attr =? CU_LAUNCH_ATTRIBUTE_PRIORITY H then
    ss |> put "Priority: " |> put_int (value_priority attr)
  else
    ss |> put "Unknown Attribute (ID=" |> put_int (attr_id attr) |> put ")".

Inductive LoopResult :=
| LoopDone (ss : sstream)   (* the loop condition became false *)
| LoopBadRead               (* [config.attrs[i]] past the array *)
| LoopOutOfFuel.

(** The [for] loop over the attributes, from counter value [i]; the
    counter is a 32-bit [uint]. *)
Fixpoint attr_loop (H : Host) (fuel : nat) (config : CUlaunchConfig)
    (i : Z) (ss : sstream) : LoopResult :=
  if i <? numAttrs config then
    match fuel with
    | O => LoopOutOfFuel
    | S fuel' =>
        match attrs config !! Z.to_nat i with
        | None => LoopBadRead
        | Some attr =>
            attr_loop H fuel' config ((i + 1) mod 2 ^ 32)
              (ss |> put "  [" |> put_unsigned i |> put "] "
                  |> put_attr H attr |> put nl)
        end
    end
  else LoopDone ss.

(** The text before the loop. *)
Definition put_header (config : CUlaunchConfig) (ss : sstream) : sstream :=
  ss |> put "Grid Dimensions: (" |> put_unsigned (gridDimX config)
     |> put ", " |> put_unsigned (gridDimY config)
     |> put ", " |> put_unsigned (gridDimZ config) |> put ")" |> put nl
     |> put "Block Dimensions: (" |> put_unsigned (blockDimX config)
     |> put ", " |> put_unsigned (blockDimY config)
     |> put ", " |> put_unsigned (blockDimZ config) |> put ")" |> put nl
     |> put "Shared Memory: " |> put_unsigned (sharedMemBytes config)
     |> put " bytes" |> put nl
     |> put "Stream: "
     |> put (if negb (hStream config =? 0) then "Custom" else "Default")
     |> put " (0x" |> std_hex |> put_unsigned (hStream config)
     |> put ")" |> put nl
     |> put "Attributes (" |> put_unsigned (numAttrs config)
     |> put "):" |> put nl.

(** [stringify_launch_config], with the loop given [fuel] iterations. *)
Definition stringify_fuel (H : Host) (fuel : nat) (config : CUlaunchConfig)
    : LoopResult :=
  attr_loop H fuel config 0 (put_header config sstream0).

(** [stringify_launch_config]: the loop stops after [numAttrs]
    iterations at the latest (lemma [attr_loop_fuel_enough]), so that
    much fuel is supplied. *)
Definition stringify_launch_config (H : Host) (config : CUlaunchConfig)
    : Outcome string :=
  match stringify_fuel H (Z.to_nat (numAttrs config)) config with
  | LoopDone ss => Ret (str ss)
  | LoopBadRead | LoopOutOfFuel => Fault
  end.

(** ** The extended launch (lines 263-271) *)

Definition lift {A} (o : Outcome A) : M A := fun w => (w, o).

(** [*config]: reading the configuration behind the pointer. *)
Definition deref_config (H : Host) (config : Z) : M CUlaunchConfig :=
  fun w =>
    match mem_config H config with
    | Some c => (w, Ret c)
    | None => (w, Fault)
    end.

(** Modelled from the spec: [TLLM_LOG_DEBUG] of logger.h, which is not
    among the sources.  With the logger at DEBUG level the message is
    computed and one log line is emitted; otherwise nothing happens. *)
Definition TLLM_LOG_DEBUG (H : Host) (prefix : string) (arg : M string) : M unit :=
  fun w =>
    if log_debug H then
      (s <- arg ;; fun w' => (emit (EvLog (prefix +:+ s)) w', Ret tt)) w
    else (w, Ret tt).

(** Modelled from the spec: [TLLM_CHECK_DEBUG_WITH_INFO] of assert.h,
    which is not among the sources: the check of [TLLM_CHECK_WITH_INFO],
    made only when the debug checks are switched on. *)
Definition TLLM_CHECK_DEBUG_WITH_INFO (H : Host) (val : bool) (info : string)
    : M unit :=
  if check_debug H then TLLM_CHECK_WITH_INFO val info else ret tt.

Definition cuLaunchKernelEx (H : Host) (self : CUDADriverWrapper)
    (config f kernelParams extra : Z) : M Z :=
  TLLM_LOG_DEBUG H "Launch config: "
    (c <- deref_config H config ;; lift (stringify_launch_config H c)) ;;;
  TLLM_CHECK_DEBUG_WITH_INFO H
    (xorb (negb (extra =? 0)) (negb (kernelParams =? 0)))
    "Exactly one of 'extra' and 'kernelParams' should be set." ;;;
  invoke H (_cuLaunchKernelEx self) [config; f; kernelParams; extra].

(** ** The singleton accessor (lines 42-60) *)

Definition set_objs (os : list Obj) (w : World) : World :=
  {| opens := opens w; trace := trace w; objs := os;
     instance := instance w; mutex := mutex w |}.

Definition set_instance (r : option nat) (w : World) : World :=
  {| opens := opens w; trace := trace w; objs := objs w;
     instance := r; mutex := mutex w |}.

Definition set_mutex (m : option nat) (w : World) : World :=
  {| opens := opens w; trace := trace w; objs := objs w;
     instance := instance w; mutex := m |}.

Definition add_ref (o : Obj) : Obj :=
  {| obj_val := obj_val o; strong := S (strong o) |}.

(** [instance.lock()]: a new strong reference to the object the weak
    pointer designates if that object is still alive, the empty pointer
    otherwise. *)
Definition weak_lock (w : World) : World * option nat :=
  match instance w with
  | None => (w, None)
  | Some r =>
      match objs w !! r with
      | Some o =>
          if Nat.eqb (strong o) 0 then (w, None)
          else (set_objs (<[r := add_ref o]> (objs w)) w, Some r)
      | None => (w, None)
      end
  end.

(** [std::shared_ptr<CUDADriverWrapper>(new CUDADriverWrapper())]: the
    constructor runs; on success a control block with one strong
    reference is created. *)
Definition new_shared (H : Host) : M nat :=
  o <- CUDADriverWrapper_ctor H ;;
  fun w => (set_objs (objs w ++ [{| obj_val := o; strong := 1 |}]) w,
            Ret (length (objs w))).

(** Dropping one strong reference: the last one runs the destructor. *)
Definition release (r : nat) : M unit :=
  fun w =>
    match objs w !! r with
    | Some o =>
        match strong o with
        | O => (w, Fault)
        | S n =>
            let w' :=
              set_objs (<[r := {| obj_val := obj_val o; strong := n |}]> (objs w)) w in
            if Nat.eqb n 0 then CUDADriverWrapper_dtor (obj_val o) w'
            else (w', Ret tt)
        end
    | None => (w, Fault)
    end.

(** *** One call, run to completion by a caller [tid]

    [std::lock_guard] is taken on a free mutex; a caller that finds the
    mutex taken waits, which a call run on its own cannot do: the
    interleaved semantics below covers that case.  The guard releases
    the mutex when the function returns; after the fatal check nothing
    runs any more. *)
Definition lock_guard (tid : nat) : M unit :=
  fun w =>
    match mutex w with
    | None => (set_mutex (Some tid) w, Ret tt)
    | Some _ => (w, Fault)
    end.

Definition unlock : M unit := fun w => (set_mutex None w, Ret tt).

Definition instance_lock : M (option nat) :=
  fun w => let (w', r) := weak_lock w in (w', Ret r).

Definition assign_instance (r : option nat) : M unit :=
  fun w => (set_instance r w, Ret tt).

Definition getInstance (H : Host) (tid : nat) : M nat :=
  result <- instance_lock ;;
  match result with
  | Some r => ret r
  | None =>
      lock_guard tid ;;;
      result <- instance_lock ;;
      r <- match result with
           | Some r => ret r
           | None =>
               r <- new_shared H ;;
               assign_instance (Some r) ;;;
               ret r
           end ;;
      unlock ;;;
      ret r
  end.

(** *** The same code, one statement at a time

    Program points of a call in flight, named after the source lines. *)
Inductive PC :=
| L46        (* result = instance.lock(); if (result) return result; *)
| L52        (* std::lock_guard<std::mutex> const lock(mutex); *)
| L53        (* result = instance.lock(); if (!result) *)
| L56        (* result = std::shared_ptr<...>(new CUDADriverWrapper()); *)
| L57        (* instance = result; *)
| L59        (* return result; the guard releases the mutex *)
| Returned
| Failed.    (* left through the failed check of the constructor *)

(** A caller: where it is and its local [result] (empty or an object). *)
Record Thread := { pc : PC; result : option nat }.

Definition thread0 : Thread := {| pc := L46; result := None |}.

Inductive Step :=
| Next (w : World) (t : Thread)
| NoStep                           (* waiting for the mutex, or finished *)
| Dead (w : World) (o : Outcome nat).   (* the fatal check fired *)

(** What the statement at [pc t] does to the memory and to the caller.
    This is its meaning only when its accesses are ordered with the
    accesses made before by the other callers; [thread_step] below
    decides that. *)
Definition statement (H : Host) (tid : nat) (w : World) (t : Thread) : Step :=
  match pc t with
  | L46 =>
      let (w', r) := weak_lock w in
      Next w' {| pc := match r with Some _ => Returned | None => L52 end; result := r |}
  | L52 =>
      match mutex w with
      | None => Next (set_mutex (Some tid) w) {| pc := L53; result := result t |}
      | Some _ => NoStep
      end
  | L53 =>
      let (w', r) := weak_lock w in
      Next w' {| pc := match r with Some _ => L59 | None => L56 end; result := r |}
  | L56 =>
      match new_shared H w with
      | (w', Ret r) => Next w' {| pc := L57; result := Some r |}
      | (w', Fatal msg) => Dead w' (Fatal msg)
      | (w', Fault) => Dead w' Fault
      end
  | L57 => Next (set_instance (result t) w) {| pc := L59; result := result t |}
  | L59 => Next (set_mutex None w) {| pc := Returned; result := result t |}
  | Returned | Failed => NoStep
  end.

(** *** Happens-before

    [instance] is a plain [std::weak_ptr]: line 46 reads it without the
    mutex, line 53 reads it and line 57 writes it under the mutex.  Two
    accesses to it by different threads, one of them a write, which
    happens-before does not order are a data race, and a program with
    a data race has undefined behaviour.  The only synchronisation in
    the function is the mutex: what its owner did before releasing it
    happens before what the next owner does after taking it.

    The order is kept with vector clocks.  Entry [j] of a caller's
    clock tells how much of caller [j]'s past happens before the
    caller's present; the mutex hands the clock of its last owner to
    the next one; for [instance] the time of each caller's last read
    and last write is kept. *)
Definition Clock : Type := nat -> nat.

Definition clock0 : Clock := fun _ => 0%nat.

Definition upd {A} (i : nat) (x : A) (f : nat -> A) : nat -> A :=
  fun j => if Nat.eqb j i then x else f j.

Definition clock_join (a b : Clock) : Clock := fun j => Nat.max (a j) (b j).

(** [a] is at most [b] on the callers [0 .. n-1]. *)
Definition clock_leb (n : nat) (a b : Clock) : bool :=
  forallb (fun j => Nat.leb (a j) (b j)) (seq 0 n).

Record Sync := {
  vc : nat -> Clock;       (* the clock of each caller *)
  mutex_vc : Clock;        (* left in the mutex by its last owner *)
  read_vc : Clock;         (* [instance]: each caller's last read *)
  write_vc : Clock         (* [instance]: each caller's last write *)
}.

(** Callers that make their first call know nothing of one another. *)
Definition sync0 : Sync :=
  {| vc := fun i => upd i 1%nat clock0;
     mutex_vc := clock0; read_vc := clock0; write_vc := clock0 |}.

(** What a statement does with the shared [instance] and the mutex. *)
Inductive Access :=
| Reads          (* instance.lock() *)
| Writes         (* instance = result *)
| Acquires       (* the lock_guard takes the mutex *)
| Releases       (* the lock_guard gives it back *)
| Private.

Definition access (p : PC) : Access :=
  match p with
  | L46 | L53 => Reads
  | L57 => Writes
  | L52 => Acquires
  | L59 => Releases
  | L56 | Returned | Failed => Private
  end.

(** A read has to come after every write, a write after every read and
    every write. *)
Definition ordered (n i : nat) (sy : Sync) (a : Access) : bool :=
  match a with
  | Reads => clock_leb n (write_vc sy) (vc sy i)
  | Writes =>
      clock_leb n (write_vc sy) (vc sy i) && clock_leb n (read_vc sy) (vc sy i)
  | Acquires | Releases | Private => true
  end.

Definition sync_step (i : nat) (a : Access) (sy : Sync) : Sync :=
  match a with
  | Reads =>
      {| vc := vc sy; mutex_vc := mutex_vc sy;
         read_vc := upd i (vc sy i i) (read_vc sy); write_vc := write_vc sy |}
  | Writes =>
      {| vc := vc sy; mutex_vc := mutex_vc sy;
         read_vc := read_vc sy; write_vc := upd i (vc sy i i) (write_vc sy) |}
  | Acquires =>
      {| vc := upd i (clock_join (vc sy i) (mutex_vc sy)) (vc sy);
         mutex_vc := mutex_vc sy; read_vc := read_vc sy; write_vc := write_vc sy |}
  | Releases =>
      {| vc := upd i (upd i (S (vc sy i i)) (vc sy i)) (vc sy);
         mutex_vc := vc sy i; read_vc := read_vc sy; write_vc := write_vc sy |}
  | Private => sy
  end.

(** One statement of caller [tid] among [n] callers: a data race, or
    the statement's effect. *)
Inductive Checked :=
| Race                     (* undefined behaviour: a data race on [instance] *)
| Ordered (st : Step).

Definition thread_step (H : Host) (n tid : nat) (w : World) (sy : Sync)
    (t : Thread) : Checked :=
  if ordered n tid sy (access (pc t)) then Ordered (statement H tid w t)
  else Race.

(** The memory and the callers: the shared world, the callers, and
    whether the fatal check has stopped the process. *)
Record Sys := { world : World; pool : list Thread; aborted : bool }.

Definition sys_init (w : World) (n : nat) : Sys :=
  {| world := w; pool := replicate n thread0; aborted := false |}.

(** Caller [i] performs its next statement. *)
Definition sys_step (H : Host) (i : nat) (s : Sys) : Sys :=
  if aborted s then s
  else
    match pool s !! i with
    | None => s
    | Some t =>
        match statement H i (world s) t with
        | Next w' t' =>
            {| world := w'; pool := <[i := t']> (pool s); aborted := false |}
        | NoStep => s
        | Dead w' _ =>
            {| world := w';
               pool := <[i := {| pc := Failed; result := None |}]> (pool s);
               aborted := true |}
        end
    end.

Definition sys_run (H : Host) (sched : list nat) (s : Sys) : Sys :=
  fold_left (fun s i => sys_step H i s) sched s.

(** The process: memory and callers, the clocks, and whether a data
    race has happened.  After a data race nothing is known of the
    process any more: the state is kept as it was before the racing
    access. *)
Record Exec := { sys : Sys; sync : Sync; raced : bool }.

Definition init (w : World) (n : nat) : Exec :=
  {| sys := sys_init w n; sync := sync0; raced := false |}.

(** The scheduler lets caller [i] make its next step. *)
Definition exec_step (H : Host) (i : nat) (e : Exec) : Exec :=
  if raced e || aborted (sys e) then e
  else
    match pool (sys e) !! i with
    | None => e
    | Some t =>
        match thread_step H (length (pool (sys e))) i (world (sys e)) (sync e) t with
        | Race => {| sys := sys e; sync := sync e; raced := true |}
        | Ordered NoStep => e
        | Ordered _ =>
            {| sys := sys_step H i (sys e);
               sync := sync_step i (access (pc t)) (sync e);
               raced := false |}
        end
    end.

(** An interleaving is the list of the scheduler's choices. *)
Definition run (H : Host) (sched : list nat) (e : Exec) : Exec :=
  fold_left (fun e i => exec_step H i e) sched e.

(** ** Vocabulary of the statements *)

(** *** The bound operations *)

Inductive Op :=
| Op_cuGetErrorName | Op_cuGetErrorString | Op_cuFuncSetAttribute
| Op_cuLinkComplete | Op_cuModuleUnload | Op_cuLinkDestroy
| Op_cuModuleLoadData | Op_cuLinkCreate | Op_cuModuleGetFunction
| Op_cuModuleGetGlobal | Op_cuLibraryGetKernel | Op_cuLibraryLoadData
| Op_cuLibraryGetGlobal | Op_cuLibraryUnload | Op_cuKernelSetAttribute
| Op_cuCtxGetDevice | Op_cuLinkAddFile | Op_cuLinkAddData
| Op_cuLaunchCooperativeKernel | Op_cuLaunchKernel | Op_cuLaunchKernelEx
| Op_cuTensorMapEncodeTiled | Op_cuMemcpyDtoH | Op_cuDeviceGetAttribute
| Op_cuOccupancyMaxActiveClusters.

(** In the order of the constructor's assignments. *)
Definition all_ops : list Op :=
  [Op_cuGetErrorName; Op_cuGetErrorString; Op_cuFuncSetAttribute;
   Op_cuLinkComplete; Op_cuModuleUnload; Op_cuLinkDestroy;
   Op_cuModuleLoadData; Op_cuLinkCreate; Op_cuModuleGetFunction;
   Op_cuModuleGetGlobal; Op_cuLibraryGetKernel; Op_cuLibraryLoadData;
   Op_cuLibraryGetGlobal; Op_cuLibraryUnload; Op_cuKernelSetAttribute;
   Op_cuCtxGetDevice; Op_cuLinkAddFile; Op_cuLinkAddData;
   Op_cuLaunchCooperativeKernel; Op_cuLaunchKernel; Op_cuLaunchKernelEx;
   Op_cuTensorMapEncodeTiled; Op_cuMemcpyDtoH; Op_cuDeviceGetAttribute;
   Op_cuOccupancyMaxActiveClusters].

(** The logical name of an operation: the name of its method. *)
Definition logical_name (op : Op) : string :=
  match op with
  | Op_cuGetErrorName => "cuGetErrorName"
  | Op_cuGetErrorString => "cuGetErrorString"
  | Op_cuFuncSetAttribute => "cuFuncSetAttribute"
  | Op_cuLinkComplete => "cuLinkComplete"
  | Op_cuModuleUnload => "cuModuleUnload"
  | Op_cuLinkDestroy => "cuLinkDestroy"
  | Op_cuModuleLoadData => "cuModuleLoadData"
  | Op_cuLinkCreate => "cuLinkCreate"
  | Op_cuModuleGetFunction => "cuModuleGetFunction"
  | Op_cuModuleGetGlobal => "cuModuleGetGlobal"
  | Op_cuLibraryGetKernel => "cuLibraryGetKernel"
  | Op_cuLibraryLoadData => "cuLibraryLoadData"
  | Op_cuLibraryGetGlobal => "cuLibraryGetGlobal"
  | Op_cuLibraryUnload => "cuLibraryUnload"
  | Op_cuKernelSetAttribute => "cuKernelSetAttribute"
  | Op_cuCtxGetDevice => "cuCtxGetDevice"
  | Op_cuLinkAddFile => "cuLinkAddFile"
  | Op_cuLinkAddData => "cuLinkAddData"
  | Op_cuLaunchCooperativeKernel => "cuLaunchCooperativeKernel"
  | Op_cuLaunchKernel => "cuLaunchKernel"
  | Op_cuLaunchKernelEx => "cuLaunchKernelEx"
  | Op_cuTensorMapEncodeTiled => "cuTensorMapEncodeTiled"
  | Op_cuMemcpyDtoH => "cuMemcpyDtoH"
  | Op_cuDeviceGetAttribute => "cuDeviceGetAttribute"
  | Op_cuOccupancyMaxActiveClusters => "cuOccupancyMaxActiveClusters"
  end.

(** The pointer member of an operation. *)
Definition slot (op : Op) (self : CUDADriverWrapper) : Z :=
  match op with
  | Op_cuGetErrorName => _cuGetErrorName self
  | Op_cuGetErrorString => _cuGetErrorString self
  | Op_cuFuncSetAttribute => _cuFuncSetAttribute self
  | Op_cuLinkComplete => _cuLinkComplete self
  | Op_cuModuleUnload => _cuModuleUnload self
  | Op_cuLinkDestroy => _cuLinkDestroy self
  | Op_cuModuleLoadData => _cuModuleLoadData self
  | Op_cuLinkCreate => _cuLinkCreate self
  | Op_cuModuleGetFunction => _cuModuleGetFunction self
  | Op_cuModuleGetGlobal => _cuModuleGetGlobal self
  | Op_cuLibraryGetKernel => _cuLibraryGetKernel self
  | Op_cuLibraryLoadData => _cuLibraryLoadData self
  | Op_cuLibraryGetGlobal => _cuLibraryGetGlobal self
  | Op_cuLibraryUnload => _cuLibraryUnload self
  | Op_cuKernelSetAttribute => _cuKernelSetAttribute self
  | Op_cuCtxGetDevice => _cuCtxGetDevice self
  | Op_cuLinkAddFile => _cuLinkAddFile self
  | Op_cuLinkAddData => _cuLinkAddData self
  | Op_cuLaunchCooperativeKernel => _cuLaunchCooperativeKernel self
  | Op_cuLaunchKernel => _cuLaunchKernel self
  | Op_cuLaunchKernelEx => _cuLaunchKernelEx self
  | Op_cuTensorMapEncodeTiled => _cuTensorMapEncodeTiled self
  | Op_cuMemcpyDtoH => _cuMemcpyDtoH self
  | Op_cuDeviceGetAttribute => _cuDeviceGetAttribute self
  | Op_cuOccupancyMaxActiveClusters => _cuOccupancyMaxActiveClusters self
  end.

(** The operations bound to a version-suffixed export. *)
Definition versioned (op : Op) : bool :=
  match op with
  | Op_cuLinkCreate | Op_cuModuleGetGlobal | Op_cuLinkAddFile
  | Op_cuLinkAddData | Op_cuMemcpyDtoH => true
  | _ => false
  end.

Definition exported_name (op : Op) : string :=
  if versioned op then logical_name op +:+ "_v2" else logical_name op.

Definition lib_file (H : Host) : string := dll_file (platform H) CUDA_LIB_NAME.

(** The table a handle resolves to, one pointer per operation. *)
Definition resolved (H : Host) (h : Z) (op : Op) : Z :=
  os_sym H h (exported_name op).

Definition fully_bound (self : CUDADriverWrapper) : Prop :=
  forall op, slot op self <> 0.

(** The world after one open of the driver library. *)
Definition opened (H : Host) (w : World) : World :=
  {| opens := S (opens w); trace := trace w ++ [EvOpen (lib_file H)];
     objs := objs w; instance := instance w; mutex := mutex w |}.

Definition add_trace (es : list Event) (w : World) : World :=
  {| opens := opens w; trace := trace w ++ es; objs := objs w;
     instance := instance w; mutex := mutex w |}.

Definition open_failed_msg : string :=
  "CUDA driver library is not open correctly.".

(** *** A call of a plain forwarding method with its arguments *)

Inductive Call :=
| Call_cuGetErrorName (error pStr : Z)
| Call_cuGetErrorString (error pStr : Z)
| Call_cuFuncSetAttribute (hfunc attrib value : Z)
| Call_cuLinkComplete (state cubinOut sizeOut : Z)
| Call_cuModuleUnload (hmod : Z)
| Call_cuLinkDestroy (state : Z)
| Call_cuModuleLoadData (module image : Z)
| Call_cuLinkCreate (numOptions options optionValues stateOut : Z)
| Call_cuModuleGetFunction (hfunc hmod name : Z)
| Call_cuModuleGetGlobal (dptr bytes hmod name : Z)
| Call_cuLibraryGetKernel (pKernel library name : Z)
| Call_cuLibraryLoadData
    (library code jitOptions jitOptionsValues numJitOptions
     libraryOptions libraryOptionValues numLibraryOptions : Z)
| Call_cuLibraryGetGlobal (dptr bytes library name : Z)
| Call_cuLibraryUnload (library : Z)
| Call_cuKernelSetAttribute (attrib val kernel dev : Z)
| Call_cuCtxGetDevice (device : Z)
| Call_cuLinkAddFile (state type path numOptions options optionValues : Z)
| Call_cuLinkAddData
    (state type data size name numOptions options optionValues : Z)
| Call_cuLaunchCooperativeKernel
    (f gridDimX gridDimY gridDimZ blockDimX blockDimY blockDimZ
     sharedMemBytes hStream kernelParams : Z)
| Call_cuLaunchKernel
    (f gridDimX gridDimY gridDimZ blockDimX blockDimY blockDimZ
     sharedMemBytes hStream kernelParams extra : Z)
| Call_cuTensorMapEncodeTiled
    (tensorMap tensorDataType tensorRank globalAddress globalDim
     globalStrides boxDim elementStrides interleave swizzle
     l2Promotion oobFill : Z)
| Call_cuMemcpyDtoH (dstHost srcDevice ByteCount : Z)
| Call_cuDeviceGetAttribute (pi attrib dev : Z)
| Call_cuOccupancyMaxActiveClusters (maxActiveClusters f config : Z).

Definition call_op (c : Call) : Op :=
  match c with
  | Call_cuGetErrorName _ _ => Op_cuGetErrorName
  | Call_cuGetErrorString _ _ => Op_cuGetErrorString
  | Call_cuFuncSetAttribute _ _ _ => Op_cuFuncSetAttribute
  | Call_cuLinkComplete _ _ _ => Op_cuLinkComplete
  | Call_cuModuleUnload _ => Op_cuModuleUnload
  | Call_cuLinkDestroy _ => Op_cuLinkDestroy
  | Call_cuModuleLoadData _ _ => Op_cuModuleLoadData
  | Call_cuLinkCreate _ _ _ _ => Op_cuLinkCreate
  | Call_cuModuleGetFunction _ _ _ => Op_cuModuleGetFunction
  | Call_cuModuleGetGlobal _ _ _ _ => Op_cuModuleGetGlobal
  | Call_cuLibraryGetKernel _ _ _ => Op_cuLibraryGetKernel
  | Call_cuLibraryLoadData _ _ _ _ _ _ _ _ => Op_cuLibraryLoadData
  | Call_cuLibraryGetGlobal _ _ _ _ => Op_cuLibraryGetGlobal
  | Call_cuLibraryUnload _ => Op_cuLibraryUnload
  | Call_cuKernelSetAttribute _ _ _ _ => Op_cuKernelSetAttribute
  | Call_cuCtxGetDevice _ => Op_cuCtxGetDevice
  | Call_cuLinkAddFile _ _ _ _ _ _ => Op_cuLinkAddFile
  | Call_cuLinkAddData _ _ _ _ _ _ _ _ => Op_cuLinkAddData
  | Call_cuLaunchCooperativeKernel _ _ _ _ _ _ _ _ _ _ =>
      Op_cuLaunchCooperativeKernel
  | Call_cuLaunchKernel _ _ _ _ _ _ _ _ _ _ _ => Op_cuLaunchKernel
  | Call_cuTensorMapEncodeTiled _ _ _ _ _ _ _ _ _ _ _ _ =>
      Op_cuTensorMapEncodeTiled
  | Call_cuMemcpyDtoH _ _ _ => Op_cuMemcpyDtoH
  | Call_cuDeviceGetAttribute _ _ _ => Op_cuDeviceGetAttribute
  | Call_cuOccupancyMaxActiveClusters _ _ _ => Op_cuOccupancyMaxActiveClusters
  end.

(** The caller's arguments, in the order of the method's signature. *)
Definition call_args (c : Call) : list Z :=
  match c with
  | Call_cuGetErrorName a b | Call_cuGetErrorString a b
  | Call_cuModuleLoadData a b => [a; b]
  | Call_cuFuncSetAttribute a b c | Call_cuLinkComplete a b c
  | Call_cuModuleGetFunction a b c | Call_cuLibraryGetKernel a b c
  | Call_cuMemcpyDtoH a b c | Call_cuDeviceGetAttribute a b c
  | Call_cuOccupancyMaxActiveClusters a b c => [a; b; c]
  | Call_cuModuleUnload a | Call_cuLinkDestroy a | Call_cuLibraryUnload a
  | Call_cuCtxGetDevice a => [a]
  | Call_cuLinkCreate a b c d | Call_cuModuleGetGlobal a b c d
  | Call_cuLibraryGetGlobal a b c d | Call_cuKernelSetAttribute a b c d =>
      [a; b; c; d]
  | Call_cuLinkAddFile a b c d e f => [a; b; c; d; e; f]
  | Call_cuLibraryLoadData a b c d e f g h
  | Call_cuLinkAddData a b c d e f g h => [a; b; c; d; e; f; g; h]
  | Call_cuLaunchCooperativeKernel a b c d e f g h i j =>
      [a; b; c; d; e; f; g; h; i; j]
  | Call_cuLaunchKernel a b c d e f g h i j k =>
      [a; b; c; d; e; f; g; h; i; j; k]
  | Call_cuTensorMapEncodeTiled a b c d e f g h i j k l =>
      [a; b; c; d; e; f; g; h; i; j; k; l]
  end.

(** Making the call on a wrapper. *)
Definition perform (H : Host) (self : CUDADriverWrapper) (c : Call) : M Z :=
  match c with
  | Call_cuGetErrorName a b => cuGetErrorName H self a b
  | Call_cuGetErrorString a b => cuGetErrorString H self a b
  | Call_cuFuncSetAttribute a b c => cuFuncSetAttribute H self a b c
  | Call_cuLinkComplete a b c => cuLinkComplete H self a b c
  | Call_cuModuleUnload a => cuModuleUnload H self a
  | Call_cuLinkDestroy a => cuLinkDestroy H self a
  | Call_cuModuleLoadData a b => cuModuleLoadData H self a b
  | Call_cuLinkCreate a b c d => cuLinkCreate H self a b c d
  | Call_cuModuleGetFunction a b c => cuModuleGetFunction H self a b c
  | Call_cuModuleGetGlobal a b c d => cuModuleGetGlobal H self a b c d
  | Call_cuLibraryGetKernel a b c => cuLibraryGetKernel H self a b c
  | Call_cuLibraryLoadData a b c d e f g h =>
      cuLibraryLoadData H self a b c d e f g h
  | Call_cuLibraryGetGlobal a b c d => cuLibraryGetGlobal H self a b c d
  | Call_cuLibraryUnload a => cuLibraryUnload H self a
  | Call_cuKernelSetAttribute a b c d => cuKernelSetAttribute H self a b c d
  | Call_cuCtxGetDevice a => cuCtxGetDevice H self a
  | Call_cuLinkAddFile a b c d e f => cuLinkAddFile H self a b c d e f
  | Call_cuLinkAddData a b c d e f g h => cuLinkAddData H self a b c d e f g h
  | Call_cuLaunchCooperativeKernel a b c d e f g h i j =>
      cuLaunchCooperativeKernel H self a b c d e f g h i j
  | Call_cuLaunchKernel a b c d e f g h i j k =>
      cuLaunchKernel H self a b c d e f g h i j k
  | Call_cuTensorMapEncodeTiled a b c d e f g h i j k l =>
      cuTensorMapEncodeTiled H self a b c d e f g h i j k l
  | Call_cuMemcpyDtoH a b c => cuMemcpyDtoH H self a b c
  | Call_cuDeviceGetAttribute a b c => cuDeviceGetAttribute H self a b c
  | Call_cuOccupancyMaxActiveClusters a b c =>
      cuOccupancyMaxActiveClusters H self a b c
  end.

(** *** The trace, line by line *)

(** The lines of a text, each ended by a line feed. *)
Fixpoint lines_from (cur s : string) : list string :=
  match s with
  | EmptyString => match cur with EmptyString => [] | _ => [cur] end
  | String c s' =>
      if Ascii.eqb c "010" then cur :: lines_from "" s'
      else lines_from (cur +:+ String c "") s'
  end.

Definition lines (s : string) : list string := lines_from "" s.

Definition unlines (ls : list string) : string :=
  fold_right (fun l acc => l +:+ nl +:+ acc) "" ls.

(** What the code writes for one attribute; numbers follow [std::hex]
    of the stream line and are hexadecimal. *)
Definition attr_desc (H : Host) (attr : CUlaunchAttribute) : string :=
  if attr_id attr =? CU_LAUNCH_ATTRIBUTE_CLUSTER_DIMENSION H then
    "Cluster Dimension: (" +:+ show_hex (value_clusterDim_x attr) +:+ ", "
      +:+ show_hex (value_clusterDim_y attr) +:+ ", "
      +:+ show_hex (value_clusterDim_z attr) +:+ ")"
  else if attr_id attr =? CU_LAUNCH_ATTRIBUTE_PRIORITY H then
    "Priority: " +:+ show_hex (value_priority attr mod 2 ^ 32)
  else
    "Unknown Attribute (ID=" +:+ show_hex (attr_id attr mod 2 ^ 32) +:+ ")".

Definition attr_line (H : Host) (i : nat) (attr : CUlaunchAttribute) : string :=
  "  [" +:+ show_hex (Z.of_nat i) +:+ "] " +:+ attr_desc H attr.

Definition grid_line (c : CUlaunchConfig) : string :=
  "Grid Dimensions: (" +:+ show_dec (gridDimX c) +:+ ", "
    +:+ show_dec (gridDimY c) +:+ ", " +:+ show_dec (gridDimZ c) +:+ ")".

Definition block_line (c : CUlaunchConfig) : string :=
  "Block Dimensions: (" +:+ show_dec (blockDimX c) +:+ ", "
    +:+ show_dec (blockDimY c) +:+ ", " +:+ show_dec (blockDimZ c) +:+ ")".

Definition shared_line (c : CUlaunchConfig) : string :=
  "Shared Memory: " +:+ show_dec (sharedMemBytes c) +:+ " bytes".

Definition stream_line (c : CUlaunchConfig) : string :=
  "Stream: " +:+ (if hStream c =? 0 then "Default" else "Custom")
    +:+ " (0x" +:+ show_hex (hStream c) +:+ ")".

Definition count_line (c : CUlaunchConfig) : string :=
  "Attributes (" +:+ show_hex (numAttrs c) +:+ "):".

Definition header_lines (c : CUlaunchConfig) : list string :=
  [grid_line c; block_line c; shared_line c; stream_line c; count_line c].

(** The attribute lines of the first [numAttrs] attributes. *)
Definition attr_lines (H : Host) (c : CUlaunchConfig) : list string :=
  imap (attr_line H) (take (Z.to_nat (numAttrs c)) (attrs c)).

(** A configuration as C can hold it: the count is an [unsigned int] and
    the array has at least that many elements. *)
Definition wf_config (c : CUlaunchConfig) : Prop :=
  0 <= numAttrs c < 2 ^ 32 /\ numAttrs c <= Z.of_nat (length (attrs c)).

(** The rule the extended launch checks is broken: both argument styles
    at once, or neither. *)
Definition exclusivity_violated (kernelParams extra : Z) : Prop :=
  (kernelParams <> 0 /\ extra <> 0) \/ (kernelParams = 0 /\ extra = 0).

Definition exclusivity_msg : string :=
  "Exactly one of 'extra' and 'kernelParams' should be set.".

(** *** A call of any of the 25 forwarding methods *)

Inductive MethodCall :=
| Plain (c : Call)
| Extended (config f kernelParams extra : Z).   (* cuLaunchKernelEx *)

Definition method_op (m : MethodCall) : Op :=
  match m with
  | Plain c => call_op c
  | Extended _ _ _ _ => Op_cuLaunchKernelEx
  end.

Definition method_args (m : MethodCall) : list Z :=
  match m with
  | Plain c => call_args c
  | Extended config f kernelParams extra => [config; f; kernelParams; extra]
  end.

Definition call_method (H : Host) (self : CUDADriverWrapper) (m : MethodCall)
    : M Z :=
  match m with
  | Plain c => perform H self c
  | Extended config f kernelParams extra =>
      cuLaunchKernelEx H self config f kernelParams extra
  end.

(** What [cuLaunchKernelEx] asks of its arguments before it forwards:
    with the logger at DEBUG level the configuration is read, and with
    the debug checks on exactly one of [kernelParams] and [extra] is
    set.  The plain methods ask nothing. *)
Definition passes_checks (H : Host) (m : MethodCall) : Prop :=
  match m with
  | Plain _ => True
  | Extended config _ kernelParams extra =>
      (log_debug H = true ->
       exists c, mem_config H config = Some c /\ wf_config c)
      /\ (check_debug H = true -> ~ exclusivity_violated kernelParams extra)
  end.

(** *** The singleton's invariant under interleaving *)

Definition holds_mutex (p : PC) : bool :=
  match p with
  | L53 | L56 | L57 | L59 => true
  | _ => false
  end.

Definition has_result (p : PC) : bool :=
  match p with
  | L57 | L59 | Returned => true
  | _ => false
  end.

Definition is_open (e : Event) : bool :=
  match e with EvOpen _ => true | _ => false end.

Record Inv (s : Sys) : Prop := {
  inv_objs : (length (objs (world s)) <= 1)%nat;
  inv_opens : opens (world s) = length (objs (world s));
  inv_trace : length (filter (fun e => is_open e = true) (trace (world s)))
              = opens (world s);
  inv_strong : forall r o, objs (world s) !! r = Some o -> strong o <> 0%nat;
  inv_instance : forall r, instance (world s) = Some r ->
                 (r < length (objs (world s)))%nat;
  inv_result : forall i t r, pool s !! i = Some t -> result t = Some r ->
               (r < length (objs (world s)))%nat;
  inv_has_result : forall i t, pool s !! i = Some t ->
                   has_result (pc t) = true -> is_Some (result t);
  inv_mutex : forall i t, pool s !! i = Some t ->
              (holds_mutex (pc t) = true <-> mutex (world s) = Some i);
  inv_building : forall i t, pool s !! i = Some t -> pc t = L56 ->
                 objs (world s) = [];
  inv_unpublished : instance (world s) = None -> objs (world s) <> [] ->
                    exists i t, pool s !! i = Some t /\ pc t = L57;
  inv_no_failed : forall i t, pool s !! i = Some t -> pc t <> Failed
}.

Definition Good (s : Sys) : Prop :=
  if aborted s then exists i t, pool s !! i = Some t /\ pc t = Failed
  else Inv s.

(** [n] references to object [r] dropped one after the other. *)
Fixpoint release_n (n : nat) (r : nat) : M unit :=
  match n with
  | O => ret tt
  | S n' => release r ;;; release_n n' r
  end.

(** *** Concrete hosts for the examples *)

Definition config0 : CUlaunchConfig :=
  {| gridDimX := 1; gridDimY := 2; gridDimZ := 3;
     blockDimX := 128; blockDimY := 1; blockDimZ := 1;
     sharedMemBytes := 49152; hStream := 48879;
     attrs := [ {| attr_id := 4; value_clusterDim_x := 2;
                   value_clusterDim_y := 10; value_clusterDim_z := 1;
                   value_priority := 2 |};
                {| attr_id := 8; value_clusterDim_x := 7;
                   value_clusterDim_y := 0; value_clusterDim_z := 0;
                   value_priority := 7 |};
                {| attr_id := 11; value_clusterDim_x := 0;
                   value_clusterDim_y := 0; value_clusterDim_z := 0;
                   value_priority := 0 |} ];
     numAttrs := 3 |}.

(** A driver exporting every name; each open yields a new handle. *)
Definition host_ok : Host :=
  {| platform := Posix;
     os_open := fun n _ => 4096 + Z.of_nat n;
     os_sym := fun h name => h * 1000 + Z.of_nat (String.length name);
     native := fun fn args => fn + Z.of_nat (length args);
     mem_config := fun a => if a =? 64 then Some config0 else None;
     log_debug := true;
     check_debug := true;
     CU_LAUNCH_ATTRIBUTE_CLUSTER_DIMENSION := 4;
     CU_LAUNCH_ATTRIBUTE_PRIORITY := 8 |}.

(** An older driver that does not export [cuLaunchKernelEx]. *)
Definition host_old_driver : Host :=
  {| platform := Posix;
     os_open := fun n _ => 4096 + Z.of_nat n;
     os_sym := fun h name =>
       if String.eqb name "cuLaunchKernelEx" then 0
       else h * 1000 + Z.of_nat (String.length name);
     native := fun fn args => fn + Z.of_nat (length args);
     mem_config := fun a => if a =? 64 then Some config0 else None;
     log_debug := true;
     check_debug := true;
     CU_LAUNCH_ATTRIBUTE_CLUSTER_DIMENSION := 4;
     CU_LAUNCH_ATTRIBUTE_PRIORITY := 8 |}.

(** A machine without the driver library. *)
Definition host_no_driver : Host :=
  {| platform := Posix;
     os_open := fun _ _ => 0;
     os_sym := fun _ _ => 0;
     native := fun _ _ => 0;
     mem_config := fun _ => None;
     log_debug := false;
     check_debug := false;
     CU_LAUNCH_ATTRIBUTE_CLUSTER_DIMENSION := 4;
     CU_LAUNCH_ATTRIBUTE_PRIORITY := 8 |}.

(** The wrapper built on the conformant host in a fresh process. *)
Definition null_wrapper : CUDADriverWrapper :=
  {| handle := 0; _cuGetErrorName := 0; _cuGetErrorString := 0;
     _cuFuncSetAttribute := 0; _cuLinkComplete := 0; _cuModuleUnload := 0;
     _cuLinkDestroy := 0; _cuModuleLoadData := 0; _cuLinkCreate := 0;
     _cuModuleGetFunction := 0; _cuModuleGetGlobal := 0;
     _cuLibraryGetKernel := 0; _cuLibraryLoadData := 0;
     _cuLibraryGetGlobal := 0; _cuLibraryUnload := 0;
     _cuKernelSetAttribute := 0; _cuCtxGetDevice := 0; _cuLinkAddFile := 0;
     _cuLinkAddData := 0; _cuLaunchCooperativeKernel := 0;
     _cuLaunchKernel := 0; _cuLaunchKernelEx := 0;
     _cuTensorMapEncodeTiled := 0; _cuMemcpyDtoH := 0;
     _cuDeviceGetAttribute := 0; _cuOccupancyMaxActiveClusters := 0 |}.

Definition wrapper_ok : CUDADriverWrapper :=
  match CUDADriverWrapper_ctor host_ok world0 with
  | (_, Ret self) => self
  | _ => null_wrapper
  end.

(** A text without line feed. *)
Fixpoint no_nl (s : string) : bool :=
  match s with
  | EmptyString => true
  | String c s' => negb (Ascii.eqb c "010") && no_nl s'
  end.

(** The world after two calls of [getInstance] in a fresh process: one
    object, two references. *)
Definition world_two_refs : World :=
  fst ((getInstance host_ok 0 ;;; getInstance host_ok 0) world0).

(** A call run without interference: the caller makes its steps one
    after the other until it has returned or the process is dead. *)
Fixpoint run_alone (H : Host) (tid : nat) (fuel : nat) (w : World) (t : Thread)
    : World * Outcome nat :=
  match statement H tid w t with
  | Next w' t' =>
      match fuel with
      | S fuel' => run_alone H tid fuel' w' t'
      | O => (w', Fault)
      end
  | NoStep =>
      match pc t, result t with
      | Returned, Some r => (w, Ret r)
      | _, _ => (w, Fault)
      end
  | Dead w' o => (w', o)
  end.

(** What holds of a process without data race while the weak pointer
    has not been written. *)
Record Unpublished (e : Exec) : Prop := {
  unp_instance : instance (world (sys e)) = None;
  unp_writes : forall j, write_vc (sync e) j = 0%nat;
  unp_clocks : forall i j, i <> j -> vc (sync e) i j = 0%nat;
  unp_mutex_vc : forall j, mutex_vc (sync e) j = 0%nat;
  unp_reads : forall i t, pool (sys e) !! i = Some t -> pc t <> L46 ->
              read_vc (sync e) i <> 0%nat;
  unp_self : forall i, vc (sync e) i i <> 0%nat;
  unp_pcs : forall i t, pool (sys e) !! i = Some t ->
            pc t <> L59 /\ pc t <> Returned
}.

(** What holds of it once caller [u] has written the weak pointer. *)
Record Published (e : Exec) (u : nat) : Prop := {
  pub_writer : exists t, pool (sys e) !! u = Some t
                         /\ (pc t = L59 \/ pc t = Returned);
  pub_write : write_vc (sync e) u <> 0%nat;
  pub_others : forall i t, i <> u -> pool (sys e) !! i = Some t -> pc t = L46;
  pub_clocks : forall i, i <> u -> vc (sync e) i u = 0%nat;
  pub_running : aborted (sys e) = false
}.

Definition Phases (e : Exec) : Prop :=
  raced e = false -> Unpublished e \/ exists u, Published e u.

(** ** Further vocabulary *)

(** A driver of the CUDA 11 line: no tensor map encoding. *)
Definition host_cuda11 : Host :=
  {| platform := Posix;
     os_open := fun n _ => 4096 + Z.of_nat n;
     os_sym := fun h name =>
       if String.eqb name "cuTensorMapEncodeTiled" then 0
       else h * 1000 + Z.of_nat (String.length name);
     native := fun fn args => fn + Z.of_nat (length args);
     mem_config := fun a => if a =? 64 then Some config0 else None;
     log_debug := false;
     check_debug := false;
     CU_LAUNCH_ATTRIBUTE_CLUSTER_DIMENSION := 4;
     CU_LAUNCH_ATTRIBUTE_PRIORITY := 8 |}.

(** A driver that exports the 25 names of the constructor, each at an
    address of its own, and no other name. *)
Definition host_distinct : Host :=
  {| platform := Posix;
     os_open := fun n _ => 4096 + Z.of_nat n;
     os_sym := fun h name =>
       if existsb (String.eqb name) (map exported_name all_ops)
       then Z.pos (countable.encode name)
       else 0;
     native := fun fn args => fn;
     mem_config := fun _ => None;
     log_debug := false;
     check_debug := false;
     CU_LAUNCH_ATTRIBUTE_CLUSTER_DIMENSION := 4;
     CU_LAUNCH_ATTRIBUTE_PRIORITY := 8 |}.

(** The configuration with another attribute array behind its pointer. *)
Definition with_attrs (l : list CUlaunchAttribute) (c : CUlaunchConfig)
    : CUlaunchConfig :=
  {| gridDimX := gridDimX c; gridDimY := gridDimY c; gridDimZ := gridDimZ c;
     blockDimX := blockDimX c; blockDimY := blockDimY c;
     blockDimZ := blockDimZ c;
     sharedMemBytes := sharedMemBytes c; hStream := hStream c;
     attrs := l; numAttrs := numAttrs c |}.

(** Reading a number back from its digits, in base ten and sixteen. *)
Definition read_dec (s : string) : option Z :=
  match DecimalString.NilZero.uint_of_string s with
  | Some d => Some (Z.of_N (N.of_uint d))
  | None => None
  end.

Definition read_hex (s : string) : option Z :=
  match HexadecimalString.NilZero.uint_of_string s with
  | Some d => Some (Z.of_N (N.of_hex_uint d))
  | None => None
  end.

(** Sixteen attributes of an unknown kind. *)
Definition config16 : CUlaunchConfig :=
  with_attrs
    (replicate 16 {| attr_id := 0; value_clusterDim_x := 0;
                     value_clusterDim_y := 0; value_clusterDim_z := 0;
                     value_priority := 0 |})
    {| gridDimX := 16; gridDimY := 1; gridDimZ := 1;
       blockDimX := 256; blockDimY := 1; blockDimZ := 1;
       sharedMemBytes := 0; hStream := 0; attrs := []; numAttrs := 16 |}.

(** Calls of [getInstance] one after the other, by the callers [tids];
    every caller keeps what it received. *)
Fixpoint getInstance_each (H : Host) (tids : list nat) : M (list nat) :=
  match tids with
  | [] => ret []
  | tid :: rest =>
      r <- getInstance H tid ;;
      rs <- getInstance_each H rest ;;
      ret (r :: rs)
  end.

(** The pattern [CUDADriverWrapper::getInstance()->...]: the reference
    is a temporary, dropped at the end of the statement. *)
Definition use_once (H : Host) (tid : nat) : M unit :=
  r <- getInstance H tid ;;
  release r.

Fixpoint repeat_M (n : nat) (c : M unit) : M unit :=
  match n with
  | O => ret tt
  | S n' => c ;;; repeat_M n' c
  end.

(** The loader events of one construction and destruction on the
    handle of the k-th open. *)
Definition cycle_events (H : Host) (k : nat) : list Event :=
  EvOpen (lib_file H)
    :: map (fun op => EvSym (os_open H k (lib_file H)) (exported_name op)) all_ops
    ++ [EvClose (os_open H k (lib_file H))].

#[global] Instance PC_eq_dec : EqDecision PC.
Proof. solve_decision. Defined.

(** The callers that hold a reference to the first object. *)
Definition holds_obj (t : Thread) : nat :=
  match result t with
  | Some O => 1
  | _ => 0
  end.

Definition holders (ts : list Thread) : nat := sum_list (holds_obj <$> ts).

(** What holds of the running process beside [Inv]. *)
Record Inv2 (H : Host) (s : Sys) : Prop := {
  inv2_mutex_in_pool : forall j, mutex (world s) = Some j ->
                       (j < length (pool s))%nat;
  inv2_fresh : forall i t, pool s !! i = Some t ->
               has_result (pc t) = false -> result t = None;
  inv2_count : forall o, objs (world s) !! 0%nat = Some o ->
               strong o = holders (pool s);
  inv2_opened : objs (world s) <> [] -> os_open H 0 (lib_file H) <> 0
}.

(** What holds of the process once the fatal check has stopped it. *)
Record Halted (H : Host) (s : Sys) : Prop := {
  halted_opens : opens (world s) = 1%nat;
  halted_objs : objs (world s) = [];
  halted_open_failed : os_open H 0 (lib_file H) = 0;
  halted_no_holder : forall i t, pool s !! i = Some t ->
                     holds_mutex (pc t) = false;
  halted_none_returned : forall i t, pool s !! i = Some t -> pc t <> Returned
}.

Definition Good2 (H : Host) (s : Sys) : Prop :=
  Good s /\ if aborted s then Halted H s else Inv2 H s.

(** What a client does with the singleton: take a reference and keep
    it, or drop a reference to an object. *)
Inductive ClientOp :=
| Acquire (tid : nat)
| Drop (r : nat).

Definition do_op (H : Host) (op : ClientOp) : M unit :=
  match op with
  | Acquire tid => r <- getInstance H tid ;; ret tt
  | Drop r => release r
  end.

Fixpoint do_ops (H : Host) (ops : list ClientOp) : M unit :=
  match ops with
  | [] => ret tt
  | op :: rest => do_op H op ;;; do_ops H rest
  end.

Definition is_close (e : Event) : bool :=
  match e with EvClose _ => true | _ => false end.

Definition count_opens (tr : list Event) : nat :=
  length (filter (fun e => is_open e = true) tr).

Definition count_closes (tr : list Event) : nat :=
  length (filter (fun e => is_close e = true) tr).

(** Destroyed objects. *)
Definition dead (o : Obj) : nat :=
  match strong o with
  | O => 1
  | S _ => 0
  end.

(** The state of the singleton between two operations of a client. *)
Record Settled (w : World) : Prop := {
  settled_mutex : mutex w = None;
  settled_alive : forall r o, objs w !! r = Some o -> strong o <> 0%nat ->
                  instance w = Some r;
  settled_opens : count_opens (trace w) = length (objs w);
  settled_closes : count_closes (trace w) = sum_list (dead <$> objs w);
  settled_handles : forall r o, objs w !! r = Some o -> handle (obj_val o) <> 0;
  settled_closed : forall h, In (EvClose h) (trace w) -> h <> 0
}.

(** A client that takes two references, drops both, and starts again. *)
Definition client_demo : list ClientOp :=
  [Acquire 0; Acquire 1; Drop 0; Drop 0; Acquire 2; Acquire 0; Drop 1].

(** * Properties *)

(** ** The constructor *)

(** A failed open: one loader call, the fatal check, nothing else. *)
Lemma ctor_open_null (H : Host) (w : World) :
  os_open H (opens w) (lib_file H) = 0 ->
  CUDADriverWrapper_ctor H w = (opened H w, Fatal open_failed_msg).
Proof.
  intros Hnull. unfold CUDADriverWrapper_ctor, bind, dllOpen. cbn.
  change (dll_file (platform H) CUDA_LIB_NAME) with (lib_file H).
  rewrite Hnull. reflexivity.
Qed.

Lemma emit_add_trace (e : Event) (w : World) : emit e w = add_trace [e] w.
Proof. reflexivity. Qed.

Lemma add_trace_add_trace (es es' : list Event) (w : World) :
  add_trace es' (add_trace es w) = add_trace (es ++ es') w.
Proof. unfold add_trace. cbn. rewrite app_assoc. reflexivity. Qed.

(** One assignment of the constructor: a loader call, whose answer the
    rest of the constructor receives. *)
Lemma bind_load_sym {A} (H : Host) (h : Z) (name : string) (k : Z -> M A)
    (w : World) :
  (p <- load_sym H h name ;; k p) w = k (os_sym H h name) (emit (EvSym h name) w).
Proof. reflexivity. Qed.

(** A successful open: the 25 names are resolved in order and stored as
    they come back. *)
Lemma ctor_open_ok (H : Host) (w : World) :
  os_open H (opens w) (lib_file H) <> 0 ->
  exists self,
    CUDADriverWrapper_ctor H w =
      (add_trace
         (map (fun op => EvSym (os_open H (opens w) (lib_file H)) (exported_name op))
            all_ops)
         (opened H w), Ret self)
    /\ handle self = os_open H (opens w) (lib_file H)
    /\ forall op, slot op self = resolved H (handle self) op.
Proof.
  intros Hh. apply Z.eqb_neq in Hh.
  eexists. split; [|split].
  - unfold CUDADriverWrapper_ctor. unfold bind at 1. unfold dllOpen.
    change (dll_file (platform H) CUDA_LIB_NAME) with (lib_file H).
    fold (opened H w). unfold bind at 1, TLLM_CHECK_WITH_INFO.
    rewrite Hh. cbn [negb].
    rewrite !bind_load_sym. unfold ret.
    rewrite !emit_add_trace, !add_trace_add_trace. reflexivity.
  - reflexivity.
  - intros []; reflexivity.
Qed.

(** The constructor has two outcomes only, decided by the open. *)
Lemma ctor_inv (H : Host) (w w' : World) (self : CUDADriverWrapper) :
  CUDADriverWrapper_ctor H w = (w', Ret self) ->
  os_open H (opens w) (lib_file H) <> 0
  /\ w' = add_trace
            (map (fun op => EvSym (handle self) (exported_name op)) all_ops)
            (opened H w)
  /\ handle self = os_open H (opens w) (lib_file H)
  /\ forall op, slot op self = resolved H (handle self) op.
Proof.
  intros Hc.
  destruct (Z.eq_dec (os_open H (opens w) (lib_file H)) 0) as [Hz|Hnz].
  - rewrite (ctor_open_null H w Hz) in Hc. discriminate.
  - destruct (ctor_open_ok H w Hnz) as (o & Ho & Hh & Hs).
    rewrite Ho in Hc. injection Hc as <- <-.
    rewrite Hh. repeat split; [exact Hnz|rewrite <- Hh; exact Hs].
Qed.

Lemma all_ops_complete (op : Op) : In op all_ops.
Proof. destruct op; cbn; tauto. Qed.

Lemma all_ops_NoDup : NoDup all_ops.
Proof.
  unfold all_ops.
  repeat (constructor; [rewrite !list_elem_of_In; cbn; intuition discriminate|]).
  constructor.
Qed.

(** C1, as stated, fails: on a driver that lacks one export the
    constructor returns successfully and the wrapper holds a null
    pointer for that operation. *)
Lemma ctor_leaves_null_pointer :
  exists w' self,
    CUDADriverWrapper_ctor host_old_driver world0 = (w', Ret self)
    /\ slot Op_cuLaunchKernelEx self = 0
    /\ ~ fully_bound self.
Proof.
  destruct (ctor_open_ok host_old_driver world0) as (self & Hc & Hh & Hs).
  - cbn. lia.
  - exists (add_trace
              (map (fun op => EvSym (os_open host_old_driver (opens world0)
                                       (lib_file host_old_driver))
                                (exported_name op)) all_ops)
              (opened host_old_driver world0)), self.
    assert (Hz : slot Op_cuLaunchKernelEx self = 0).
    { rewrite Hs, Hh. reflexivity. }
    split; [exact Hc|]. split; [exact Hz|].
    intros Hb. exact (Hb Op_cuLaunchKernelEx Hz).
Qed.

(** C1 (amended): whatever the host, a successful construction has a
    non-null handle and every pointer equal to what the loader resolved
    for the operation's exported name, so the wrapper is fully bound
    exactly when the library exports all the names; the only failure of
    the constructor is the failed open. *)
Theorem ctor_binds_what_resolves (H : Host) (w : World) :
  match CUDADriverWrapper_ctor H w with
  | (w', Ret self) =>
      handle self <> 0
      /\ (forall op, slot op self = resolved H (handle self) op)
      /\ (fully_bound self <-> forall op, resolved H (handle self) op <> 0)
  | (w', Fatal msg) =>
      os_open H (opens w) (lib_file H) = 0 /\ msg = open_failed_msg
  | (w', Fault) => False
  end.
Proof.
  destruct (Z.eq_dec (os_open H (opens w) (lib_file H)) 0) as [Hz|Hnz].
  - rewrite (ctor_open_null H w Hz). auto.
  - destruct (ctor_open_ok H w Hnz) as (self & -> & Hh & Hs).
    split; [congruence|]. split; [exact Hs|].
    unfold fully_bound. split; intros Hb op.
    + rewrite <- Hs. apply Hb.
    + rewrite Hs. apply Hb.
Qed.

Lemma weak_lock_none (w : World) :
  snd (weak_lock w) = None -> weak_lock w = (w, None).
Proof.
  unfold weak_lock.
  destruct (instance w) as [r|]; [|reflexivity].
  destruct (objs w !! r) as [o|]; [|reflexivity].
  destruct (Nat.eqb (strong o) 0); [reflexivity|discriminate].
Qed.

Lemma weak_lock_set_mutex (m : option nat) (w : World) :
  weak_lock (set_mutex m w)
  = (set_mutex m (fst (weak_lock w)), snd (weak_lock w)).
Proof.
  unfold weak_lock. cbn.
  destruct (instance w) as [r|]; [|reflexivity].
  destruct (objs w !! r) as [o|]; [|reflexivity].
  destruct (Nat.eqb (strong o) 0); reflexivity.
Qed.

(** The two paths of [getInstance]. *)
Lemma getInstance_fast (H : Host) (tid : nat) (w w1 : World) (r : nat) :
  weak_lock w = (w1, Some r) -> getInstance H tid w = (w1, Ret r).
Proof.
  intros Hw. unfold getInstance, bind at 1, instance_lock. rewrite Hw.
  reflexivity.
Qed.

Lemma getInstance_slow (H : Host) (tid : nat) (w : World) :
  snd (weak_lock w) = None -> mutex w = None ->
  getInstance H tid w
  = match new_shared H (set_mutex (Some tid) w) with
    | (w4, Ret r) => (set_mutex None (set_instance (Some r) w4), Ret r)
    | (w4, Fatal msg) => (w4, Fatal msg)
    | (w4, Fault) => (w4, Fault)
    end.
Proof.
  intros Hl Hm. unfold getInstance, bind at 1, instance_lock.
  rewrite (weak_lock_none w Hl).
  unfold bind at 1, lock_guard. rewrite Hm.
  unfold bind at 1. rewrite weak_lock_set_mutex, (weak_lock_none w Hl).
  cbn [fst snd]. unfold bind at 1 2.
  destruct (new_shared H (set_mutex (Some tid) w)) as [w4 [r| |]]; reflexivity.
Qed.

(** C3: when the open of the driver library returns a null handle the
    constructor stops at the fatal check after that single loader call:
    no second open, no symbol resolved, no wrapper; and a call of
    [getInstance] that has to construct ends in the same fatal failure,
    leaving the set of objects and the weak pointer as they were. *)
Theorem ctor_fatal_on_null_handle (H : Host) (w : World) (tid : nat) :
  os_open H (opens w) (lib_file H) = 0 ->
  CUDADriverWrapper_ctor H w = (opened H w, Fatal open_failed_msg)
  /\ (mutex w = None -> snd (weak_lock w) = None ->
      exists w', getInstance H tid w = (w', Fatal open_failed_msg)
                 /\ trace w' = trace w ++ [EvOpen (lib_file H)]
                 /\ opens w' = S (opens w)
                 /\ objs w' = objs w
                 /\ instance w' = instance w).
Proof.
  intros Hz. split; [apply ctor_open_null; exact Hz|].
  intros Hm Hl. eexists. split.
  - rewrite (getInstance_slow H tid w Hl Hm). unfold new_shared, bind.
    rewrite (ctor_open_null H (set_mutex (Some tid) w)) by exact Hz.
    reflexivity.
  - cbn. auto.
Qed.

Lemma ctor_fatal_on_null_handle_witness :
  os_open host_no_driver (opens world0) (lib_file host_no_driver) = 0
  /\ CUDADriverWrapper_ctor host_no_driver world0
     = (opened host_no_driver world0, Fatal open_failed_msg).
Proof.
  split; [reflexivity|].
  apply (ctor_fatal_on_null_handle host_no_driver world0 0%nat).
  reflexivity.
Defined.

(** C7: a successful construction asks the loader for exactly one name
    per operation, in the order of the assignments, and stores the
    answer in that operation's pointer.  The name is the logical name
    with the suffix [_v2] for cuLinkCreate, cuModuleGetGlobal,
    cuLinkAddFile, cuLinkAddData and cuMemcpyDtoH, and the logical name
    itself for every other operation. *)
Theorem ctor_symbol_names (H : Host) (w w' : World) (self : CUDADriverWrapper) :
  CUDADriverWrapper_ctor H w = (w', Ret self) ->
  trace w' = trace w ++ EvOpen (lib_file H)
               :: map (fun op => EvSym (handle self) (exported_name op)) all_ops
  /\ (forall op, slot op self = os_sym H (handle self) (exported_name op))
  /\ (forall op, In op all_ops) /\ NoDup all_ops
  /\ exported_name Op_cuLinkCreate = "cuLinkCreate_v2"
  /\ exported_name Op_cuModuleGetGlobal = "cuModuleGetGlobal_v2"
  /\ exported_name Op_cuLinkAddFile = "cuLinkAddFile_v2"
  /\ exported_name Op_cuLinkAddData = "cuLinkAddData_v2"
  /\ exported_name Op_cuMemcpyDtoH = "cuMemcpyDtoH_v2"
  /\ (forall op,
        op <> Op_cuLinkCreate -> op <> Op_cuModuleGetGlobal ->
        op <> Op_cuLinkAddFile -> op <> Op_cuLinkAddData ->
        op <> Op_cuMemcpyDtoH ->
        exported_name op = logical_name op).
Proof.
  intros Hc. apply ctor_inv in Hc as (_ & -> & _ & Hs).
  split.
  { unfold add_trace, opened. cbn [trace]. rewrite <- app_assoc. reflexivity. }
  split; [exact Hs|].
  split; [exact all_ops_complete|].
  split; [exact all_ops_NoDup|].
  repeat (split; [reflexivity|]).
  intros [] ? ? ? ? ?; try reflexivity; congruence.
Qed.

Lemma ctor_symbol_names_witness :
  exists w',
    CUDADriverWrapper_ctor host_ok world0 = (w', Ret wrapper_ok)
    /\ slot Op_cuMemcpyDtoH wrapper_ok
       = os_sym host_ok (handle wrapper_ok) "cuMemcpyDtoH_v2".
Proof.
  eexists. split; [reflexivity|].
  eapply (ctor_symbol_names host_ok world0 _ wrapper_ok).
  reflexivity.
Defined.

(** ** The forwarding methods *)

(** Each plain forwarding method is one call through its own pointer
    with its parameters in the order of the signature. *)
Lemma perform_invoke (H : Host) (self : CUDADriverWrapper) (c : Call) :
  perform H self c = invoke H (slot (call_op c) self) (call_args c).
Proof. destruct c; reflexivity. Qed.

Lemma invoke_non_null (H : Host) (fn : Z) (args : list Z) (w : World) :
  fn <> 0 ->
  invoke H fn args w = (emit (EvCall fn args) w, Ret (native H fn args)).
Proof.
  intros Hp. apply Z.eqb_neq in Hp. unfold invoke. rewrite Hp. reflexivity.
Qed.

(** From the library to the call: on a wrapper built by the constructor
    a forwarding method runs the code that the library exports under the
    operation's exported name. *)
Lemma bound_call_reaches_export (H : Host) (w w' : World)
    (self : CUDADriverWrapper) (c : Call) (w2 : World) :
  CUDADriverWrapper_ctor H w = (w', Ret self) ->
  os_sym H (handle self) (exported_name (call_op c)) <> 0 ->
  perform H self c w2
  = (emit (EvCall (os_sym H (handle self) (exported_name (call_op c)))
             (call_args c)) w2,
     Ret (native H (os_sym H (handle self) (exported_name (call_op c)))
            (call_args c))).
Proof.
  intros Hc Hp. apply ctor_inv in Hc as (_ & _ & _ & Hs).
  rewrite perform_invoke, Hs. apply invoke_non_null. exact Hp.
Qed.

(** A null pointer, left by a missing export, makes the method fault. *)
Lemma null_pointer_faults (H : Host) (self : CUDADriverWrapper) (c : Call)
    (w : World) :
  slot (call_op c) self = 0 -> perform H self c w = (w, Fault).
Proof.
  intros Hp. rewrite perform_invoke. unfold invoke. rewrite Hp. reflexivity.
Qed.

(** ** The launch configuration trace *)

Section Strings.
Local Open Scope string_scope.

Lemma append_nil_l (b : string) : "" +:+ b = b.
Proof. reflexivity. Qed.

Lemma append_cons (x : ascii) (a b : string) :
  String x a +:+ b = String x (a +:+ b).
Proof. reflexivity. Qed.

Lemma append_assoc (a b c : string) : (a +:+ b) +:+ c = a +:+ (b +:+ c).
Proof.
  induction a as [|x a IH]; [reflexivity|].
  rewrite !append_cons, IH. reflexivity.
Qed.

Lemma append_nil_r (a : string) : a +:+ "" = a.
Proof.
  induction a as [|x a IH]; [reflexivity|].
  rewrite append_cons, IH. reflexivity.
Qed.

Lemma no_nl_append (a b : string) : no_nl (a +:+ b) = no_nl a && no_nl b.
Proof.
  induction a as [|x a IH]; [reflexivity|].
  rewrite append_cons. cbn [no_nl]. rewrite IH, andb_assoc. reflexivity.
Qed.

Lemma no_nl_dec_digits (d : Decimal.uint) :
  no_nl (DecimalString.NilEmpty.string_of_uint d) = true.
Proof. induction d; cbn; auto. Qed.

Lemma no_nl_hex_digits (d : Hexadecimal.uint) :
  no_nl (HexadecimalString.NilEmpty.string_of_uint d) = true.
Proof. induction d; cbn; auto. Qed.

Lemma no_nl_show_dec (n : Z) : no_nl (show_dec n) = true.
Proof.
  unfold show_dec, DecimalString.NilZero.string_of_uint.
  destruct (N.to_uint (Z.to_N n)) eqn:E; try reflexivity;
    rewrite <- E; apply no_nl_dec_digits.
Qed.

Lemma no_nl_show_hex (n : Z) : no_nl (show_hex n) = true.
Proof.
  unfold show_hex, HexadecimalString.NilZero.string_of_uint.
  destruct (N.to_hex_uint (Z.to_N n)) eqn:E; try reflexivity;
    rewrite <- E; apply no_nl_hex_digits.
Qed.

Lemma unlines_app (l1 l2 : list string) :
  unlines (l1 ++ l2) = unlines l1 +:+ unlines l2.
Proof.
  induction l1 as [|l l1 IH]; [reflexivity|].
  cbn [app unlines fold_right]. fold (unlines (l1 ++ l2)). fold (unlines l1).
  rewrite IH, !append_assoc. reflexivity.
Qed.

(** Reading one line back. *)
Lemma lines_from_line (l : string) :
  no_nl l = true ->
  forall cur rest,
    lines_from cur (l +:+ nl +:+ rest) = (cur +:+ l) :: lines_from "" rest.
Proof.
  induction l as [|x l IH]; intros Hl cur rest.
  - rewrite append_nil_l, append_nil_r. unfold nl. rewrite append_cons.
    reflexivity.
  - cbn [no_nl] in Hl. apply andb_prop in Hl as [Hx Hl].
    rewrite append_cons. cbn [lines_from].
    apply negb_true_iff in Hx. rewrite Hx.
    rewrite (IH Hl). rewrite append_assoc, append_cons, append_nil_l.
    reflexivity.
Qed.

(** Splitting a text written line by line gives the lines back. *)
Lemma lines_unlines (ls : list string) :
  Forall (fun l => no_nl l = true) ls -> lines (unlines ls) = ls.
Proof.
  unfold lines. induction 1 as [|l ls Hl _ IH]; [reflexivity|].
  cbn [unlines fold_right]. rewrite (lines_from_line l Hl).
  fold (unlines ls). rewrite IH. reflexivity.
Qed.
End Strings.

Section Stringify.
Variable H : Host.

Lemma put_mk (x t : string) (b : bool) :
  put x {| str := t; hexfield := b |} = {| str := t +:+ x; hexfield := b |}.
Proof. reflexivity. Qed.

Lemma put_unsigned_mk (n : Z) (t : string) (b : bool) :
  put_unsigned n {| str := t; hexfield := b |}
  = {| str := t +:+ (if b then show_hex n else show_dec n); hexfield := b |}.
Proof. reflexivity. Qed.

Lemma put_int_hex (n : Z) (t : string) :
  put_int n {| str := t; hexfield := true |}
  = {| str := t +:+ show_hex (n mod 2 ^ 32); hexfield := true |}.
Proof. reflexivity. Qed.

Lemma std_hex_mk (t : string) (b : bool) :
  std_hex {| str := t; hexfield := b |} = {| str := t; hexfield := true |}.
Proof. reflexivity. Qed.

Ltac stream_steps :=
  repeat (rewrite put_mk || rewrite put_unsigned_mk || rewrite put_int_hex
          || rewrite std_hex_mk).

(** Once the stream is in hexadecimal mode, an attribute is written as
    [attr_desc] says and the mode stays. *)
Lemma put_attr_hex (attr : CUlaunchAttribute) (s : string) :
  put_attr H attr {| str := s; hexfield := true |}
  = {| str := s +:+ attr_desc H attr; hexfield := true |}.
Proof.
  unfold put_attr, attr_desc.
  destruct (attr_id attr =? CU_LAUNCH_ATTRIBUTE_CLUSTER_DIMENSION H);
    [|destruct (attr_id attr =? CU_LAUNCH_ATTRIBUTE_PRIORITY H)];
    stream_steps; rewrite !append_assoc; reflexivity.
Qed.

(** The text before the loop; it leaves the stream in hexadecimal
    mode. *)
Lemma put_header_lines (c : CUlaunchConfig) :
  put_header c sstream0
  = {| str := unlines (header_lines c); hexfield := true |}.
Proof.
  unfold put_header, sstream0. stream_steps. f_equal.
  unfold header_lines, unlines, fold_right, grid_line, block_line,
    shared_line, stream_line, count_line.
  destruct (hStream c =? 0); cbn [negb];
    rewrite !append_assoc, append_nil_l, append_nil_r; reflexivity.
Qed.

(** The loop from counter [i], with [k] attributes left. *)
Lemma attr_loop_run (c : CUlaunchConfig) :
  wf_config c ->
  forall (k i fuel : nat) (s : string),
    (i + k = Z.to_nat (numAttrs c))%nat -> (k <= fuel)%nat ->
    attr_loop H fuel c (Z.of_nat i) {| str := s; hexfield := true |}
    = LoopDone
        {| str := s +:+ unlines (imap (fun j => attr_line H (i + j))
                                   (take k (drop i (attrs c))));
           hexfield := true |}.
Proof.
  intros [[Hn0 Hn] Hlen]. induction k as [|k IH]; intros i fuel s Hik Hfuel.
  - assert (Hge : (Z.of_nat i <? numAttrs c) = false) by (apply Z.ltb_ge; lia).
    destruct fuel; cbn [attr_loop]; rewrite Hge; cbn;
      rewrite append_nil_r; reflexivity.
  - destruct fuel as [|fuel]; [lia|].
    assert (Hlt : (Z.of_nat i <? numAttrs c) = true) by (apply Z.ltb_lt; lia).
    cbn [attr_loop]. rewrite Hlt, Nat2Z.id.
    destruct (attrs c !! i) as [attr|] eqn:Ea.
    2:{ apply lookup_ge_None in Ea. lia. }
    replace ((Z.of_nat i + 1) mod 2 ^ 32) with (Z.of_nat (S i))
      by (rewrite Z.mod_small; lia).
    stream_steps. rewrite put_attr_hex. stream_steps.
    rewrite (IH (S i) fuel) by lia.
    rewrite (drop_S _ _ _ Ea). cbn [take]. rewrite imap_cons.
    cbn [unlines fold_right].
    fold (unlines (imap ((fun j => attr_line H (i + j)) ∘ S)
                     (take k (drop (S i) (attrs c))))).
    rewrite Nat.add_0_r.
    rewrite (imap_ext ((fun j => attr_line H (i + j)) ∘ S)
               (fun j => attr_line H (S i + j)))
      by (intros j x _; cbn; f_equal; lia).
    unfold attr_line. rewrite !append_assoc. reflexivity.
Qed.

Lemma stringify_fuel_done (c : CUlaunchConfig) (fuel : nat) :
  wf_config c -> (Z.to_nat (numAttrs c) <= fuel)%nat ->
  stringify_fuel H fuel c
  = LoopDone {| str := unlines (header_lines c ++ attr_lines H c);
                hexfield := true |}.
Proof.
  intros Hwf Hfuel. unfold stringify_fuel. rewrite put_header_lines.
  rewrite (attr_loop_run c Hwf (Z.to_nat (numAttrs c)) 0 fuel) by lia.
  rewrite unlines_app. reflexivity.
Qed.

Lemma stringify_ok (c : CUlaunchConfig) :
  wf_config c ->
  stringify_launch_config H c = Ret (unlines (header_lines c ++ attr_lines H c)).
Proof.
  intros Hwf. unfold stringify_launch_config.
  rewrite stringify_fuel_done by (auto; lia). reflexivity.
Qed.

(** The fuel handed to the loop by [stringify_launch_config] is never
    used up, whatever the array holds. *)
Lemma attr_loop_fuel_enough (c : CUlaunchConfig) :
  0 <= numAttrs c < 2 ^ 32 ->
  stringify_fuel H (Z.to_nat (numAttrs c)) c <> LoopOutOfFuel.
Proof.
  intros [Hn0 Hn]. unfold stringify_fuel.
  generalize (put_header c sstream0).
  assert (Hgen : forall (k i fuel : nat) ss,
             (i + k = Z.to_nat (numAttrs c))%nat -> (k <= fuel)%nat ->
             attr_loop H fuel c (Z.of_nat i) ss <> LoopOutOfFuel).
  { induction k as [|k IH]; intros i fuel ss Hik Hfuel.
    - assert (Hge : (Z.of_nat i <? numAttrs c) = false) by (apply Z.ltb_ge; lia).
      destruct fuel; cbn [attr_loop]; rewrite Hge; discriminate.
    - destruct fuel as [|fuel]; [lia|].
      assert (Hlt : (Z.of_nat i <? numAttrs c) = true) by (apply Z.ltb_lt; lia).
      cbn [attr_loop]. rewrite Hlt.
      destruct (attrs c !! Z.to_nat (Z.of_nat i)); [|discriminate].
      replace ((Z.of_nat i + 1) mod 2 ^ 32) with (Z.of_nat (S i))
        by (rewrite Z.mod_small; lia).
      apply IH; lia. }
  intros ss. apply (Hgen (Z.to_nat (numAttrs c)) 0%nat); lia.
Qed.

Lemma no_nl_attr_line (i : nat) (attr : CUlaunchAttribute) :
  no_nl (attr_line H i attr) = true.
Proof.
  unfold attr_line, attr_desc.
  destruct (attr_id attr =? CU_LAUNCH_ATTRIBUTE_CLUSTER_DIMENSION H);
    [|destruct (attr_id attr =? CU_LAUNCH_ATTRIBUTE_PRIORITY H)];
    rewrite ?no_nl_append, ?no_nl_show_hex; reflexivity.
Qed.

Lemma no_nl_trace_lines (c : CUlaunchConfig) :
  Forall (fun l => no_nl l = true) (header_lines c ++ attr_lines H c).
Proof.
  apply Forall_app. split.
  - unfold header_lines, grid_line, block_line, shared_line, stream_line,
      count_line.
    repeat constructor;
      rewrite ?no_nl_append, ?no_nl_show_hex, ?no_nl_show_dec;
      try reflexivity.
    destruct (hStream c =? 0); reflexivity.
  - apply Forall_forall. intros l Hl.
    apply elem_of_lookup_imap_1 in Hl as (i & attr & -> & _).
    apply no_nl_attr_line.
Qed.

Lemma stringify_lines (c : CUlaunchConfig) :
  wf_config c ->
  exists s, stringify_launch_config H c = Ret s
            /\ lines s = header_lines c ++ attr_lines H c.
Proof.
  intros Hwf. eexists. split; [apply stringify_ok; exact Hwf|].
  apply lines_unlines, no_nl_trace_lines.
Qed.

Lemma attr_lines_length (c : CUlaunchConfig) :
  wf_config c -> length (attr_lines H c) = Z.to_nat (numAttrs c).
Proof.
  intros [_ Hlen]. unfold attr_lines.
  rewrite length_imap, length_take. lia.
Qed.

Lemma attr_lines_lookup (c : CUlaunchConfig) (i : nat) (attr : CUlaunchAttribute) :
  (i < Z.to_nat (numAttrs c))%nat -> attrs c !! i = Some attr ->
  attr_lines H c !! i = Some (attr_line H i attr).
Proof.
  intros Hi Ha. unfold attr_lines.
  rewrite list_lookup_imap, lookup_take_lt by exact Hi.
  rewrite Ha. reflexivity.
Qed.
End Stringify.

(** C6: for every launch configuration (with its [numAttrs] attributes
    in place) [stringify_launch_config] returns a text whose lines are,
    in order: the grid dimensions, the block dimensions, the shared
    memory byte count, the stream line, which says Custom for a non-null
    stream and Default for the null one and gives the address, the
    attribute count, and one line per attribute.  The line of a cluster
    dimension attribute carries its three components, the line of a
    priority attribute its value, and an attribute of any other kind
    gets the Unknown Attribute line with its id; no attribute makes the
    function fail.  The numbers written after the stream address are
    hexadecimal. *)
Theorem stringify_launch_config_contents (H : Host) (c : CUlaunchConfig) :
  wf_config c ->
  exists s,
    stringify_launch_config H c = Ret s
    /\ lines s = [grid_line c; block_line c; shared_line c; stream_line c;
                  count_line c] ++ attr_lines H c
    /\ (hStream c <> 0 ->
        lines s !! 3%nat
        = Some ("Stream: Custom (0x" +:+ show_hex (hStream c) +:+ ")"))
    /\ (hStream c = 0 -> lines s !! 3%nat = Some "Stream: Default (0x0)")
    /\ forall (i : nat) (attr : CUlaunchAttribute),
         (i < Z.to_nat (numAttrs c))%nat -> attrs c !! i = Some attr ->
         exists desc,
           lines s !! (5 + i)%nat
           = Some ("  [" +:+ show_hex (Z.of_nat i) +:+ "] " +:+ desc)
           /\ (attr_id attr = CU_LAUNCH_ATTRIBUTE_CLUSTER_DIMENSION H ->
               desc = "Cluster Dimension: ("
                        +:+ show_hex (value_clusterDim_x attr) +:+ ", "
                        +:+ show_hex (value_clusterDim_y attr) +:+ ", "
                        +:+ show_hex (value_clusterDim_z attr) +:+ ")")
           /\ (attr_id attr <> CU_LAUNCH_ATTRIBUTE_CLUSTER_DIMENSION H ->
               attr_id attr = CU_LAUNCH_ATTRIBUTE_PRIORITY H ->
               desc = "Priority: " +:+ show_hex (value_priority attr mod 2 ^ 32))
           /\ (attr_id attr <> CU_LAUNCH_ATTRIBUTE_CLUSTER_DIMENSION H ->
               attr_id attr <> CU_LAUNCH_ATTRIBUTE_PRIORITY H ->
               desc = "Unknown Attribute (ID="
                        +:+ show_hex (attr_id attr mod 2 ^ 32) +:+ ")").
Proof.
  intros Hwf. destruct (stringify_lines H c Hwf) as (s & Hs & Hl).
  exists s. split; [exact Hs|]. split; [exact Hl|].
  rewrite Hl. split; [|split].
  - intros Hne. apply Z.eqb_neq in Hne. cbn. unfold stream_line.
    rewrite Hne. reflexivity.
  - intros He. cbn. unfold stream_line. rewrite He. reflexivity.
  - intros i attr Hi Ha. exists (attr_desc H attr). split.
    + unfold header_lines. rewrite lookup_app_r by (cbn [length]; lia).
      cbn [length]. replace (5 + i - 5)%nat with i by lia.
      apply attr_lines_lookup; assumption.
    + unfold attr_desc. split; [|split].
      * intros He. apply Z.eqb_eq in He. rewrite He. reflexivity.
      * intros Hc Hp. apply Z.eqb_neq in Hc. apply Z.eqb_eq in Hp.
        rewrite Hc, Hp. reflexivity.
      * intros Hc Hp. apply Z.eqb_neq in Hc, Hp. rewrite Hc, Hp. reflexivity.
Qed.

Lemma stringify_launch_config_contents_witness :
  wf_config config0
  /\ exists s,
       stringify_launch_config host_ok config0 = Ret s
       /\ lines s
          = ["Grid Dimensions: (1, 2, 3)"; "Block Dimensions: (128, 1, 1)";
             "Shared Memory: 49152 bytes"; "Stream: Custom (0xbeef)";
             "Attributes (3):"; "  [0] Cluster Dimension: (2, a, 1)";
             "  [1] Priority: 7"; "  [2] Unknown Attribute (ID=b)"].
Proof.
  assert (Hwf : wf_config config0) by (unfold wf_config; cbn; lia).
  split; [exact Hwf|].
  destruct (stringify_launch_config_contents host_ok config0 Hwf)
    as (s & Hs & Hl & _).
  exists s. split; [exact Hs|]. rewrite Hl. reflexivity.
Defined.

(** C10: [stringify_launch_config] is a total function of the
    configuration.  For every configuration with its [numAttrs]
    attributes in place the loop ends within [numAttrs] iterations, with
    the same result for every larger fuel; the text has, after the five
    header lines, exactly [numAttrs] attribute lines, the j-th of which
    carries the index j and describes the j-th attribute of the
    configuration; and equal configurations give equal texts. *)
Theorem stringify_launch_config_total (H : Host) (c : CUlaunchConfig) :
  wf_config c ->
  exists ss,
    (forall fuel, (Z.to_nat (numAttrs c) <= fuel)%nat ->
                  stringify_fuel H fuel c = LoopDone ss)
    /\ stringify_launch_config H c = Ret (str ss)
    /\ lines (str ss) = header_lines c ++ attr_lines H c
    /\ length (header_lines c) = 5%nat
    /\ length (attr_lines H c) = Z.to_nat (numAttrs c)
    /\ (forall j, (j < Z.to_nat (numAttrs c))%nat ->
                  exists attr, attrs c !! j = Some attr
                               /\ attr_lines H c !! j
                                  = Some ("  [" +:+ show_hex (Z.of_nat j) +:+ "] "
                                            +:+ attr_desc H attr))
    /\ (forall c', c' = c ->
                   stringify_launch_config H c' = stringify_launch_config H c).
Proof.
  intros Hwf.
  exists {| str := unlines (header_lines c ++ attr_lines H c); hexfield := true |}.
  split; [intros fuel Hf; apply stringify_fuel_done; assumption|].
  split; [apply stringify_ok; exact Hwf|].
  split; [apply lines_unlines, no_nl_trace_lines|].
  split; [reflexivity|].
  split; [apply attr_lines_length; exact Hwf|].
  split; [|intros c' ->; reflexivity].
  intros j Hj. destruct Hwf as [_ Hlen].
  destruct (attrs c !! j) as [attr|] eqn:Ea.
  - exists attr. split; [reflexivity|].
    apply attr_lines_lookup; assumption.
  - apply lookup_ge_None in Ea. lia.
Qed.

Lemma stringify_launch_config_total_witness :
  wf_config config0
  /\ exists ss,
       stringify_fuel host_ok 3 config0 = LoopDone ss
       /\ stringify_fuel host_ok 10 config0 = LoopDone ss
       /\ length (attr_lines host_ok config0) = 3%nat.
Proof.
  assert (Hwf : wf_config config0) by (unfold wf_config; cbn; lia).
  split; [exact Hwf|].
  destruct (stringify_launch_config_total host_ok config0 Hwf)
    as (ss & Hf & _ & _ & _ & Hlen & _).
  exists ss. split; [apply Hf; cbn; lia|]. split; [apply Hf; cbn; lia|].
  exact Hlen.
Defined.

(** ** The extended launch *)

(** The condition of the debug check, as a proposition. *)
Lemma exclusivity_check_spec (kernelParams extra : Z) :
  xorb (negb (extra =? 0)) (negb (kernelParams =? 0)) = false
  <-> exclusivity_violated kernelParams extra.
Proof.
  unfold exclusivity_violated.
  destruct (Z.eqb_spec extra 0), (Z.eqb_spec kernelParams 0); cbn;
    intuition (try discriminate; try congruence).
Qed.

(** The three statements of the method on a readable configuration: the
    log line, then the check, then the call. *)
Lemma cuLaunchKernelEx_run (H : Host) (self : CUDADriverWrapper)
    (config f kernelParams extra : Z) (w : World) (c : CUlaunchConfig) :
  mem_config H config = Some c -> wf_config c ->
  cuLaunchKernelEx H self config f kernelParams extra w
  = let w1 := if log_debug H
              then emit (EvLog ("Launch config: "
                                  +:+ unlines (header_lines c ++ attr_lines H c))) w
              else w in
    if check_debug H
       && negb (xorb (negb (extra =? 0)) (negb (kernelParams =? 0)))
    then (w1, Fatal exclusivity_msg)
    else invoke H (_cuLaunchKernelEx self) [config; f; kernelParams; extra] w1.
Proof.
  intros Hmem Hwf.
  unfold cuLaunchKernelEx, bind at 1, TLLM_LOG_DEBUG.
  destruct (log_debug H).
  - unfold bind at 2 3, deref_config, lift. rewrite Hmem.
    rewrite (stringify_ok H c Hwf).
    unfold bind, TLLM_CHECK_DEBUG_WITH_INFO, TLLM_CHECK_WITH_INFO, ret.
    destruct (check_debug H); cbn [andb]; [|reflexivity].
    destruct (xorb (negb (extra =? 0)) (negb (kernelParams =? 0))); reflexivity.
  - unfold bind, TLLM_CHECK_DEBUG_WITH_INFO, TLLM_CHECK_WITH_INFO, ret.
    destruct (check_debug H); cbn [andb]; [|reflexivity].
    destruct (xorb (negb (extra =? 0)) (negb (kernelParams =? 0))); reflexivity.
Qed.

(** With the logger below DEBUG level the configuration is not read. *)
Lemma cuLaunchKernelEx_quiet (H : Host) (self : CUDADriverWrapper)
    (config f kernelParams extra : Z) (w : World) :
  log_debug H = false ->
  cuLaunchKernelEx H self config f kernelParams extra w
  = if check_debug H
       && negb (xorb (negb (extra =? 0)) (negb (kernelParams =? 0)))
    then (w, Fatal exclusivity_msg)
    else invoke H (_cuLaunchKernelEx self) [config; f; kernelParams; extra] w.
Proof.
  intros Hlog.
  unfold cuLaunchKernelEx, bind at 1, TLLM_LOG_DEBUG. rewrite Hlog.
  unfold bind, TLLM_CHECK_DEBUG_WITH_INFO, TLLM_CHECK_WITH_INFO, ret.
  destruct (check_debug H); cbn [andb]; [|reflexivity].
  destruct (xorb (negb (extra =? 0)) (negb (kernelParams =? 0))); reflexivity.
Qed.

(** Whenever the log statement completes, the method is the check
    followed by the call, in some world [w1]. *)
Lemma cuLaunchKernelEx_after_log (H : Host) (self : CUDADriverWrapper)
    (config f kernelParams extra : Z) (w : World) :
  (log_debug H = true ->
   exists c, mem_config H config = Some c /\ wf_config c) ->
  exists w1,
    cuLaunchKernelEx H self config f kernelParams extra w
    = if check_debug H
         && negb (xorb (negb (extra =? 0)) (negb (kernelParams =? 0)))
      then (w1, Fatal exclusivity_msg)
      else invoke H (_cuLaunchKernelEx self) [config; f; kernelParams; extra] w1.
Proof.
  intros Hcfg. destruct (log_debug H) eqn:Hlog.
  - destruct (Hcfg eq_refl) as (c & Hmem & Hwf).
    rewrite (cuLaunchKernelEx_run H self config f kernelParams extra w c Hmem Hwf).
    rewrite Hlog. cbv zeta. eexists. reflexivity.
  - exists w. apply cuLaunchKernelEx_quiet. exact Hlog.
Qed.

Lemma invoke_not_fatal (H : Host) (fn : Z) (args : list Z) (w : World) (msg : string) :
  snd (invoke H fn args w) <> Fatal msg.
Proof. unfold invoke. destruct (fn =? 0); discriminate. Qed.

(** C5: with the debug checks on, the check of [cuLaunchKernelEx] fires
    exactly when [kernelParams] and [extra] are both non-null or both
    null; with exactly one of them non-null no check fires and the
    method goes on to the forwarded call.  (When the logger is at DEBUG
    level the configuration has to be readable for the method to reach
    its check.) *)
Theorem cuLaunchKernelEx_check_fires_iff (H : Host) (self : CUDADriverWrapper)
    (config f kernelParams extra : Z) (w : World) :
  check_debug H = true ->
  (log_debug H = true ->
   exists c, mem_config H config = Some c /\ wf_config c) ->
  (exclusivity_violated kernelParams extra
   <-> snd (cuLaunchKernelEx H self config f kernelParams extra w)
       = Fatal exclusivity_msg)
  /\ (forall msg,
        snd (cuLaunchKernelEx H self config f kernelParams extra w) = Fatal msg ->
        exclusivity_violated kernelParams extra)
  /\ (~ exclusivity_violated kernelParams extra ->
      exists w1,
        cuLaunchKernelEx H self config f kernelParams extra w
        = invoke H (_cuLaunchKernelEx self) [config; f; kernelParams; extra] w1).
Proof.
  intros Hdbg Hcfg.
  destruct (cuLaunchKernelEx_after_log H self config f kernelParams extra w Hcfg)
    as (w1 & ->).
  rewrite Hdbg. cbn [andb].
  pose proof (exclusivity_check_spec kernelParams extra) as Hx.
  destruct (xorb (negb (extra =? 0)) (negb (kernelParams =? 0))); cbn [negb].
  - assert (Hnv : ~ exclusivity_violated kernelParams extra)
      by (intros Hv; apply Hx in Hv; discriminate).
    split; [|split].
    + split; [intros Hv; contradiction|].
      intros Hf. exfalso. exact (invoke_not_fatal _ _ _ _ _ Hf).
    + intros msg Hf. exfalso. exact (invoke_not_fatal _ _ _ _ _ Hf).
    + intros _. eexists. reflexivity.
  - assert (Hv : exclusivity_violated kernelParams extra) by (apply Hx; reflexivity).
    split; [|split].
    + split; [reflexivity|intros _; exact Hv].
    + intros _ _. exact Hv.
    + intros Hnv. contradiction.
Qed.

Lemma cuLaunchKernelEx_check_fires_iff_witness :
  (check_debug host_ok = true
   /\ (log_debug host_ok = true ->
       exists c, mem_config host_ok 64 = Some c /\ wf_config c))
  /\ snd (cuLaunchKernelEx host_ok wrapper_ok 64 7 0 0 world0)
     = Fatal exclusivity_msg
  /\ snd (cuLaunchKernelEx host_ok wrapper_ok 64 7 9 9 world0)
     = Fatal exclusivity_msg.
Proof.
  assert (Hcfg : log_debug host_ok = true ->
                 exists c, mem_config host_ok 64 = Some c /\ wf_config c).
  { intros _. exists config0. split; [reflexivity|].
    unfold wf_config; cbn; lia. }
  split; [split; [reflexivity|exact Hcfg]|].
  split.
  - apply (cuLaunchKernelEx_check_fires_iff host_ok wrapper_ok 64 7 0 0 world0
             eq_refl Hcfg).
    right. split; reflexivity.
  - apply (cuLaunchKernelEx_check_fires_iff host_ok wrapper_ok 64 7 9 9 world0
             eq_refl Hcfg).
    left. split; discriminate.
Defined.

(** With the debug checks off the rule is not enforced. *)
Lemma cuLaunchKernelEx_unchecked (H : Host) (self : CUDADriverWrapper)
    (config f kernelParams extra : Z) (w : World) (msg : string) :
  check_debug H = false ->
  (log_debug H = true ->
   exists c, mem_config H config = Some c /\ wf_config c) ->
  snd (cuLaunchKernelEx H self config f kernelParams extra w) <> Fatal msg.
Proof.
  intros Hdbg Hcfg.
  destruct (cuLaunchKernelEx_after_log H self config f kernelParams extra w Hcfg)
    as (w1 & ->).
  rewrite Hdbg. cbn [andb]. apply invoke_not_fatal.
Qed.

(** C9: with the logger at DEBUG level, the first thing
    [cuLaunchKernelEx] does is to emit the log line of the launch
    configuration; the check and the forwarded call come after it.  In
    particular a call that violates the exclusivity rule ends in the
    failed check with its configuration already logged and nothing
    forwarded. *)
Theorem cuLaunchKernelEx_logs_first (H : Host) (self : CUDADriverWrapper)
    (config f kernelParams extra : Z) (w : World) (c : CUlaunchConfig) :
  log_debug H = true ->
  mem_config H config = Some c -> wf_config c ->
  exists s rest,
    stringify_launch_config H c = Ret s
    /\ trace (fst (cuLaunchKernelEx H self config f kernelParams extra w))
       = trace w ++ EvLog ("Launch config: " +:+ s) :: rest
    /\ (rest = []
        \/ rest = [EvCall (_cuLaunchKernelEx self)
                     [config; f; kernelParams; extra]])
    /\ (check_debug H = true -> exclusivity_violated kernelParams extra ->
        rest = []
        /\ snd (cuLaunchKernelEx H self config f kernelParams extra w)
           = Fatal exclusivity_msg)
    /\ (forall r,
          snd (cuLaunchKernelEx H self config f kernelParams extra w) = Ret r ->
          rest = [EvCall (_cuLaunchKernelEx self)
                    [config; f; kernelParams; extra]]).
Proof.
  intros Hlog Hmem Hwf.
  rewrite (cuLaunchKernelEx_run H self config f kernelParams extra w c Hmem Hwf).
  rewrite Hlog. cbv zeta.
  exists (unlines (header_lines c ++ attr_lines H c)).
  pose proof (exclusivity_check_spec kernelParams extra) as Hx.
  destruct (check_debug H
            && negb (xorb (negb (extra =? 0)) (negb (kernelParams =? 0))))
    eqn:Hchk.
  - exists []. split; [apply stringify_ok; exact Hwf|].
    split; [reflexivity|]. split; [left; reflexivity|].
    split; [intros _ _; split; reflexivity|].
    intros r Hr. discriminate.
  - unfold invoke. destruct (_cuLaunchKernelEx self =? 0) eqn:Hp.
    + exists []. split; [apply stringify_ok; exact Hwf|].
      split; [reflexivity|]. split; [left; reflexivity|].
      split.
      * intros Hd Hv. apply Hx in Hv. rewrite Hd, Hv in Hchk. discriminate.
      * intros r Hr. discriminate.
    + exists [EvCall (_cuLaunchKernelEx self) [config; f; kernelParams; extra]].
      split; [apply stringify_ok; exact Hwf|].
      split; [cbn; rewrite <- app_assoc; reflexivity|].
      split; [right; reflexivity|].
      split.
      * intros Hd Hv. apply Hx in Hv. rewrite Hd, Hv in Hchk. discriminate.
      * intros r _. reflexivity.
Qed.

Lemma cuLaunchKernelEx_logs_first_witness :
  (log_debug host_ok = true /\ mem_config host_ok 64 = Some config0
   /\ wf_config config0)
  /\ exists s rest,
       stringify_launch_config host_ok config0 = Ret s
       /\ trace (fst (cuLaunchKernelEx host_ok wrapper_ok 64 7 0 0 world0))
          = trace world0 ++ EvLog ("Launch config: " +:+ s) :: rest.
Proof.
  assert (Hwf : wf_config config0) by (unfold wf_config; cbn; lia).
  split; [split; [reflexivity|split; [reflexivity|exact Hwf]]|].
  destruct (cuLaunchKernelEx_logs_first host_ok wrapper_ok 64 7 0 0 world0
              config0 eq_refl eq_refl Hwf) as (s & rest & Hs & Ht & _).
  exists s, rest. split; assumption.
Defined.

(** ** The 25 forwarding methods together *)

(** C4, as stated, fails for one of the 25 methods: with the debug
    checks on, [cuLaunchKernelEx] called with neither [kernelParams]
    nor [extra] stops at its check; the stored pointer, which is not
    null, is not called and no result code comes back. *)
Lemma cuLaunchKernelEx_not_forwarded :
  slot (method_op (Extended 64 7 0 0)) wrapper_ok <> 0
  /\ snd (call_method host_ok wrapper_ok (Extended 64 7 0 0) world0)
     = Fatal exclusivity_msg
  /\ (forall fn args,
        ~ In (EvCall fn args)
            (trace (fst (call_method host_ok wrapper_ok (Extended 64 7 0 0) world0))))
  /\ call_method host_ok wrapper_ok (Extended 64 7 0 0) world0
     <> (emit (EvCall (slot (method_op (Extended 64 7 0 0)) wrapper_ok)
                 (method_args (Extended 64 7 0 0))) world0,
         Ret (native host_ok (slot (method_op (Extended 64 7 0 0)) wrapper_ok)
                (method_args (Extended 64 7 0 0)))).
Proof.
  assert (Hwf : wf_config config0) by (unfold wf_config; cbn; lia).
  cbn [call_method method_op method_args].
  rewrite (cuLaunchKernelEx_run host_ok wrapper_ok 64 7 0 0 world0 config0
             eq_refl Hwf).
  cbn [log_debug check_debug host_ok andb negb xorb Z.eqb fst snd].
  split; [vm_compute; discriminate|].
  split; [reflexivity|].
  split; [|discriminate].
  intros fn args [He|[]]. discriminate.
Qed.

(** C4: each of the 25 forwarding methods, on a table with a non-null
    pointer for its operation and on every argument tuple that passes
    the method's own checks (only [cuLaunchKernelEx] has any), makes
    exactly one call, through the stored pointer, with the caller's
    arguments in their order, and returns the result code of the code
    behind that pointer as it is.  A plain method does nothing else;
    [cuLaunchKernelEx] before the call writes its log line when the
    logger is at DEBUG level. *)
Theorem forwarding_faithful (H : Host) (self : CUDADriverWrapper)
    (m : MethodCall) (w : World) :
  slot (method_op m) self <> 0 ->
  passes_checks H m ->
  exists w1,
    call_method H self m w
    = (emit (EvCall (slot (method_op m) self) (method_args m)) w1,
       Ret (native H (slot (method_op m) self) (method_args m)))
    /\ ((exists c, m = Plain c) \/ log_debug H = false -> w1 = w)
    /\ (w1 = w \/ exists msg, w1 = emit (EvLog msg) w).
Proof.
  intros Hp Hok. destruct m as [c|config f kernelParams extra].
  - exists w. cbn [call_method method_op method_args] in *.
    rewrite perform_invoke.
    split; [apply invoke_non_null; exact Hp|]. split; [reflexivity|left; reflexivity].
  - cbn [call_method method_op method_args slot passes_checks] in *.
    destruct Hok as [Hcfg Hchk].
    assert (Hpass : check_debug H
                    && negb (xorb (negb (extra =? 0)) (negb (kernelParams =? 0)))
                    = false).
    { destruct (check_debug H); [|reflexivity]. cbn [andb].
      apply negb_false_iff. apply not_false_is_true. intros Hx.
      apply exclusivity_check_spec in Hx. exact (Hchk eq_refl Hx). }
    destruct (log_debug H) eqn:Hlog.
    + destruct (Hcfg eq_refl) as (c & Hmem & Hwf).
      rewrite (cuLaunchKernelEx_run H self config f kernelParams extra w c Hmem Hwf).
      rewrite Hlog, Hpass. cbv zeta. eexists. split; [|split].
      * apply invoke_non_null. exact Hp.
      * intros [[c' Hc']|Hf]; discriminate.
      * right. eexists. reflexivity.
    + rewrite (cuLaunchKernelEx_quiet H self config f kernelParams extra w Hlog).
      rewrite Hpass. exists w. split; [|split].
      * apply invoke_non_null. exact Hp.
      * reflexivity.
      * left. reflexivity.
Qed.

Lemma forwarding_faithful_witness :
  (slot (method_op (Plain (Call_cuMemcpyDtoH 100 200 16))) wrapper_ok <> 0
   /\ passes_checks host_ok (Plain (Call_cuMemcpyDtoH 100 200 16)))
  /\ cuMemcpyDtoH host_ok wrapper_ok 100 200 16 world0
     = (emit (EvCall (_cuMemcpyDtoH wrapper_ok) [100; 200; 16]) world0,
        Ret (native host_ok (_cuMemcpyDtoH wrapper_ok) [100; 200; 16]))
  /\ (slot (method_op (Extended 64 7 9 0)) wrapper_ok <> 0
      /\ passes_checks host_ok (Extended 64 7 9 0))
  /\ exists msg,
       cuLaunchKernelEx host_ok wrapper_ok 64 7 9 0 world0
       = (emit (EvCall (_cuLaunchKernelEx wrapper_ok) [64; 7; 9; 0])
            (emit (EvLog msg) world0),
          Ret (native host_ok (_cuLaunchKernelEx wrapper_ok) [64; 7; 9; 0])).
Proof.
  assert (Hp : slot (method_op (Plain (Call_cuMemcpyDtoH 100 200 16))) wrapper_ok <> 0)
    by (vm_compute; discriminate).
  assert (Hq : slot (method_op (Extended 64 7 9 0)) wrapper_ok <> 0)
    by (vm_compute; discriminate).
  assert (Hok : passes_checks host_ok (Extended 64 7 9 0)).
  { split.
    - intros _. exists config0. split; [reflexivity|].
      unfold wf_config; cbn; lia.
    - intros _ [[_ He]|[Hk _]]; [apply He; reflexivity|discriminate]. }
  split; [split; [exact Hp|exact I]|]. split; [|split; [split; assumption|]].
  - destruct (forwarding_faithful host_ok wrapper_ok
                (Plain (Call_cuMemcpyDtoH 100 200 16)) world0 Hp I)
      as (w1 & Hr & Hw & _).
    rewrite (Hw (or_introl (ex_intro _ _ eq_refl))) in Hr. exact Hr.
  - destruct (forwarding_faithful host_ok wrapper_ok (Extended 64 7 9 0) world0
                Hq Hok) as (w1 & Hr & _ & [Hw|[msg Hw]]).
    + exfalso. rewrite Hw in Hr.
      apply (f_equal (fun p => length (trace (fst p)))) in Hr.
      assert (Hwf : wf_config config0) by (unfold wf_config; cbn; lia).
      cbn [call_method] in Hr.
      rewrite (cuLaunchKernelEx_run host_ok wrapper_ok 64 7 9 0 world0 config0
                 eq_refl Hwf) in Hr.
      cbn [log_debug check_debug host_ok andb negb xorb Z.eqb] in Hr.
      rewrite (invoke_non_null host_ok _ _ _ Hq) in Hr.
      cbn in Hr. discriminate.
    + exists msg. rewrite Hw in Hr. exact Hr.
Defined.

(** ** The singleton accessor, one call after the other *)

(** The fast path: a live instance is shared, nothing is opened. *)
Lemma getInstance_shares (H : Host) (tid : nat) (w : World) (r : nat) (o : Obj) :
  instance w = Some r -> objs w !! r = Some o -> strong o <> 0%nat ->
  getInstance H tid w = (set_objs (<[r := add_ref o]> (objs w)) w, Ret r).
Proof.
  intros Hi Ho Hs. apply getInstance_fast. unfold weak_lock. rewrite Hi, Ho.
  apply Nat.eqb_neq in Hs. rewrite Hs. reflexivity.
Qed.

(** The slow path: without a live instance the library is opened, the
    table resolved, and the new object published. *)
Lemma getInstance_constructs (H : Host) (tid : nat) (w : World) :
  mutex w = None -> snd (weak_lock w) = None ->
  os_open H (opens w) (lib_file H) <> 0 ->
  exists self,
    getInstance H tid w
    = ({| opens := S (opens w);
          trace := trace w ++ EvOpen (lib_file H)
                     :: map (fun op => EvSym (handle self) (exported_name op)) all_ops;
          objs := objs w ++ [{| obj_val := self; strong := 1 |}];
          instance := Some (length (objs w));
          mutex := None |},
       Ret (length (objs w)))
    /\ handle self = os_open H (opens w) (lib_file H)
    /\ forall op, slot op self = resolved H (handle self) op.
Proof.
  intros Hm Hl Hopen.
  destruct (ctor_open_ok H (set_mutex (Some tid) w) Hopen) as (self & Hc & Hh & Hs).
  exists self. split; [|split; [exact Hh|exact Hs]].
  rewrite (getInstance_slow H tid w Hl Hm). unfold new_shared, bind.
  rewrite Hc, Hh.
  unfold set_mutex, set_instance, set_objs, add_trace, opened.
  cbn [opens trace objs instance mutex].
  rewrite <- app_assoc. reflexivity.
Qed.

(** Dropping all but the last of the references does not run the
    destructor. *)
Lemma release_n_partial (r : nat) (k n : nat) :
  forall (w : World) (o : Obj),
    objs w !! r = Some o -> strong o = (k + S n)%nat ->
    release_n k r w
    = (set_objs (<[r := {| obj_val := obj_val o; strong := S n |}]> (objs w)) w,
       Ret tt).
Proof.
  induction k as [|k IH]; intros w o Ho Hs.
  - cbn in Hs |- *. unfold ret. f_equal.
    destruct w, o; cbn in *. subst. unfold set_objs; cbn.
    rewrite list_insert_id by exact Ho. reflexivity.
  - cbn [release_n]. unfold bind, release. rewrite Ho, Hs. cbn [Nat.add].
    replace (Nat.eqb (k + S n) 0) with false
      by (symmetry; apply Nat.eqb_neq; lia).
    assert (Hr : (r < length (objs w))%nat) by (eapply lookup_lt_Some; eauto).
    rewrite (IH _ {| obj_val := obj_val o; strong := (k + S n)%nat |}).
    + cbn. unfold set_objs; cbn. rewrite list_insert_insert_eq. reflexivity.
    + cbn. apply list_lookup_insert_eq. exact Hr.
    + reflexivity.
Qed.

(** Dropping the last reference runs the destructor, which closes the
    handle of the object. *)
Lemma release_last (r : nat) (w : World) (o : Obj) :
  objs w !! r = Some o -> strong o = 1%nat ->
  release r w
  = (add_trace [EvClose (handle (obj_val o))]
       (set_objs (<[r := {| obj_val := obj_val o; strong := 0 |}]> (objs w)) w),
     Ret tt).
Proof.
  intros Ho Hs. unfold release. rewrite Ho, Hs. reflexivity.
Qed.

Lemma release_n_app (r : nat) (a b : nat) (w : World) :
  release_n (a + b) r w = (release_n a r ;;; release_n b r) w.
Proof.
  revert w. induction a as [|a IH]; intros w; cbn [release_n Nat.add].
  - reflexivity.
  - unfold bind. destruct (release r w) as [w' [[]| |]]; [|reflexivity..].
    rewrite IH. reflexivity.
Qed.

(** C8: take a world in which the singleton is alive with [S n]
    references outstanding.  Dropping up to [n] of them closes nothing;
    dropping all of them destroys the instance and closes its library
    handle, once.  The next call of [getInstance] then constructs a new
    object: it opens the library again, resolves the whole table on the
    handle that this new open returned, and publishes the new object. *)
Theorem singleton_reopens_after_teardown (H : Host) (tid : nat) (w : World)
    (r : nat) (o : Obj) (n : nat) :
  mutex w = None -> instance w = Some r -> objs w !! r = Some o ->
  strong o = S n ->
  os_open H (opens w) (lib_file H) <> 0 ->
  (forall k, (k <= n)%nat ->
             exists wk, release_n k r w = (wk, Ret tt) /\ trace wk = trace w)
  /\ exists w1,
       release_n (S n) r w = (w1, Ret tt)
       /\ trace w1 = trace w ++ [EvClose (handle (obj_val o))]
       /\ strong <$> objs w1 !! r = Some 0%nat
       /\ exists w2 self,
            getInstance H tid w1 = (w2, Ret (length (objs w)))
            /\ length (objs w) <> r
            /\ objs w2 !! length (objs w)
               = Some {| obj_val := self; strong := 1 |}
            /\ instance w2 = Some (length (objs w))
            /\ opens w2 = S (opens w)
            /\ handle self = os_open H (opens w) (lib_file H)
            /\ trace w2
               = trace w1 ++ EvOpen (lib_file H)
                   :: map (fun op => EvSym (handle self) (exported_name op)) all_ops
            /\ forall op, slot op self = os_sym H (handle self) (exported_name op).
Proof.
  intros Hm Hi Ho Hs Hopen.
  assert (Hr : (r < length (objs w))%nat) by (eapply lookup_lt_Some; eauto).
  split.
  - intros k Hk. eexists. split.
    + apply (release_n_partial r k (n - k) w o Ho). lia.
    + reflexivity.
  - assert (Hrel : release_n (S n) r w
                   = (add_trace [EvClose (handle (obj_val o))]
                        (set_objs
                           (<[r := {| obj_val := obj_val o; strong := 0 |}]> (objs w))
                           w), Ret tt)).
    { replace (S n) with (n + 1)%nat by lia.
      rewrite release_n_app. unfold bind at 1.
      rewrite (release_n_partial r n 0 w o Ho) by lia.
      cbn [release_n]. unfold bind at 1.
      rewrite (release_last r _ {| obj_val := obj_val o; strong := 1 |});
        [|cbn [objs set_objs]; apply list_lookup_insert_eq; exact Hr|reflexivity].
      unfold ret. cbn [objs set_objs obj_val].
      rewrite list_insert_insert_eq. reflexivity. }
    eexists. split; [exact Hrel|].
    split; [reflexivity|].
    split; [cbn [objs set_objs add_trace];
            rewrite list_lookup_insert_eq by exact Hr; reflexivity|].
    match goal with
    | |- exists w2 self, getInstance H tid ?w1 = _ /\ _ =>
        destruct (getInstance_constructs H tid w1) as (self & Hg & Hh & Hsl)
    end.
    + exact Hm.
    + unfold weak_lock. cbn [instance objs set_objs add_trace]. rewrite Hi.
      rewrite list_lookup_insert_eq by exact Hr. reflexivity.
    + exact Hopen.
    + cbn [objs opens trace set_objs add_trace] in Hg, Hh.
      rewrite length_insert in Hg.
      eexists. exists self. split; [exact Hg|].
      split; [lia|].
      split.
      { cbn [objs]. rewrite lookup_app_r by (rewrite length_insert; lia).
        rewrite length_insert, Nat.sub_diag. reflexivity. }
      split; [reflexivity|]. split; [reflexivity|].
      split; [exact Hh|]. split; [reflexivity|exact Hsl].
Qed.

Lemma singleton_reopens_after_teardown_witness :
  (mutex world_two_refs = None /\ instance world_two_refs = Some 0%nat
   /\ objs world_two_refs !! 0%nat = Some {| obj_val := wrapper_ok; strong := 2 |}
   /\ os_open host_ok (opens world_two_refs) (lib_file host_ok) <> 0)
  /\ exists w1,
       release_n 2 0 world_two_refs = (w1, Ret tt)
       /\ trace w1 = trace world_two_refs ++ [EvClose 4096]
       /\ exists w2 self,
            getInstance host_ok 0 w1 = (w2, Ret 1%nat)
            /\ handle self = 4097
            /\ objs w2 !! 1%nat = Some {| obj_val := self; strong := 1 |}.
Proof.
  assert (Hopen : os_open host_ok (opens world_two_refs) (lib_file host_ok) <> 0)
    by (vm_compute; discriminate).
  split; [repeat split; try reflexivity; exact Hopen|].
  destruct (singleton_reopens_after_teardown host_ok 0 world_two_refs 0
              {| obj_val := wrapper_ok; strong := 2 |} 1
              eq_refl eq_refl eq_refl eq_refl Hopen)
    as (_ & w1 & Hrel & Htr & _ & w2 & self & Hg & _ & Hobj & _ & _ & Hh & _).
  exists w1. split; [exact Hrel|]. split; [exact Htr|].
  exists w2, self. split; [exact Hg|]. split; [exact Hh|exact Hobj].
Defined.

(** ** The singleton accessor under interleaving *)

(** Under the invariant the weak pointer, once set, designates a live
    object. *)
Lemma weak_lock_live (s : Sys) (r : nat) :
  Inv s -> instance (world s) = Some r ->
  exists o, objs (world s) !! r = Some o /\ strong o <> 0%nat
            /\ weak_lock (world s)
               = (set_objs (<[r := add_ref o]> (objs (world s))) (world s), Some r).
Proof.
  intros HI Hi. pose proof (inv_instance s HI r Hi) as Hlt.
  destruct (lookup_lt_is_Some_2 _ _ Hlt) as [o Ho].
  pose proof (inv_strong s HI r o Ho) as Hs.
  exists o. split; [exact Ho|]. split; [exact Hs|].
  unfold weak_lock. rewrite Hi, Ho.
  apply Nat.eqb_neq in Hs. rewrite Hs. reflexivity.
Qed.

Lemma weak_lock_empty (w : World) :
  instance w = None -> weak_lock w = (w, None).
Proof. intros Hi. unfold weak_lock. rewrite Hi. reflexivity. Qed.

Lemma pool_insert_lookup (ts : list Thread) (i j : nat) (t t' : Thread) :
  <[i := t']> ts !! j = Some t ->
  (j = i /\ t = t') \/ (j <> i /\ ts !! j = Some t).
Proof.
  intros Hl. apply list_lookup_insert_Some in Hl as [(-> & -> & _)|[Hne Hl]];
    [left|right]; auto.
Qed.

(** The mutex has one holder. *)
Lemma inv_holder (s : Sys) (i j : nat) (t t' : Thread) :
  Inv s -> pool s !! i = Some t -> pool s !! j = Some t' ->
  holds_mutex (pc t) = true -> holds_mutex (pc t') = true -> i = j.
Proof.
  intros HI Hi Hj Hti Htj.
  apply (inv_mutex s HI i t Hi) in Hti. apply (inv_mutex s HI j t' Hj) in Htj.
  congruence.
Qed.

(** A caller that takes one more reference to a live object. *)
Lemma inv_add_ref (s : Sys) (i r : nat) (o : Obj) (t : Thread) (p : PC) :
  Inv s -> pool s !! i = Some t ->
  objs (world s) !! r = Some o -> strong o <> 0%nat ->
  holds_mutex p = holds_mutex (pc t) -> pc t <> L57 ->
  p <> L56 -> p <> Failed ->
  Inv {| world := set_objs (<[r := add_ref o]> (objs (world s))) (world s);
         pool := <[i := {| pc := p; result := Some r |}]> (pool s);
         aborted := false |}.
Proof.
  intros HI Ht Ho Hs Hp H57 H56 HF.
  assert (Hr : (r < length (objs (world s)))%nat) by (eapply lookup_lt_Some; eauto).
  destruct HI as [I1 I2 I3 I4 I5 I6 I7 I8 I9 I10 I11].
  constructor; cbn [world pool set_objs objs opens trace instance mutex].
  - rewrite length_insert. exact I1.
  - rewrite length_insert. exact I2.
  - exact I3.
  - intros r' o' Hl. apply list_lookup_insert_Some in Hl as [(-> & <- & _)|[_ Hl]].
    + cbn. lia.
    + eauto.
  - intros r' Hi. rewrite length_insert. eauto.
  - intros j t' r' Hl Hres. rewrite length_insert.
    apply pool_insert_lookup in Hl as [[-> ->]|[Hne Hl]].
    + cbn in Hres. injection Hres as <-. exact Hr.
    + eauto.
  - intros j t' Hl Hh.
    apply pool_insert_lookup in Hl as [[-> ->]|[Hne Hl]]; [cbn; eauto|eauto].
  - intros j t' Hl.
    apply pool_insert_lookup in Hl as [[-> ->]|[Hne Hl]].
    + cbn [pc]. rewrite Hp. apply I8. exact Ht.
    + apply I8. exact Hl.
  - intros j t' Hl Hpc.
    apply pool_insert_lookup in Hl as [[-> ->]|[Hne Hl]].
    + cbn in Hpc. contradiction.
    + rewrite (I9 j t' Hl Hpc) in Ho. discriminate.
  - intros Hi Hne. destruct I10 as (j & t' & Hl & Hpc); [exact Hi| |].
    + intros He. rewrite He in Ho. discriminate.
    + exists j, t'. split; [|exact Hpc].
      rewrite list_lookup_insert_ne; [exact Hl|].
      intros <-. rewrite Ht in Hl. injection Hl as <-. contradiction.
  - intros j t' Hl.
    apply pool_insert_lookup in Hl as [[-> ->]|[Hne Hl]]; [cbn; exact HF|eauto].
Qed.

(** A caller that moves on without touching the world. *)
Lemma inv_move (s : Sys) (i : nat) (t t' : Thread) :
  Inv s -> pool s !! i = Some t ->
  holds_mutex (pc t') = holds_mutex (pc t) -> pc t <> L57 ->
  (pc t' = L56 -> objs (world s) = []) -> pc t' <> Failed ->
  result t' = None -> has_result (pc t') = false ->
  Inv {| world := world s; pool := <[i := t']> (pool s); aborted := false |}.
Proof.
  intros HI Ht Hp H57 H56 HF Hres Hhas.
  destruct HI as [I1 I2 I3 I4 I5 I6 I7 I8 I9 I10 I11].
  constructor; cbn [world pool]; try assumption.
  - intros j u r Hl Hr.
    apply pool_insert_lookup in Hl as [[-> ->]|[Hne Hl]]; [congruence|eauto].
  - intros j u Hl Hh.
    apply pool_insert_lookup in Hl as [[-> ->]|[Hne Hl]]; [congruence|eauto].
  - intros j u Hl.
    apply pool_insert_lookup in Hl as [[-> ->]|[Hne Hl]].
    + rewrite Hp. apply I8. exact Ht.
    + apply I8. exact Hl.
  - intros j u Hl Hpc.
    apply pool_insert_lookup in Hl as [[-> ->]|[Hne Hl]]; eauto.
  - intros Hi Hne. destruct (I10 Hi Hne) as (j & u & Hl & Hpc).
    exists j, u. split; [|exact Hpc].
    rewrite list_lookup_insert_ne; [exact Hl|].
    intros <-. rewrite Ht in Hl. injection Hl as <-. contradiction.
  - intros j u Hl.
    apply pool_insert_lookup in Hl as [[-> ->]|[Hne Hl]]; eauto.
Qed.

(** Line 52: the mutex is free and the caller takes it. *)
Lemma inv_acquire (s : Sys) (i : nat) (t : Thread) :
  Inv s -> pool s !! i = Some t -> pc t = L52 -> mutex (world s) = None ->
  Inv {| world := set_mutex (Some i) (world s);
         pool := <[i := {| pc := L53; result := result t |}]> (pool s);
         aborted := false |}.
Proof.
  intros HI Ht Hpc Hm.
  destruct HI as [I1 I2 I3 I4 I5 I6 I7 I8 I9 I10 I11].
  constructor; cbn [world pool set_mutex objs opens trace instance mutex];
    try assumption.
  - intros j u r Hl Hr.
    apply pool_insert_lookup in Hl as [[-> ->]|[Hne Hl]]; eauto.
  - intros j u Hl Hh.
    apply pool_insert_lookup in Hl as [[-> ->]|[Hne Hl]]; [discriminate|eauto].
  - intros j u Hl.
    apply pool_insert_lookup in Hl as [[-> ->]|[Hne Hl]].
    + cbn. tauto.
    + split.
      * intros Hh. apply (I8 j u Hl) in Hh. congruence.
      * intros Hh. congruence.
  - intros j u Hl Hp.
    apply pool_insert_lookup in Hl as [[-> ->]|[Hne Hl]]; [discriminate|eauto].
  - intros Hi Hne. destruct (I10 Hi Hne) as (j & u & Hl & Hp).
    exists j, u. split; [|exact Hp].
    rewrite list_lookup_insert_ne; [exact Hl|].
    intros <-. rewrite Ht in Hl. injection Hl as <-. congruence.
  - intros j u Hl.
    apply pool_insert_lookup in Hl as [[-> ->]|[Hne Hl]]; [discriminate|eauto].
Qed.

(** Line 57: the new object is published through the weak pointer. *)
Lemma inv_publish (s : Sys) (i : nat) (t : Thread) :
  Inv s -> pool s !! i = Some t -> pc t = L57 ->
  Inv {| world := set_instance (result t) (world s);
         pool := <[i := {| pc := L59; result := result t |}]> (pool s);
         aborted := false |}.
Proof.
  intros HI Ht Hpc.
  pose proof (inv_has_result s HI i t Ht) as Hres. rewrite Hpc in Hres.
  specialize (Hres eq_refl). destruct Hres as [r Hres].
  destruct HI as [I1 I2 I3 I4 I5 I6 I7 I8 I9 I10 I11].
  constructor; cbn [world pool set_instance objs opens trace instance mutex];
    try assumption.
  - intros r' Hi. rewrite Hi in Hres. eauto.
  - intros j u r' Hl Hr.
    apply pool_insert_lookup in Hl as [[-> ->]|[Hne Hl]]; eauto.
  - intros j u Hl Hh.
    apply pool_insert_lookup in Hl as [[-> ->]|[Hne Hl]]; [cbn; eauto|eauto].
  - intros j u Hl.
    apply pool_insert_lookup in Hl as [[-> ->]|[Hne Hl]].
    + cbn [pc]. rewrite <- (I8 i t Ht), Hpc. reflexivity.
    + apply I8. exact Hl.
  - intros j u Hl Hp.
    apply pool_insert_lookup in Hl as [[-> ->]|[Hne Hl]]; [discriminate|eauto].
  - intros Hi. congruence.
  - intros j u Hl.
    apply pool_insert_lookup in Hl as [[-> ->]|[Hne Hl]]; [discriminate|eauto].
Qed.

(** Line 59: the guard releases the mutex as the call returns. *)
Lemma inv_unlock (s : Sys) (i : nat) (t : Thread) :
  Inv s -> pool s !! i = Some t -> pc t = L59 ->
  Inv {| world := set_mutex None (world s);
         pool := <[i := {| pc := Returned; result := result t |}]> (pool s);
         aborted := false |}.
Proof.
  intros HI Ht Hpc.
  assert (Hm : mutex (world s) = Some i).
  { apply (inv_mutex s HI i t Ht). rewrite Hpc. reflexivity. }
  destruct HI as [I1 I2 I3 I4 I5 I6 I7 I8 I9 I10 I11].
  constructor; cbn [world pool set_mutex objs opens trace instance mutex];
    try assumption.
  - intros j u r' Hl Hr.
    apply pool_insert_lookup in Hl as [[-> ->]|[Hne Hl]]; eauto.
  - intros j u Hl Hh.
    apply pool_insert_lookup in Hl as [[-> ->]|[Hne Hl]]; [|eauto].
    cbn [result]. apply (I7 i t Ht). rewrite Hpc. reflexivity.
  - intros j u Hl.
    apply pool_insert_lookup in Hl as [[-> ->]|[Hne Hl]].
    + cbn. split; discriminate.
    + split; [|discriminate].
      intros Hh. apply (I8 j u Hl) in Hh. congruence.
  - intros j u Hl Hp.
    apply pool_insert_lookup in Hl as [[-> ->]|[Hne Hl]]; [discriminate|eauto].
  - intros Hi Hne. destruct (I10 Hi Hne) as (j & u & Hl & Hp).
    exists j, u. split; [|exact Hp].
    rewrite list_lookup_insert_ne; [exact Hl|].
    intros <-. rewrite Ht in Hl. injection Hl as <-. congruence.
  - intros j u Hl.
    apply pool_insert_lookup in Hl as [[-> ->]|[Hne Hl]]; [discriminate|eauto].
Qed.

Lemma new_shared_ret (H : Host) (w w' : World) (r : nat) :
  new_shared H w = (w', Ret r) ->
  exists self,
    w' = set_objs (objs w ++ [{| obj_val := self; strong := 1 |}])
           (add_trace
              (map (fun op => EvSym (handle self) (exported_name op)) all_ops)
              (opened H w))
    /\ r = length (objs w).
Proof.
  unfold new_shared, bind. intros Hn.
  destruct (CUDADriverWrapper_ctor H w) as [w1 [self|msg|]] eqn:Hc; try discriminate.
  apply ctor_inv in Hc as (_ & -> & _ & _).
  injection Hn as <- <-. exists self. split; reflexivity.
Qed.

Lemma no_open_in_resolution (h : Z) :
  filter (fun e => is_open e = true)
    (map (fun op => EvSym h (exported_name op)) all_ops) = [].
Proof. reflexivity. Qed.

(** Line 56: the constructor succeeds and the first object exists. *)
Lemma inv_construct (H : Host) (s : Sys) (i : nat) (t : Thread)
    (w' : World) (r : nat) :
  Inv s -> pool s !! i = Some t -> pc t = L56 ->
  new_shared H (world s) = (w', Ret r) ->
  Inv {| world := w';
         pool := <[i := {| pc := L57; result := Some r |}]> (pool s);
         aborted := false |}.
Proof.
  intros HI Ht Hpc Hn.
  apply new_shared_ret in Hn as (self & -> & ->).
  pose proof (inv_building s HI i t Ht Hpc) as Hnil.
  assert (Hm : mutex (world s) = Some i).
  { apply (inv_mutex s HI i t Ht). rewrite Hpc. reflexivity. }
  destruct HI as [I1 I2 I3 I4 I5 I6 I7 I8 I9 I10 I11].
  rewrite Hnil in *. cbn [length] in *.
  constructor;
    cbn [world pool set_objs add_trace opened objs opens trace instance mutex].
  - cbn. lia.
  - rewrite I2. reflexivity.
  - rewrite !filter_app, no_open_in_resolution, !length_app, I3, I2.
    reflexivity.
  - intros r' o' Hl.
    destruct r' as [|r']; cbn in Hl; [|discriminate].
    injection Hl as <-. cbn. lia.
  - intros r' Hi. apply I5 in Hi. lia.
  - intros j u r' Hl Hr.
    apply pool_insert_lookup in Hl as [[-> ->]|[Hne Hl]].
    + cbn in Hr. injection Hr as <-. cbn. lia.
    + pose proof (I6 j u r' Hl Hr). lia.
  - intros j u Hl Hh.
    apply pool_insert_lookup in Hl as [[-> ->]|[Hne Hl]]; [cbn; eauto|eauto].
  - intros j u Hl.
    apply pool_insert_lookup in Hl as [[-> ->]|[Hne Hl]].
    + cbn [pc]. rewrite <- (I8 i t Ht), Hpc. reflexivity.
    + apply I8. exact Hl.
  - intros j u Hl Hp.
    apply pool_insert_lookup in Hl as [[-> ->]|[Hne Hl]]; [discriminate|].
    exfalso. apply Hne. symmetry.
    assert (Hj : mutex (world s) = Some j)
      by (apply (I8 j u Hl); rewrite Hp; reflexivity).
    congruence.
  - intros _ _. exists i, {| pc := L57; result := Some 0%nat |}.
    split; [|reflexivity].
    apply list_lookup_insert_eq. eapply lookup_lt_Some; eauto.
  - intros j u Hl.
    apply pool_insert_lookup in Hl as [[-> ->]|[Hne Hl]]; [discriminate|eauto].
Qed.

(** Line 53 with an expired or empty weak pointer: nothing has been
    constructed yet. *)
Lemma inv_nothing_built (s : Sys) (i : nat) (t : Thread) :
  Inv s -> pool s !! i = Some t -> pc t = L53 ->
  instance (world s) = None -> objs (world s) = [].
Proof.
  intros HI Ht Hpc Hi.
  destruct (objs (world s)) as [|o os] eqn:Ho; [reflexivity|exfalso].
  destruct (inv_unpublished s HI Hi) as (j & u & Hl & Hp).
  { rewrite Ho. discriminate. }
  assert (i = j).
  { eapply (inv_holder s i j t u HI Ht Hl); [rewrite Hpc|rewrite Hp]; reflexivity. }
  subst j. rewrite Ht in Hl. injection Hl as <-. congruence.
Qed.

(** Every step of every caller keeps the invariant. *)
Lemma step_good (H : Host) (i : nat) (s : Sys) :
  Good s -> Good (sys_step H i s).
Proof.
  unfold Good, sys_step. intros HG.
  destruct (aborted s) eqn:Hab; [rewrite Hab; exact HG|].
  destruct (pool s !! i) as [t|] eqn:Ht; [|rewrite Hab; exact HG].
  unfold statement. destruct t as [p res]. destruct p; cbn [pc result].
  - (* L46 *)
    destruct (instance (world s)) as [r|] eqn:Hi.
    + destruct (weak_lock_live s r HG Hi) as (o & Ho & Hs & ->).
      cbn [aborted]. eapply inv_add_ref; eauto; discriminate.
    + rewrite (weak_lock_empty _ Hi). cbn [aborted].
      eapply inv_move; eauto; discriminate.
  - (* L52 *)
    destruct (mutex (world s)) eqn:Hm; [rewrite Hab; exact HG|].
    cbn [aborted]. apply (inv_acquire s i _ HG Ht); [reflexivity|exact Hm].
  - (* L53 *)
    destruct (instance (world s)) as [r|] eqn:Hi.
    + destruct (weak_lock_live s r HG Hi) as (o & Ho & Hs & ->).
      cbn [aborted]. eapply inv_add_ref; eauto; discriminate.
    + rewrite (weak_lock_empty _ Hi). cbn [aborted].
      eapply inv_move; eauto; try discriminate.
      intros _. eapply inv_nothing_built; eauto.
  - (* L56 *)
    destruct (new_shared H (world s)) as [w' [r|msg|]] eqn:Hn; cbn [aborted].
    + eapply inv_construct; eauto.
    + exists i, {| pc := Failed; result := None |}. split; [|reflexivity].
      apply list_lookup_insert_eq. eapply lookup_lt_Some; eauto.
    + exists i, {| pc := Failed; result := None |}. split; [|reflexivity].
      apply list_lookup_insert_eq. eapply lookup_lt_Some; eauto.
  - (* L57 *)
    cbn [aborted]. apply (inv_publish s i _ HG Ht). reflexivity.
  - (* L59 *)
    cbn [aborted]. apply (inv_unlock s i _ HG Ht). reflexivity.
  - rewrite Hab. exact HG.
  - rewrite Hab. exact HG.
Qed.

Lemma sys_run_good (H : Host) (sched : list nat) (s : Sys) :
  Good s -> Good (sys_run H sched s).
Proof.
  revert s. induction sched as [|i sched IH]; intros s HG; [exact HG|].
  change (sys_run H (i :: sched) s) with (sys_run H sched (sys_step H i s)).
  apply IH, step_good, HG.
Qed.

Lemma sys_step_length (H : Host) (i : nat) (s : Sys) :
  length (pool (sys_step H i s)) = length (pool s).
Proof.
  unfold sys_step. destruct (aborted s); [reflexivity|].
  destruct (pool s !! i) as [t|]; [|reflexivity].
  destruct (statement H i (world s) t); cbn; rewrite ?length_insert; reflexivity.
Qed.

Lemma sys_run_length (H : Host) (sched : list nat) (s : Sys) :
  length (pool (sys_run H sched s)) = length (pool s).
Proof.
  revert s. induction sched as [|i sched IH]; intros s; [reflexivity|].
  change (sys_run H (i :: sched) s) with (sys_run H sched (sys_step H i s)).
  rewrite IH. apply sys_step_length.
Qed.

Lemma sys_init_good (n : nat) : Good (sys_init world0 n).
Proof.
  unfold Good, sys_init. cbn [aborted].
  constructor; cbn [world pool world0 objs opens trace instance mutex length].
  - lia.
  - reflexivity.
  - reflexivity.
  - intros r o Hl. destruct r; discriminate.
  - intros r Hi. discriminate.
  - intros i t r Hl Hr. apply lookup_replicate in Hl as [-> _]. discriminate.
  - intros i t Hl Hh. apply lookup_replicate in Hl as [-> _]. discriminate.
  - intros i t Hl. apply lookup_replicate in Hl as [-> _]. cbn.
    split; discriminate.
  - intros i t Hl Hp. reflexivity.
  - intros _ Hne. contradiction.
  - intros i t Hl. apply lookup_replicate in Hl as [-> _]. discriminate.
Qed.

(** The statement-by-statement semantics, run without interference,
    is the sequential reading of the function. *)
Lemma run_alone_getInstance (H : Host) (tid : nat) (w : World) :
  run_alone H tid 6 w thread0 = getInstance H tid w.
Proof.
  unfold getInstance, bind at 1, instance_lock.
  cbn [run_alone statement thread0 pc result].
  destruct (weak_lock w) as [w1 [r|]] eqn:Hw1; cbn [pc result statement].
  - reflexivity.
  - unfold bind at 1, lock_guard.
    destruct (mutex w1) eqn:Hm; [reflexivity|].
    cbn [pc result statement]. unfold bind at 1.
    destruct (weak_lock (set_mutex (Some tid) w1)) as [w3 [r|]] eqn:Hw3;
      cbn [pc result statement].
    + reflexivity.
    + unfold bind, ret, assign_instance, unlock.
      destruct (new_shared H w3) as [w4 [r| |]]; reflexivity.
Qed.

Lemma sys_run_cons (H : Host) (i : nat) (sched : list nat) (s : Sys) :
  sys_run H (i :: sched) s = sys_run H sched (sys_step H i s).
Proof. reflexivity. Qed.

(** ** The singleton accessor under concurrent first calls *)

Lemma upd_eq {A} (i : nat) (x : A) (f : nat -> A) : upd i x f i = x.
Proof. unfold upd. rewrite Nat.eqb_refl. reflexivity. Qed.

Lemma upd_ne {A} (i j : nat) (x : A) (f : nat -> A) :
  j <> i -> upd i x f j = f j.
Proof. intros Hne. unfold upd. apply Nat.eqb_neq in Hne. rewrite Hne. reflexivity. Qed.

Lemma clock_leb_le (n : nat) (a b : Clock) :
  clock_leb n a b = true -> forall j, (j < n)%nat -> (a j <= b j)%nat.
Proof.
  unfold clock_leb. intros Hall j Hj.
  rewrite forallb_forall in Hall. apply Nat.leb_le, Hall.
  apply in_seq. lia.
Qed.

Lemma clock_leb_zero (n : nat) (a b : Clock) :
  (forall j, a j = 0%nat) -> clock_leb n a b = true.
Proof.
  intros Hz. unfold clock_leb. apply forallb_forall. intros j _.
  rewrite Hz. reflexivity.
Qed.

(** The four ways a step of the scheduler can go. *)
Lemma exec_step_race (H : Host) (i : nat) (e : Exec) (t : Thread) :
  raced e = false -> aborted (sys e) = false -> pool (sys e) !! i = Some t ->
  ordered (length (pool (sys e))) i (sync e) (access (pc t)) = false ->
  exec_step H i e = {| sys := sys e; sync := sync e; raced := true |}.
Proof.
  intros Hr Ha Ht Ho. unfold exec_step, thread_step.
  rewrite Hr, Ha, Ht, Ho. reflexivity.
Qed.

Lemma exec_step_next (H : Host) (i : nat) (e : Exec) (t : Thread)
    (w' : World) (t' : Thread) :
  raced e = false -> aborted (sys e) = false -> pool (sys e) !! i = Some t ->
  ordered (length (pool (sys e))) i (sync e) (access (pc t)) = true ->
  statement H i (world (sys e)) t = Next w' t' ->
  exec_step H i e
  = {| sys := {| world := w'; pool := <[i := t']> (pool (sys e));
                 aborted := false |};
       sync := sync_step i (access (pc t)) (sync e);
       raced := false |}.
Proof.
  intros Hr Ha Ht Ho Hs. unfold exec_step, thread_step, sys_step.
  rewrite Hr, Ha, Ht, Ho, Hs. reflexivity.
Qed.

Lemma exec_step_dead (H : Host) (i : nat) (e : Exec) (t : Thread)
    (w' : World) (o : Outcome nat) :
  raced e = false -> aborted (sys e) = false -> pool (sys e) !! i = Some t ->
  ordered (length (pool (sys e))) i (sync e) (access (pc t)) = true ->
  statement H i (world (sys e)) t = Dead w' o ->
  exec_step H i e
  = {| sys := {| world := w';
                 pool := <[i := {| pc := Failed; result := None |}]> (pool (sys e));
                 aborted := true |};
       sync := sync_step i (access (pc t)) (sync e);
       raced := false |}.
Proof.
  intros Hr Ha Ht Ho Hs. unfold exec_step, thread_step, sys_step.
  rewrite Hr, Ha, Ht, Ho, Hs. reflexivity.
Qed.

Lemma exec_step_nostep (H : Host) (i : nat) (e : Exec) (t : Thread) :
  pool (sys e) !! i = Some t ->
  ordered (length (pool (sys e))) i (sync e) (access (pc t)) = true ->
  statement H i (world (sys e)) t = NoStep ->
  exec_step H i e = e.
Proof.
  intros Ht Ho Hs. unfold exec_step, thread_step.
  destruct (raced e || aborted (sys e)); [reflexivity|].
  rewrite Ht, Ho, Hs. reflexivity.
Qed.

Lemma new_shared_instance (H : Host) (w w' : World) (o : Outcome nat) :
  new_shared H w = (w', o) -> instance w' = instance w.
Proof.
  unfold new_shared, bind. intros Hn.
  destruct (Z.eq_dec (os_open H (opens w) (lib_file H)) 0) as [Hz|Hnz].
  - rewrite (ctor_open_null H w Hz) in Hn. injection Hn as <- _. reflexivity.
  - destruct (ctor_open_ok H w Hnz) as (self & Hc & _).
    rewrite Hc in Hn. injection Hn as <- _. reflexivity.
Qed.

(** Every step keeps the process in one of the two phases, or is a
    data race. *)
Lemma step_phases (H : Host) (i : nat) (e : Exec) :
  Phases e -> Phases (exec_step H i e).
Proof.
  intros HP.
  destruct (raced e) eqn:Hr.
  { unfold exec_step. rewrite Hr. exact HP. }
  destruct (aborted (sys e)) eqn:Ha.
  { unfold exec_step. rewrite Hr, Ha. exact HP. }
  destruct (pool (sys e) !! i) as [t|] eqn:Ht.
  2:{ unfold exec_step. rewrite Hr, Ha, Ht. exact HP. }
  destruct (ordered (length (pool (sys e))) i (sync e) (access (pc t))) eqn:Ho.
  2:{ rewrite (exec_step_race H i e t Hr Ha Ht Ho). intros Hx. discriminate. }
  assert (Hi : (i < length (pool (sys e)))%nat) by (eapply lookup_lt_Some; eauto).
  destruct (HP Hr) as [HA|[u HB]].
  - (* the weak pointer has not been written *)
    destruct HA as [A1 A2 A3 A4 A5 A6 A7].
    destruct t as [p res]. destruct p.
    + (* line 46 *)
      rewrite (exec_step_next H i e _ (world (sys e))
                 {| pc := L52; result := None |} Hr Ha Ht Ho).
      2:{ unfold statement. cbn [pc]. rewrite (weak_lock_empty _ A1). reflexivity. }
      intros _. left.
      constructor;
        cbn [sys sync world pool access pc sync_step vc mutex_vc read_vc write_vc];
        auto.
      * intros j u Hl Hpc. apply pool_insert_lookup in Hl as [[-> ->]|[Hne Hl]].
        -- rewrite upd_eq. apply A6.
        -- rewrite upd_ne by exact Hne. eauto.
      * intros j u Hl. apply pool_insert_lookup in Hl as [[-> ->]|[Hne Hl]];
          [cbn; split; discriminate|eauto].
    + (* line 52 *)
      destruct (mutex (world (sys e))) as [k|] eqn:Hm.
      { rewrite (exec_step_nostep H i e _ Ht Ho); [exact HP|].
        unfold statement. cbn [pc]. rewrite Hm. reflexivity. }
      rewrite (exec_step_next H i e _ (set_mutex (Some i) (world (sys e)))
                 {| pc := L53; result := res |} Hr Ha Ht Ho).
      2:{ unfold statement. cbn [pc result]. rewrite Hm. reflexivity. }
      intros _. left.
      constructor;
        cbn [sys sync world pool access pc sync_step vc mutex_vc read_vc write_vc
             set_mutex instance];
        auto.
      * intros a b Hab. unfold upd at 1. destruct (Nat.eqb_spec a i) as [->|Hne].
        -- unfold clock_join. rewrite (A3 i b Hab), A4. reflexivity.
        -- apply A3. exact Hab.
      * intros j u Hl Hpc. apply pool_insert_lookup in Hl as [[-> ->]|[Hne Hl]].
        -- apply (A5 i _ Ht). discriminate.
        -- eauto.
      * intros a. unfold upd at 1. destruct (Nat.eqb_spec a i) as [->|Hne].
        -- unfold clock_join. rewrite A4. rewrite Nat.max_0_r. apply A6.
        -- apply A6.
      * intros j u Hl. apply pool_insert_lookup in Hl as [[-> ->]|[Hne Hl]];
          [cbn; split; discriminate|eauto].
    + (* line 53 *)
      rewrite (exec_step_next H i e _ (world (sys e))
                 {| pc := L56; result := None |} Hr Ha Ht Ho).
      2:{ unfold statement. cbn [pc]. rewrite (weak_lock_empty _ A1). reflexivity. }
      intros _. left.
      constructor;
        cbn [sys sync world pool access pc sync_step vc mutex_vc read_vc write_vc];
        auto.
      * intros j u Hl Hpc. apply pool_insert_lookup in Hl as [[-> ->]|[Hne Hl]].
        -- rewrite upd_eq. apply A6.
        -- rewrite upd_ne by exact Hne. eauto.
      * intros j u Hl. apply pool_insert_lookup in Hl as [[-> ->]|[Hne Hl]];
          [cbn; split; discriminate|eauto].
    + (* line 56 *)
      destruct (new_shared H (world (sys e))) as [w' o] eqn:Hn.
      pose proof (new_shared_instance H _ _ _ Hn) as Hinst.
      assert (Hrest :
        forall t',
          pc t' <> L46 -> pc t' <> L59 -> pc t' <> Returned ->
          forall b,
          Unpublished
            {| sys := {| world := w'; pool := <[i := t']> (pool (sys e));
                         aborted := b |};
               sync := sync e; raced := false |}).
      { intros t' H46 H59 HR b.
        constructor; cbn [sys sync world pool]; auto.
        - congruence.
        - intros j u Hl Hpc. apply pool_insert_lookup in Hl as [[-> ->]|[Hne Hl]].
          + apply (A5 i _ Ht). discriminate.
          + eauto.
        - intros j u Hl. apply pool_insert_lookup in Hl as [[-> ->]|[Hne Hl]];
            [split; assumption|eauto]. }
      destruct o as [r|msg|].
      * rewrite (exec_step_next H i e _ w' {| pc := L57; result := Some r |}
                   Hr Ha Ht Ho).
        2:{ unfold statement. cbn [pc]. rewrite Hn. reflexivity. }
        intros _. left. apply Hrest; discriminate.
      * rewrite (exec_step_dead H i e _ w' (Fatal msg) Hr Ha Ht Ho).
        2:{ unfold statement. cbn [pc]. rewrite Hn. reflexivity. }
        intros _. left. apply Hrest; discriminate.
      * rewrite (exec_step_dead H i e _ w' Fault Hr Ha Ht Ho).
        2:{ unfold statement. cbn [pc]. rewrite Hn. reflexivity. }
        intros _. left. apply Hrest; discriminate.
    + (* line 57: the write is ordered, so no other caller has read *)
      rewrite (exec_step_next H i e _ (set_instance res (world (sys e)))
                 {| pc := L59; result := res |} Hr Ha Ht Ho).
      2:{ reflexivity. }
      cbn [access pc ordered] in Ho. apply andb_prop in Ho as [_ Hreads].
      intros _. right. exists i.
      constructor;
        cbn [sys sync world pool access pc sync_step vc mutex_vc read_vc write_vc
             aborted];
        auto.
      * eexists. split; [apply list_lookup_insert_eq; exact Hi|]. left. reflexivity.
      * rewrite upd_eq. apply A6.
      * intros j u Hne Hl. rewrite list_lookup_insert_ne in Hl by congruence.
        destruct (decide (pc u = L46)) as [Hpc|Hpc]; [exact Hpc|exfalso].
        apply (A5 j u Hl Hpc).
        pose proof (clock_leb_le _ _ _ Hreads j) as Hle.
        rewrite (A3 i j) in Hle by congruence.
        assert (j < length (pool (sys e)))%nat by (eapply lookup_lt_Some; eauto).
        lia.
    + (* line 59 *)
      exfalso. apply (proj1 (A7 i _ Ht)). reflexivity.
    + exfalso. apply (proj2 (A7 i _ Ht)). reflexivity.
    + rewrite (exec_step_nostep H i e _ Ht Ho); [exact HP|reflexivity].
  - (* caller [u] has written it *)
    destruct HB as [(tu & Hu & Hpu) B2 B3 B4 B5].
    destruct (decide (i = u)) as [->|Hne].
    + rewrite Ht in Hu. injection Hu as <-.
      destruct t as [p res]. cbn [pc] in *.
      destruct Hpu as [->| ->].
      * (* line 59: the writer returns *)
        rewrite (exec_step_next H u e _ (set_mutex None (world (sys e)))
                   {| pc := Returned; result := res |} Hr Ha Ht Ho).
        2:{ reflexivity. }
        intros _. right. exists u.
        constructor;
          cbn [sys sync world pool access pc sync_step vc mutex_vc read_vc write_vc
               aborted];
          auto.
        -- eexists. split; [apply list_lookup_insert_eq; exact Hi|].
           right. reflexivity.
        -- intros j u' Hne Hl. rewrite list_lookup_insert_ne in Hl by congruence.
           eauto.
        -- intros j Hne. rewrite upd_ne by exact Hne. apply B4. exact Hne.
      * rewrite (exec_step_nostep H u e _ Ht Ho); [exact HP|reflexivity].
    + (* another caller: its first read is not ordered after the write *)
      exfalso. rewrite (B3 i t Hne Ht) in Ho. cbn [access ordered] in Ho.
      pose proof (clock_leb_le _ _ _ Ho u) as Hle.
      rewrite (B4 i Hne) in Hle.
      assert (u < length (pool (sys e)))%nat by (eapply lookup_lt_Some; eauto).
      lia.
Qed.

Lemma run_cons (H : Host) (i : nat) (sched : list nat) (e : Exec) :
  run H (i :: sched) e = run H sched (exec_step H i e).
Proof. reflexivity. Qed.

Lemma run_app (H : Host) (l1 l2 : list nat) (e : Exec) :
  run H (l1 ++ l2) e = run H l2 (run H l1 e).
Proof. unfold run. apply fold_left_app. Qed.

Lemma run_phases (H : Host) (sched : list nat) (e : Exec) :
  Phases e -> Phases (run H sched e).
Proof.
  revert e. induction sched as [|i sched IH]; intros e HP; [exact HP|].
  rewrite run_cons. apply IH, step_phases, HP.
Qed.

Lemma init_phases (n : nat) : Phases (init world0 n).
Proof.
  intros _. left.
  constructor; cbn [init sys sync sys_init world pool sync0 vc mutex_vc read_vc
                    write_vc world0 instance]; try reflexivity.
  - intros i j Hne. apply upd_ne. congruence.
  - intros i t Hl Hpc. apply lookup_replicate in Hl as [-> _]. contradiction.
  - intros i. rewrite upd_eq. discriminate.
  - intros i t Hl. apply lookup_replicate in Hl as [-> _]. split; discriminate.
Qed.

(** A step moves the memory and the callers as [sys_step] does, or
    not at all. *)
Lemma exec_step_sys (H : Host) (i : nat) (e : Exec) :
  sys (exec_step H i e) = sys e \/ sys (exec_step H i e) = sys_step H i (sys e).
Proof.
  unfold exec_step.
  destruct (raced e || aborted (sys e)); [left; reflexivity|].
  destruct (pool (sys e) !! i) as [t|]; [|left; reflexivity].
  destruct (thread_step _ _ _ _ _ _) as [|[w' t'| |w' o]];
    [left|right|left|right]; reflexivity.
Qed.

(** What the callers and the memory go through in a run is an
    interleaving of their statements. *)
Lemma run_sys (H : Host) (sched : list nat) (e : Exec) :
  exists sched', sys (run H sched e) = sys_run H sched' (sys e).
Proof.
  revert e. induction sched as [|i sched IH]; intros e.
  - exists []. reflexivity.
  - rewrite run_cons. destruct (IH (exec_step H i e)) as [sched' Hs].
    destruct (exec_step_sys H i e) as [He|He]; rewrite He in Hs.
    + exists sched'. exact Hs.
    + exists (i :: sched'). exact Hs.
Qed.

Lemma run_length (H : Host) (sched : list nat) (e : Exec) :
  length (pool (sys (run H sched e))) = length (pool (sys e)).
Proof.
  destruct (run_sys H sched e) as [sched' ->]. apply sys_run_length.
Qed.

Lemma raced_stays (H : Host) (i : nat) (e : Exec) :
  raced e = true -> raced (exec_step H i e) = true.
Proof. intros Hr. unfold exec_step. rewrite Hr. exact Hr. Qed.

(** C2: concurrent first calls of [getInstance] race.  Let [n] callers
    make their first call with nothing that orders one call with
    another.  In an execution without data race, once a caller has
    returned no other caller has made a step; and when another caller
    then makes its first step, the read of line 46, that read is a data
    race with the write of line 57 by the caller that returned.  So no
    execution in which two callers receive an instance is free of
    undefined behaviour. *)
Theorem concurrent_first_calls_race (H : Host) (n : nat) (sched : list nat)
    (i j : nat) (t : Thread) :
  pool (sys (run H sched (init world0 n))) !! i = Some t ->
  pc t = Returned ->
  j <> i -> (j < n)%nat ->
  (raced (run H sched (init world0 n)) = false ->
   exists tj, pool (sys (run H sched (init world0 n))) !! j = Some tj
              /\ pc tj = L46)
  /\ raced (run H (sched ++ [j]) (init world0 n)) = true.
Proof.
  intros Ht Hpc Hne Hj.
  pose proof (run_phases H sched _ (init_phases n)) as HP.
  assert (Hlen : length (pool (sys (run H sched (init world0 n)))) = n).
  { rewrite run_length. apply length_replicate. }
  set (e := run H sched (init world0 n)) in *.
  assert (Hstart : raced e = false ->
                   exists tj, pool (sys e) !! j = Some tj /\ pc tj = L46
                              /\ exists u, Published e u /\ j <> u).
  { intros Hr. destruct (HP Hr) as [HA|[u HB]].
    - exfalso. apply (proj2 (unp_pcs e HA i t Ht)). exact Hpc.
    - assert (i = u).
      { destruct (decide (i = u)) as [Hiu|Hiu]; [exact Hiu|exfalso].
        pose proof (pub_others e u HB i t Hiu Ht). congruence. }
      subst u.
      destruct (lookup_lt_is_Some_2 (pool (sys e)) j) as [tj Htj]; [lia|].
      exists tj. split; [exact Htj|]. split; [apply (pub_others e i HB j tj Hne Htj)|].
      exists i. split; [exact HB|exact Hne]. }
  split.
  - intros Hr. destruct (Hstart Hr) as (tj & Htj & Hpj & _). eauto.
  - rewrite run_app. fold e. cbn [run fold_left].
    destruct (raced e) eqn:Hr; [apply raced_stays; exact Hr|].
    destruct (Hstart eq_refl) as (tj & Htj & Hpj & u & HB & Hju).
    rewrite (exec_step_race H j e tj Hr (pub_running e u HB) Htj); [reflexivity|].
    rewrite Hpj. cbn [access ordered].
    destruct (clock_leb _ _ _) eqn:Hle; [exfalso|reflexivity].
    destruct (pub_writer e u HB) as (tu & Hu & _).
    pose proof (clock_leb_le _ _ _ Hle u) as Hle'.
    rewrite (pub_clocks e u HB j Hju) in Hle'.
    pose proof (pub_write e u HB).
    assert (u < length (pool (sys e)))%nat by (eapply lookup_lt_Some; eauto).
    lia.
Qed.

Lemma concurrent_first_calls_race_witness :
  (pool (sys (run host_ok [0; 0; 0; 0; 0; 0]%nat (init world0 2))) !! 0%nat
   = Some {| pc := Returned; result := Some 0%nat |}
   /\ raced (run host_ok [0; 0; 0; 0; 0; 0]%nat (init world0 2)) = false)
  /\ raced (run host_ok [0; 0; 0; 0; 0; 0; 1]%nat (init world0 2)) = true
  /\ raced (run host_ok [1; 0; 0; 0; 0; 0]%nat (init world0 2)) = true.
Proof.
  split; [split; vm_compute; reflexivity|].
  split; [|vm_compute; reflexivity].
  apply (concurrent_first_calls_race host_ok 2 [0; 0; 0; 0; 0; 0]%nat 0 1
           {| pc := Returned; result := Some 0%nat |}).
  - vm_compute. reflexivity.
  - reflexivity.
  - discriminate.
  - lia.
Defined.

(** * Further properties *)

(** ** From the library to the call *)

(** X1: through a wrapper built by the constructor, a forwarding method
    runs the code that the library exports under the operation's
    exported name (with its version suffix where it has one), on the
    caller's arguments, provided the library exports that name. *)
Theorem bound_method_runs_export (H : Host) (w w' : World)
    (self : CUDADriverWrapper) (c : Call) (w2 : World) :
  CUDADriverWrapper_ctor H w = (w', Ret self) ->
  os_sym H (handle self) (exported_name (call_op c)) <> 0 ->
  handle self = os_open H (opens w) (lib_file H)
  /\ perform H self c w2
     = (emit (EvCall (os_sym H (handle self) (exported_name (call_op c)))
                (call_args c)) w2,
        Ret (native H (os_sym H (handle self) (exported_name (call_op c)))
               (call_args c))).
Proof.
  intros Hc Hp. apply ctor_inv in Hc as (_ & _ & Hh & Hs).
  split; [exact Hh|].
  rewrite perform_invoke, Hs. apply invoke_non_null. exact Hp.
Qed.

Lemma bound_method_runs_export_witness :
  exists w',
    CUDADriverWrapper_ctor host_ok world0 = (w', Ret wrapper_ok)
    /\ os_sym host_ok (handle wrapper_ok)
         (exported_name (call_op (Call_cuLinkCreate 1 2 3 4))) <> 0
    /\ cuLinkCreate host_ok wrapper_ok 1 2 3 4 world0
       = (emit (EvCall (os_sym host_ok 4096 "cuLinkCreate_v2") [1; 2; 3; 4]) world0,
          Ret (native host_ok (os_sym host_ok 4096 "cuLinkCreate_v2") [1; 2; 3; 4])).
Proof.
  eexists. split; [reflexivity|].
  assert (Hp : os_sym host_ok (handle wrapper_ok)
                 (exported_name (call_op (Call_cuLinkCreate 1 2 3 4))) <> 0)
    by (vm_compute; discriminate).
  split; [exact Hp|].
  eapply (bound_method_runs_export host_ok world0 _ wrapper_ok
            (Call_cuLinkCreate 1 2 3 4) world0); [reflexivity|exact Hp].
Defined.

(** X2: on a driver that lacks an export the constructor still
    succeeds, and the method of that operation faults at its first use,
    before any call is made: the missing symbol surfaces at the call,
    not at construction. *)
Theorem missing_export_faults_at_first_use (H : Host) (w w' : World)
    (self : CUDADriverWrapper) (c : Call) (w2 : World) :
  CUDADriverWrapper_ctor H w = (w', Ret self) ->
  os_sym H (handle self) (exported_name (call_op c)) = 0 ->
  slot (call_op c) self = 0
  /\ perform H self c w2 = (w2, Fault).
Proof.
  intros Hc Hp. apply ctor_inv in Hc as (_ & _ & _ & Hs).
  assert (Hz : slot (call_op c) self = 0) by (rewrite Hs; exact Hp).
  split; [exact Hz|].
  rewrite perform_invoke. unfold invoke. rewrite Hz. reflexivity.
Qed.

Lemma missing_export_faults_at_first_use_witness :
  exists w' self,
    CUDADriverWrapper_ctor host_cuda11 world0 = (w', Ret self)
    /\ cuTensorMapEncodeTiled host_cuda11 self 1 2 3 4 5 6 7 8 9 10 11 12 w'
       = (w', Fault)
    /\ exists r, snd (cuMemcpyDtoH host_cuda11 self 1 2 3 w') = Ret r.
Proof.
  destruct (ctor_open_ok host_cuda11 world0) as (self & Hc & Hh & Hs);
    [vm_compute; discriminate|].
  eexists. exists self. split; [exact Hc|]. split.
  - eapply (missing_export_faults_at_first_use host_cuda11 world0 _ self
              (Call_cuTensorMapEncodeTiled 1 2 3 4 5 6 7 8 9 10 11 12));
      [exact Hc|].
    rewrite Hh. reflexivity.
  - unfold cuMemcpyDtoH.
    change (_cuMemcpyDtoH self) with (slot Op_cuMemcpyDtoH self).
    rewrite Hs, Hh. eexists. reflexivity.
Defined.

(** The constructor's table of names has no repetition. *)
Lemma exported_name_inj (op1 op2 : Op) :
  exported_name op1 = exported_name op2 -> op1 = op2.
Proof.
  destruct op1, op2; intros He; try reflexivity; vm_compute in He; discriminate.
Qed.

(** X3: no two operations are bound to the same export.  So with a
    loader that never gives two names the same address (null, for the
    names a library lacks, apart), the pointers of two different
    operations differ unless both are null: two different methods never
    end in the same native function. *)
Theorem distinct_operations_distinct_exports (op1 op2 : Op) :
  op1 <> op2 ->
  exported_name op1 <> exported_name op2
  /\ forall (H : Host) (w w' : World) (self : CUDADriverWrapper),
       CUDADriverWrapper_ctor H w = (w', Ret self) ->
       (forall n1 n2,
          os_sym H (handle self) n1 <> 0 ->
          os_sym H (handle self) n1 = os_sym H (handle self) n2 -> n1 = n2) ->
       slot op1 self <> 0 \/ slot op2 self <> 0 ->
       slot op1 self <> slot op2 self.
Proof.
  intros Hne. split.
  - intros He. apply Hne, exported_name_inj, He.
  - intros H w w' self Hc Hinj Hnn.
    apply ctor_inv in Hc as (_ & _ & _ & Hs).
    rewrite !Hs in *. unfold resolved in *. intros He.
    apply Hne, exported_name_inj.
    destruct Hnn as [Hn|Hn].
    + apply (Hinj _ _ Hn He).
    + symmetry. apply (Hinj _ _ Hn (eq_sym He)).
Qed.

Lemma distinct_operations_distinct_exports_witness :
  Op_cuLaunchKernel <> Op_cuLaunchKernelEx
  /\ exists w' self,
       CUDADriverWrapper_ctor host_distinct world0 = (w', Ret self)
       /\ os_sym host_distinct (handle self) "cuLaunchKernel_v2" = 0
       /\ slot Op_cuLaunchKernel self <> 0
       /\ slot Op_cuLaunchKernel self <> slot Op_cuLaunchKernelEx self.
Proof.
  assert (Hne : Op_cuLaunchKernel <> Op_cuLaunchKernelEx) by discriminate.
  split; [exact Hne|].
  destruct (ctor_open_ok host_distinct world0) as (self & Hc & Hh & Hs);
    [vm_compute; discriminate|].
  assert (Hnn : slot Op_cuLaunchKernel self <> 0).
  { rewrite Hs. unfold resolved. cbn [os_sym host_distinct].
    change (existsb _ _) with true. cbv iota. discriminate. }
  eexists. exists self. split; [exact Hc|]. split; [reflexivity|].
  split; [exact Hnn|].
  apply (proj2 (distinct_operations_distinct_exports
                  Op_cuLaunchKernel Op_cuLaunchKernelEx Hne)
           host_distinct world0 _ self Hc).
  - intros n1 n2 Hn He. cbn [os_sym host_distinct] in *.
    destruct (existsb (String.eqb n1) _); [|contradiction].
    destruct (existsb (String.eqb n2) _); [|discriminate].
    injection He as He. apply (inj countable.encode) in He. exact He.
  - left. exact Hnn.
Defined.

(** ** The extended launch as a forwarding method *)

(** X4: whenever its debug check does not fire (the checks are off, or
    exactly one of [kernelParams] and [extra] is set), [cuLaunchKernelEx]
    forwards like the other methods: one call through its own pointer
    with [config], [f], [kernelParams], [extra] in that order, whose
    result code it returns; the only other effect is the log line, and
    only with the logger at DEBUG level. *)
Theorem cuLaunchKernelEx_forwards (H : Host) (self : CUDADriverWrapper)
    (config f kernelParams extra : Z) (w : World) :
  (log_debug H = true ->
   exists c, mem_config H config = Some c /\ wf_config c) ->
  (check_debug H = true -> ~ exclusivity_violated kernelParams extra) ->
  _cuLaunchKernelEx self <> 0 ->
  exists w1,
    cuLaunchKernelEx H self config f kernelParams extra w
    = (emit (EvCall (_cuLaunchKernelEx self) [config; f; kernelParams; extra]) w1,
       Ret (native H (_cuLaunchKernelEx self) [config; f; kernelParams; extra]))
    /\ (log_debug H = false -> w1 = w)
    /\ (log_debug H = true -> exists msg, w1 = emit (EvLog msg) w).
Proof.
  intros Hcfg Hchk Hp.
  assert (Hpass : check_debug H
                  && negb (xorb (negb (extra =? 0)) (negb (kernelParams =? 0)))
                  = false).
  { destruct (check_debug H); [|reflexivity]. cbn [andb].
    apply negb_false_iff. apply not_false_is_true. intros Hx.
    apply exclusivity_check_spec in Hx. exact (Hchk eq_refl Hx). }
  destruct (log_debug H) eqn:Hlog.
  - destruct (Hcfg eq_refl) as (c & Hmem & Hwf).
    rewrite (cuLaunchKernelEx_run H self config f kernelParams extra w c Hmem Hwf).
    rewrite Hlog, Hpass. cbv zeta. eexists. split; [|split].
    + apply invoke_non_null. exact Hp.
    + discriminate.
    + intros _. eexists. reflexivity.
  - rewrite (cuLaunchKernelEx_quiet H self config f kernelParams extra w Hlog).
    rewrite Hpass. exists w. split; [|split].
    + apply invoke_non_null. exact Hp.
    + reflexivity.
    + discriminate.
Qed.

Lemma cuLaunchKernelEx_forwards_witness :
  exists w1,
    cuLaunchKernelEx host_ok wrapper_ok 64 7 9 0 world0
    = (emit (EvCall (_cuLaunchKernelEx wrapper_ok) [64; 7; 9; 0]) w1,
       Ret (native host_ok (_cuLaunchKernelEx wrapper_ok) [64; 7; 9; 0])).
Proof.
  destruct (cuLaunchKernelEx_forwards host_ok wrapper_ok 64 7 9 0 world0)
    as (w1 & Hr & _).
  - intros _. exists config0. split; [reflexivity|].
    unfold wf_config; cbn; lia.
  - intros _ [[_ He]|[Hk _]]; [apply He; reflexivity|discriminate].
  - vm_compute; discriminate.
  - exists w1. exact Hr.
Defined.

(** X5: the attribute array is read up to [numAttrs] and no further:
    whatever lies behind the first [numAttrs] attributes has no
    influence on the text. *)
Theorem stringify_ignores_attrs_beyond_count (H : Host) (c : CUlaunchConfig)
    (more : list CUlaunchAttribute) :
  wf_config c ->
  stringify_launch_config H (with_attrs (attrs c ++ more) c)
  = stringify_launch_config H c.
Proof.
  intros Hwf. pose proof Hwf as [[Hn0 Hn] Hlen].
  assert (Hwf' : wf_config (with_attrs (attrs c ++ more) c)).
  { unfold wf_config, with_attrs. cbn [numAttrs attrs].
    rewrite length_app. lia. }
  rewrite (stringify_ok H _ Hwf'), (stringify_ok H c Hwf).
  do 2 f_equal. unfold attr_lines, with_attrs. cbn [numAttrs attrs].
  rewrite take_app_le by lia. reflexivity.
Qed.

Lemma stringify_ignores_attrs_beyond_count_witness :
  wf_config config0
  /\ stringify_launch_config host_ok (with_attrs (attrs config0 ++ attrs config0) config0)
     = stringify_launch_config host_ok config0.
Proof.
  assert (Hwf : wf_config config0) by (unfold wf_config; cbn; lia).
  split; [exact Hwf|].
  apply (stringify_ignores_attrs_beyond_count host_ok config0 (attrs config0) Hwf).
Defined.

(** Digits read back give the number. *)
Lemma read_dec_show_dec (n : Z) : 0 <= n -> read_dec (show_dec n) = Some n.
Proof.
  intros Hn. unfold read_dec, show_dec.
  rewrite DecimalString.NilZero.usu.
  - rewrite DecimalN.Unsigned.of_to, Z2N.id by exact Hn. reflexivity.
  - destruct (Z.to_N n) as [|p]; [discriminate|].
    apply DecimalPos.Unsigned.to_uint_nonnil.
Qed.

Lemma read_hex_show_hex (n : Z) : 0 <= n -> read_hex (show_hex n) = Some n.
Proof.
  intros Hn. unfold read_hex, show_hex.
  rewrite HexadecimalString.NilZero.usu.
  - rewrite HexadecimalN.Unsigned.of_to, Z2N.id by exact Hn. reflexivity.
  - destruct (Z.to_N n) as [|p]; [discriminate|].
    apply HexadecimalPos.Unsigned.to_uint_nonnil.
Qed.

(** X7: the numbers of the trace read back.  The grid and block
    dimensions and the shared memory size are written in base ten; the
    stream address and, because [std::hex] stays set on the stream,
    also the attribute count and every attribute index are written in
    base sixteen: read as hexadecimal they give back the count and the
    index. *)
Theorem stringify_numbers_read_back (H : Host) (c : CUlaunchConfig) :
  wf_config c ->
  0 <= gridDimX c -> 0 <= gridDimY c -> 0 <= gridDimZ c ->
  0 <= sharedMemBytes c -> 0 <= hStream c ->
  exists s,
    stringify_launch_config H c = Ret s
    /\ (exists x y z,
          lines s !! 0%nat
          = Some ("Grid Dimensions: (" +:+ x +:+ ", " +:+ y +:+ ", " +:+ z +:+ ")")
          /\ read_dec x = Some (gridDimX c) /\ read_dec y = Some (gridDimY c)
          /\ read_dec z = Some (gridDimZ c))
    /\ (exists b, lines s !! 2%nat = Some ("Shared Memory: " +:+ b +:+ " bytes")
                  /\ read_dec b = Some (sharedMemBytes c))
    /\ (exists kind a,
          lines s !! 3%nat = Some ("Stream: " +:+ kind +:+ " (0x" +:+ a +:+ ")")
          /\ read_hex a = Some (hStream c))
    /\ (exists h, lines s !! 4%nat = Some ("Attributes (" +:+ h +:+ "):")
                  /\ read_hex h = Some (numAttrs c))
    /\ (forall j, (j < Z.to_nat (numAttrs c))%nat ->
          exists h desc,
            lines s !! (5 + j)%nat = Some ("  [" +:+ h +:+ "] " +:+ desc)
            /\ read_hex h = Some (Z.of_nat j)).
Proof.
  intros Hwf Hx Hy Hz Hb Hs.
  destruct (stringify_lines H c Hwf) as (s & Hr & Hl).
  exists s. split; [exact Hr|]. rewrite Hl.
  split; [|split; [|split; [|split]]].
  - exists (show_dec (gridDimX c)), (show_dec (gridDimY c)), (show_dec (gridDimZ c)).
    split; [reflexivity|]. auto using read_dec_show_dec.
  - exists (show_dec (sharedMemBytes c)). split; [reflexivity|].
    apply read_dec_show_dec, Hb.
  - exists (if hStream c =? 0 then "Default" else "Custom"), (show_hex (hStream c)).
    split; [reflexivity|]. apply read_hex_show_hex, Hs.
  - exists (show_hex (numAttrs c)). split; [reflexivity|].
    apply read_hex_show_hex. destruct Hwf as [[? ?] ?]. assumption.
  - intros j Hj. destruct Hwf as [_ Hlen].
    destruct (attrs c !! j) as [attr|] eqn:Ea.
    2:{ apply lookup_ge_None in Ea. lia. }
    exists (show_hex (Z.of_nat j)), (attr_desc H attr). split.
    + unfold header_lines. rewrite lookup_app_r by (cbn [length]; lia).
      cbn [length]. replace (5 + j - 5)%nat with j by lia.
      apply attr_lines_lookup; assumption.
    + apply read_hex_show_hex. lia.
Qed.

Lemma stringify_numbers_read_back_witness :
  wf_config config16
  /\ exists s,
       stringify_launch_config host_ok config16 = Ret s
       /\ lines s !! 0%nat = Some "Grid Dimensions: (16, 1, 1)"
       /\ lines s !! 4%nat = Some "Attributes (10):"
       /\ lines s !! 15%nat = Some "  [a] Unknown Attribute (ID=0)"
       /\ read_hex "10" = Some 16 /\ read_hex "a" = Some 10.
Proof.
  assert (Hwf : wf_config config16) by (unfold wf_config; cbn; lia).
  split; [exact Hwf|].
  destruct (stringify_numbers_read_back host_ok config16 Hwf)
    as (s & Hs & _); try (cbn; lia).
  exists s. split; [exact Hs|].
  assert (Es : s = unlines (header_lines config16 ++ attr_lines host_ok config16))
    by (rewrite (stringify_ok host_ok config16 Hwf) in Hs; congruence).
  rewrite Es, (lines_unlines _ (no_nl_trace_lines host_ok config16)).
  repeat split; reflexivity.
Defined.

(** ** More on the singleton, one call after the other *)

(** X8: while a reference to the singleton is held, every further call
    of [getInstance] returns that same object through the unlocked fast
    path: the library is not opened again, nothing is resolved, the
    mutex is not touched, and the only change is the reference count,
    which grows by one per call. *)
Theorem getInstance_stable_while_held (H : Host) (tids : list nat) :
  forall (w : World) (r : nat) (o : Obj),
    instance w = Some r -> objs w !! r = Some o -> strong o <> 0%nat ->
    getInstance_each H tids w
    = (set_objs
         (<[r := {| obj_val := obj_val o;
                    strong := (strong o + length tids)%nat |}]> (objs w)) w,
       Ret (replicate (length tids) r)).
Proof.
  induction tids as [|tid tids IH]; intros w r o Hi Ho Hs.
  - cbn [getInstance_each length replicate]. unfold ret. f_equal.
    rewrite Nat.add_0_r. destruct w, o; cbn in *. unfold set_objs; cbn.
    rewrite list_insert_id by exact Ho. reflexivity.
  - assert (Hr : (r < length (objs w))%nat) by (eapply lookup_lt_Some; eauto).
    cbn [getInstance_each]. unfold bind at 1.
    rewrite (getInstance_shares H tid w r o Hi Ho Hs).
    unfold bind at 1.
    rewrite (IH _ r (add_ref o)).
    + unfold ret. cbn [objs set_objs add_ref obj_val strong length replicate].
      rewrite list_insert_insert_eq. unfold set_objs. cbn.
      do 4 f_equal. lia.
    + exact Hi.
    + cbn [objs set_objs]. apply list_lookup_insert_eq. exact Hr.
    + cbn. lia.
Qed.

Lemma getInstance_stable_while_held_witness :
  (instance world_two_refs = Some 0%nat
   /\ objs world_two_refs !! 0%nat = Some {| obj_val := wrapper_ok; strong := 2 |})
  /\ snd (getInstance_each host_ok [5; 6; 7]%nat world_two_refs)
     = Ret [0; 0; 0]%nat
  /\ trace (fst (getInstance_each host_ok [5; 6; 7]%nat world_two_refs))
     = trace world_two_refs.
Proof.
  split; [split; reflexivity|].
  rewrite (getInstance_stable_while_held host_ok [5; 6; 7]%nat world_two_refs 0
             {| obj_val := wrapper_ok; strong := 2 |} eq_refl eq_refl);
    [split; reflexivity|cbn; lia].
Defined.

(** One use of the singleton as a temporary, when nothing else holds
    it: the library is opened, resolved and closed again. *)
Lemma use_once_cycle (H : Host) (tid : nat) (w : World) :
  mutex w = None -> snd (weak_lock w) = None ->
  os_open H (opens w) (lib_file H) <> 0 ->
  exists w',
    use_once H tid w = (w', Ret tt)
    /\ opens w' = S (opens w)
    /\ trace w' = trace w ++ cycle_events H (opens w)
    /\ mutex w' = None
    /\ snd (weak_lock w') = None
    /\ length (objs w') = S (length (objs w)).
Proof.
  intros Hm Hl Hopen.
  destruct (getInstance_constructs H tid w Hm Hl Hopen) as (self & Hg & Hh & _).
  unfold use_once, bind. rewrite Hg.
  rewrite (release_last _ _ {| obj_val := self; strong := 1 |});
    [|cbn [objs]; rewrite lookup_app_r by lia;
      rewrite Nat.sub_diag; reflexivity|reflexivity].
  eexists. split; [reflexivity|].
  cbn [add_trace set_objs opens trace objs instance mutex obj_val].
  split; [reflexivity|]. split.
  { unfold cycle_events. rewrite Hh, <- app_assoc. reflexivity. }
  split; [reflexivity|]. split.
  - unfold weak_lock. cbn [add_trace set_objs instance objs].
    rewrite list_lookup_insert_eq by (rewrite length_app; cbn; lia).
    reflexivity.
  - rewrite length_insert, length_app. cbn. lia.
Qed.

(** X9: using the singleton only through temporaries, with no reference
    kept in between, opens and closes the driver library once per use:
    [n] uses make [n] opens, [n] full symbol resolutions and [n] closes,
    each close on the handle its own open returned. *)
Theorem temporaries_reopen_every_time (H : Host) (tid : nat) (n : nat) :
  forall w : World,
    mutex w = None -> snd (weak_lock w) = None ->
    (forall k, (opens w <= k < opens w + n)%nat ->
               os_open H k (lib_file H) <> 0) ->
    exists w',
      repeat_M n (use_once H tid) w = (w', Ret tt)
      /\ opens w' = (opens w + n)%nat
      /\ trace w' = trace w ++ flat_map (cycle_events H) (seq (opens w) n)
      /\ mutex w' = None
      /\ snd (weak_lock w') = None.
Proof.
  induction n as [|n IH]; intros w Hm Hl Hopen.
  - exists w. cbn [repeat_M seq flat_map]. rewrite app_nil_r, Nat.add_0_r.
    repeat split; assumption.
  - destruct (use_once_cycle H tid w Hm Hl) as (w1 & Hu & Ho1 & Ht1 & Hm1 & Hl1 & _).
    { apply Hopen. lia. }
    destruct (IH w1 Hm1 Hl1) as (w' & Hr & Ho & Ht & Hm' & Hl').
    { intros k Hk. apply Hopen. lia. }
    exists w'. cbn [repeat_M]. unfold bind. rewrite Hu.
    split; [exact Hr|]. split; [lia|]. split; [|split; assumption].
    rewrite Ht, Ht1, Ho1. cbn [seq flat_map]. rewrite <- app_assoc. reflexivity.
Qed.

Lemma temporaries_reopen_every_time_witness :
  exists w',
    repeat_M 3 (use_once host_ok 0) world0 = (w', Ret tt)
    /\ opens w' = 3%nat
    /\ List.filter (fun e => match e with EvSym _ _ => false | _ => true end)
         (trace w')
       = [EvOpen "libcuda.so.1"; EvClose 4096; EvOpen "libcuda.so.1"; EvClose 4097;
          EvOpen "libcuda.so.1"; EvClose 4098].
Proof.
  destruct (temporaries_reopen_every_time host_ok 0 3 world0 eq_refl eq_refl)
    as (w' & Hr & Ho & Ht & _).
  - intros k _. cbn. lia.
  - exists w'. split; [exact Hr|]. split; [exact Ho|].
    rewrite Ht. reflexivity.
Defined.

(** ** More on the singleton under interleaving *)

Lemma sum_list_insert {A} (f : A -> nat) (ts : list A) (i : nat)
    (t t' : A) :
  ts !! i = Some t ->
  (sum_list (f <$> <[i := t']> ts) + f t = sum_list (f <$> ts) + f t')%nat.
Proof.
  revert i. induction ts as [|u ts IH]; intros i Hl; [discriminate|].
  destruct i as [|i]; csimpl in *.
  - injection Hl as ->. lia.
  - specialize (IH i Hl). lia.
Qed.

Lemma sum_list_zero {A} (f : A -> nat) (ts : list A) :
  (forall i t, ts !! i = Some t -> f t = 0%nat) -> sum_list (f <$> ts) = 0%nat.
Proof.
  induction ts as [|u ts IH]; intros Hz; [reflexivity|].
  csimpl. rewrite (Hz 0%nat u eq_refl), IH; [reflexivity|].
  intros i t Hl. apply (Hz (S i) t Hl).
Qed.

(** The outcomes of line 56, read off the loader. *)
Lemma new_shared_failed (H : Host) (w w' : World) (o : Outcome nat) :
  new_shared H w = (w', o) -> (forall r, o <> Ret r) ->
  os_open H (opens w) (lib_file H) = 0 /\ w' = opened H w.
Proof.
  intros Hn Ho. unfold new_shared, bind in Hn.
  destruct (Z.eq_dec (os_open H (opens w) (lib_file H)) 0) as [Hz|Hnz].
  - rewrite (ctor_open_null H w Hz) in Hn. injection Hn as <- <-. auto.
  - destruct (ctor_open_ok H w Hnz) as (self & Hc & _).
    rewrite Hc in Hn. injection Hn as <- <-. exfalso. eapply Ho. reflexivity.
Qed.

Lemma new_shared_opened (H : Host) (w w' : World) (r : nat) :
  new_shared H w = (w', Ret r) -> os_open H (opens w) (lib_file H) <> 0.
Proof.
  unfold new_shared, bind. intros Hn.
  destruct (CUDADriverWrapper_ctor H w) as [w1 [self|msg|]] eqn:Hc;
    try discriminate.
  apply ctor_inv in Hc. tauto.
Qed.

Lemma weak_lock_mutex (w : World) : mutex (fst (weak_lock w)) = mutex w.
Proof.
  unfold weak_lock. destruct (instance w) as [r|]; [|reflexivity].
  destruct (objs w !! r) as [o|]; [|reflexivity].
  destruct (Nat.eqb (strong o) 0); reflexivity.
Qed.

(** A step that leaves the objects alone and the caller's [result] as
    it is. *)
Lemma inv2_keep (H : Host) (s : Sys) (i : nat) (t t' : Thread) (w' : World) :
  Inv2 H s -> pool s !! i = Some t ->
  objs w' = objs (world s) ->
  (forall j, mutex w' = Some j -> j = i \/ mutex (world s) = Some j) ->
  result t' = result t ->
  (has_result (pc t') = false -> has_result (pc t) = false) ->
  Inv2 H {| world := w'; pool := <[i := t']> (pool s); aborted := false |}.
Proof.
  intros [J1 J2 J3 J4] Ht Hobjs Hmx Hres Hhas.
  assert (Hi : (i < length (pool s))%nat) by (eapply lookup_lt_Some; eauto).
  constructor; cbn [world pool].
  - intros j Hj. rewrite length_insert.
    destruct (Hmx j Hj) as [->|Hm]; [exact Hi|apply J1; exact Hm].
  - intros j u Hl Hh.
    apply pool_insert_lookup in Hl as [[-> ->]|[Hne Hl]].
    + rewrite Hres. apply (J2 i t Ht). apply Hhas. exact Hh.
    + apply (J2 j u Hl Hh).
  - intros o Ho. rewrite Hobjs in Ho. rewrite (J3 o Ho).
    pose proof (sum_list_insert holds_obj (pool s) i t t' Ht) as Hsum.
    unfold holders. unfold holds_obj at 2 4 in Hsum. rewrite Hres in Hsum. lia.
  - rewrite Hobjs. exact J4.
Qed.

(** A caller that takes one more reference to the live object. *)
Lemma inv2_add_ref (H : Host) (s : Sys) (i r : nat) (o : Obj) (t : Thread)
    (p : PC) :
  Inv s -> Inv2 H s -> pool s !! i = Some t ->
  has_result (pc t) = false -> has_result p = true ->
  objs (world s) !! r = Some o ->
  Inv2 H {| world := set_objs (<[r := add_ref o]> (objs (world s))) (world s);
            pool := <[i := {| pc := p; result := Some r |}]> (pool s);
            aborted := false |}.
Proof.
  intros HI [J1 J2 J3 J4] Ht Hold Hnew Ho.
  assert (Hr : r = 0%nat).
  { pose proof (lookup_lt_Some _ _ _ Ho). pose proof (inv_objs s HI). lia. }
  subst r.
  constructor; cbn [world pool set_objs objs mutex].
  - intros j Hj. rewrite length_insert. apply J1. exact Hj.
  - intros j u Hl Hh.
    apply pool_insert_lookup in Hl as [[-> ->]|[Hne Hl]].
    + cbn [pc] in Hh. congruence.
    + apply (J2 j u Hl Hh).
  - intros o' Ho'.
    rewrite list_lookup_insert_eq in Ho' by (eapply lookup_lt_Some; eauto).
    injection Ho' as <-. cbn [add_ref strong]. rewrite (J3 o Ho).
    pose proof (sum_list_insert holds_obj (pool s) i t
                  {| pc := p; result := Some 0%nat |} Ht) as Hsum.
    unfold holders. unfold holds_obj at 2 4 in Hsum.
    rewrite (J2 i t Ht Hold) in Hsum. cbn [result] in Hsum. lia.
  - intros _. apply J4. intros He. rewrite He in Ho. discriminate.
Qed.

(** Line 56, when the constructor succeeds. *)
Lemma inv2_construct (H : Host) (s : Sys) (i : nat) (t : Thread)
    (w' : World) (r : nat) :
  Inv s -> Inv2 H s -> pool s !! i = Some t -> pc t = L56 ->
  new_shared H (world s) = (w', Ret r) ->
  Inv2 H {| world := w';
            pool := <[i := {| pc := L57; result := Some r |}]> (pool s);
            aborted := false |}.
Proof.
  intros HI [J1 J2 J3 J4] Ht Hpc Hn.
  pose proof (new_shared_opened H _ _ _ Hn) as Hopen.
  apply new_shared_ret in Hn as (self & -> & ->).
  pose proof (inv_building s HI i t Ht Hpc) as Hnil.
  pose proof (inv_opens s HI) as Hopens. rewrite Hnil in Hopens.
  cbn [length] in Hopens. rewrite Hopens in Hopen. rewrite Hnil.
  constructor; cbn [world pool set_objs add_trace opened objs mutex length].
  - intros j Hj. rewrite length_insert. apply J1. exact Hj.
  - intros j u Hl Hh.
    apply pool_insert_lookup in Hl as [[-> ->]|[Hne Hl]].
    + discriminate.
    + apply (J2 j u Hl Hh).
  - intros o Ho. cbn in Ho. injection Ho as <-. cbn [strong].
    pose proof (sum_list_insert holds_obj (pool s) i t
                  {| pc := L57; result := Some 0%nat |} Ht) as Hsum.
    assert (Hz : sum_list (holds_obj <$> pool s) = 0%nat).
    { apply sum_list_zero. intros j u Hl. unfold holds_obj.
      destruct (result u) as [[|r]|] eqn:Hr; try reflexivity.
      pose proof (inv_result s HI j u 0%nat Hl Hr) as Hlt.
      rewrite Hnil in Hlt. cbn in Hlt. lia. }
    unfold holders. rewrite Hz in Hsum. unfold holds_obj at 2 3 in Hsum.
    rewrite (J2 i t Ht) in Hsum by (rewrite Hpc; reflexivity).
    cbn [result] in Hsum. lia.
  - intros _. exact Hopen.
Qed.

(** Line 56, when the fatal check fires. *)
Lemma halted_at_failure (H : Host) (s : Sys) (i : nat) (t : Thread)
    (w' : World) (o : Outcome nat) :
  Inv s -> pool s !! i = Some t -> pc t = L56 ->
  new_shared H (world s) = (w', o) -> (forall r, o <> Ret r) ->
  Halted H {| world := w';
              pool := <[i := {| pc := Failed; result := None |}]> (pool s);
              aborted := true |}.
Proof.
  intros HI Ht Hpc Hn Ho.
  destruct (new_shared_failed H _ _ _ Hn Ho) as [Hz ->].
  pose proof (inv_building s HI i t Ht Hpc) as Hnil.
  pose proof (inv_opens s HI) as Hopens. rewrite Hnil in Hopens.
  cbn [length] in Hopens. rewrite Hopens in Hz.
  constructor; cbn [world pool opened objs opens].
  - rewrite Hopens. reflexivity.
  - exact Hnil.
  - exact Hz.
  - intros j u Hl.
    apply pool_insert_lookup in Hl as [[-> ->]|[Hne Hl]]; [reflexivity|].
    destruct (holds_mutex (pc u)) eqn:Hh; [exfalso|reflexivity].
    apply Hne. symmetry.
    eapply (inv_holder s i j t u HI Ht Hl); [rewrite Hpc; reflexivity|exact Hh].
  - intros j u Hl Hret.
    apply pool_insert_lookup in Hl as [[-> ->]|[Hne Hl]]; [discriminate|].
    destruct (inv_has_result s HI j u Hl) as [r Hr]; [rewrite Hret; reflexivity|].
    pose proof (inv_result s HI j u r Hl Hr) as Hlt.
    rewrite Hnil in Hlt. cbn in Hlt. lia.
Qed.

Lemma step_good2 (H : Host) (i : nat) (s : Sys) :
  Good2 H s -> Good2 H (sys_step H i s).
Proof.
  intros [HG H2]. split; [apply step_good; exact HG|].
  unfold sys_step. unfold Good in HG.
  destruct (aborted s) eqn:Hab; [rewrite Hab; exact H2|].
  destruct (pool s !! i) as [t|] eqn:Ht; [|rewrite Hab; exact H2].
  unfold statement. destruct t as [p res]. destruct p; cbn [pc result].
  - (* L46 *)
    destruct (instance (world s)) as [r|] eqn:Hi.
    + destruct (weak_lock_live s r HG Hi) as (o & Ho & Hs & ->).
      cbn [aborted].
      apply (inv2_add_ref H s i r o _ Returned HG H2 Ht); auto.
    + rewrite (weak_lock_empty _ Hi). cbn [aborted].
      apply (inv2_keep H s i _ _ _ H2 Ht); cbn [pc result]; auto.
      all: try (symmetry; apply (inv2_fresh H s H2 i _ Ht); reflexivity).
  - (* L52 *)
    destruct (mutex (world s)) eqn:Hm; [rewrite Hab; exact H2|].
    cbn [aborted].
    apply (inv2_keep H s i _ _ _ H2 Ht); cbn [pc result set_mutex objs mutex];
      auto.
    all: try (intros j Hj; left; congruence).
  - (* L53 *)
    destruct (instance (world s)) as [r|] eqn:Hi.
    + destruct (weak_lock_live s r HG Hi) as (o & Ho & Hs & ->).
      cbn [aborted].
      apply (inv2_add_ref H s i r o _ L59 HG H2 Ht); auto.
    + rewrite (weak_lock_empty _ Hi). cbn [aborted].
      apply (inv2_keep H s i _ _ _ H2 Ht); cbn [pc result]; auto.
      all: try (symmetry; apply (inv2_fresh H s H2 i _ Ht); reflexivity).
  - (* L56 *)
    destruct (new_shared H (world s)) as [w' [r|msg|]] eqn:Hn; cbn [aborted].
    + apply (inv2_construct H s i _ w' r HG H2 Ht eq_refl Hn).
    + apply (halted_at_failure H s i _ w' _ HG Ht eq_refl Hn). discriminate.
    + apply (halted_at_failure H s i _ w' _ HG Ht eq_refl Hn). discriminate.
  - (* L57 *)
    cbn [aborted].
    apply (inv2_keep H s i _ _ _ H2 Ht); cbn [pc result set_instance objs mutex];
      auto.
    all: try discriminate.
  - (* L59 *)
    cbn [aborted].
    apply (inv2_keep H s i _ _ _ H2 Ht); cbn [pc result set_mutex objs mutex];
      auto.
    all: try discriminate.
  - rewrite Hab. exact H2.
  - rewrite Hab. exact H2.
Qed.

Lemma sys_run_good2 (H : Host) (sched : list nat) (s : Sys) :
  Good2 H s -> Good2 H (sys_run H sched s).
Proof.
  revert s. induction sched as [|i sched IH]; intros s HG; [exact HG|].
  rewrite sys_run_cons. apply IH, step_good2, HG.
Qed.

Lemma sys_init_good2 (H : Host) (n : nat) : Good2 H (sys_init world0 n).
Proof.
  split; [apply sys_init_good|]. unfold sys_init. cbn [aborted].
  constructor; cbn [world pool world0 objs mutex].
  - intros j Hj. discriminate.
  - intros i t Hl _. apply lookup_replicate in Hl as [-> _]. reflexivity.
  - intros o Ho. discriminate.
  - intros Hne. contradiction.
Qed.

Lemma sys_reachable_good2 (H : Host) (n : nat) (sched : list nat) :
  Good2 H (sys_run H sched (sys_init world0 n)).
Proof. apply sys_run_good2, sys_init_good2. Qed.

(** The invariants of the memory and the callers hold in every run. *)
Lemma exec_step_good2 (H : Host) (i : nat) (e : Exec) :
  Good2 H (sys e) -> Good2 H (sys (exec_step H i e)).
Proof.
  intros HG. destruct (exec_step_sys H i e) as [-> | ->];
    [exact HG|apply step_good2; exact HG].
Qed.

Lemma reachable_good2 (H : Host) (n : nat) (sched : list nat) :
  Good2 H (sys (run H sched (init world0 n))).
Proof.
  destruct (run_sys H sched (init world0 n)) as [sched' ->].
  apply sys_reachable_good2.
Qed.

(** X10: at every moment of every interleaving of [n] first calls, up
    to the first data race, the library has been opened at most once,
    at most one wrapper exists, and at most one caller is inside the
    region the mutex guards (lines 53 to 59). *)
Theorem never_two_constructions (H : Host) (n : nat) (sched : list nat) :
  let s := sys (run H sched (init world0 n)) in
  (opens (world s) <= 1)%nat
  /\ (length (objs (world s)) <= 1)%nat
  /\ forall i j ti tj,
       pool s !! i = Some ti -> pool s !! j = Some tj ->
       holds_mutex (pc ti) = true -> holds_mutex (pc tj) = true -> i = j.
Proof.
  intros s. destruct (reachable_good2 H n sched) as [HG H2]. fold s in HG, H2.
  unfold Good in HG. destruct (aborted s).
  - destruct H2 as [K1 K2 K3 K4 K5]. rewrite K1, K2.
    split; [lia|]. split; [cbn; lia|].
    intros i j ti tj Hi Hj Hti _. rewrite (K4 i ti Hi) in Hti. discriminate.
  - split; [rewrite (inv_opens s HG); apply (inv_objs s HG)|].
    split; [apply (inv_objs s HG)|].
    intros i j ti tj Hi Hj. apply (inv_holder s i j ti tj HG Hi Hj).
Qed.

(** Without the library nothing is ever written to the weak pointer,
    so every read of it is ordered. *)
Lemma no_library_no_race_step (H : Host) (i : nat) (e : Exec) :
  os_open H 0 (lib_file H) = 0 ->
  Good2 H (sys e) ->
  raced e = false /\ (forall j, write_vc (sync e) j = 0%nat) ->
  raced (exec_step H i e) = false
  /\ (forall j, write_vc (sync (exec_step H i e)) j = 0%nat).
Proof.
  intros Hz [HG H2] [Hr Hw]. unfold exec_step. rewrite Hr. cbn [orb].
  unfold Good in HG.
  destruct (aborted (sys e)) eqn:Ha; [auto|].
  destruct (pool (sys e) !! i) as [t|] eqn:Ht; [|auto].
  assert (Hnil : objs (world (sys e)) = []).
  { destruct (objs (world (sys e))) as [|o os] eqn:Ho; [reflexivity|exfalso].
    apply (inv2_opened H _ H2); [rewrite Ho; discriminate|exact Hz]. }
  assert (H57 : pc t <> L57).
  { intros Hpc.
    destruct (inv_has_result _ HG i t Ht) as [r Hres]; [rewrite Hpc; reflexivity|].
    pose proof (inv_result _ HG i t r Ht Hres) as Hlt.
    rewrite Hnil in Hlt. cbn in Hlt. lia. }
  unfold thread_step.
  assert (Ho : ordered (length (pool (sys e))) i (sync e) (access (pc t)) = true).
  { destruct (pc t); cbn [access ordered]; try reflexivity;
      try (apply clock_leb_zero; exact Hw). contradiction. }
  rewrite Ho.
  destruct (statement H i (world (sys e)) t); cbn [raced sync]; auto.
  all: split; [reflexivity|].
  all: destruct (pc t); cbn [access sync_step write_vc]; auto; contradiction.
Qed.

Lemma no_library_no_race (H : Host) (sched : list nat) :
  os_open H 0 (lib_file H) = 0 ->
  forall e, Good2 H (sys e) ->
    raced e = false /\ (forall j, write_vc (sync e) j = 0%nat) ->
    raced (run H sched e) = false.
Proof.
  intros Hz. induction sched as [|i sched IH]; intros e HG Hinv; [apply Hinv|].
  rewrite run_cons. apply IH.
  - apply exec_step_good2. exact HG.
  - apply no_library_no_race_step; assumption.
Qed.

(** X11: when the driver library cannot be opened, no caller ever
    obtains an instance: in every interleaving no call returns and no
    wrapper comes to exist.  These executions have no data race: the
    weak pointer is never written. *)
Theorem no_instance_without_library (H : Host) (n : nat) (sched : list nat) :
  os_open H 0 (lib_file H) = 0 ->
  let s := sys (run H sched (init world0 n)) in
  objs (world s) = []
  /\ Forall (fun t => pc t <> Returned) (pool s)
  /\ raced (run H sched (init world0 n)) = false.
Proof.
  intros Hz s. destruct (reachable_good2 H n sched) as [HG H2]. fold s in HG, H2.
  assert (Hrace : raced (run H sched (init world0 n)) = false).
  { apply no_library_no_race; [exact Hz|apply sys_init_good2|].
    split; reflexivity. }
  unfold Good in HG. destruct (aborted s).
  - destruct H2 as [K1 K2 K3 K4 K5]. split; [exact K2|].
    split; [|exact Hrace]. rewrite Forall_lookup. exact K5.
  - assert (Hnil : objs (world s) = []).
    { destruct (objs (world s)) as [|o os] eqn:Ho; [reflexivity|exfalso].
      apply (inv2_opened H s H2); [rewrite Ho; discriminate|exact Hz]. }
    split; [exact Hnil|]. split; [|exact Hrace].
    rewrite Forall_lookup. intros i t Hl Hret.
    destruct (inv_has_result s HG i t Hl) as [r Hr]; [rewrite Hret; reflexivity|].
    pose proof (inv_result s HG i t r Hl Hr) as Hlt.
    rewrite Hnil in Hlt. cbn in Hlt. lia.
Qed.

Lemma no_instance_without_library_witness :
  os_open host_no_driver 0 (lib_file host_no_driver) = 0
  /\ objs (world (sys (run host_no_driver [0; 1; 0; 0; 0; 1; 1; 1]%nat
                         (init world0 2)))) = []
  /\ aborted (sys (run host_no_driver [0; 1; 0; 0; 0; 1; 1; 1]%nat
                     (init world0 2))) = true
  /\ raced (run host_no_driver [0; 1; 0; 0; 0; 1; 1; 1]%nat (init world0 2)) = false.
Proof.
  split; [reflexivity|].
  destruct (no_instance_without_library host_no_driver 2
              [0; 1; 0; 0; 0; 1; 1; 1]%nat eq_refl) as (Ho & _ & Hr).
  split; [exact Ho|]. split; [reflexivity|exact Hr].
Defined.

(** ** The library handle over the life of a process *)

Lemma count_opens_app (l1 l2 : list Event) :
  count_opens (l1 ++ l2) = (count_opens l1 + count_opens l2)%nat.
Proof. unfold count_opens. rewrite filter_app, length_app. reflexivity. Qed.

Lemma count_closes_app (l1 l2 : list Event) :
  count_closes (l1 ++ l2) = (count_closes l1 + count_closes l2)%nat.
Proof. unfold count_closes. rewrite filter_app, length_app. reflexivity. Qed.

Lemma construction_events (f : string) (h : Z) :
  count_opens (EvOpen f :: map (fun op => EvSym h (exported_name op)) all_ops)
  = 1%nat
  /\ count_closes (EvOpen f :: map (fun op => EvSym h (exported_name op)) all_ops)
     = 0%nat.
Proof. split; reflexivity. Qed.

Lemma weak_lock_cases (w : World) :
  weak_lock w = (w, None)
  \/ exists r o, instance w = Some r /\ objs w !! r = Some o
                 /\ strong o <> 0%nat
                 /\ weak_lock w = (set_objs (<[r := add_ref o]> (objs w)) w, Some r).
Proof.
  unfold weak_lock.
  destruct (instance w) as [r|]; [|left; reflexivity].
  destruct (objs w !! r) as [o|] eqn:Ho; [|left; reflexivity].
  destruct (Nat.eqb_spec (strong o) 0); [left; reflexivity|].
  right. exists r, o. auto.
Qed.

Lemma settled_world0 : Settled world0.
Proof.
  constructor; cbn; try reflexivity; try (intros; discriminate).
  intros h [].
Qed.

(** Without a live object every object is dead. *)
Lemma settled_all_dead (w : World) :
  Settled w -> snd (weak_lock w) = None ->
  forall r o, objs w !! r = Some o -> strong o = 0%nat.
Proof.
  intros HS Hl r o Ho.
  destruct (Nat.eq_dec (strong o) 0%nat) as [Hz|Hnz]; [exact Hz|exfalso].
  pose proof (settled_alive w HS r o Ho Hnz) as Hi.
  unfold weak_lock in Hl. rewrite Hi, Ho in Hl.
  apply Nat.eqb_neq in Hnz. rewrite Hnz in Hl. discriminate.
Qed.

Lemma settled_acquire (H : Host) (tid : nat) (w w' : World) (r : nat) :
  Settled w -> getInstance H tid w = (w', Ret r) -> Settled w'.
Proof.
  intros HS Hg. pose proof HS as [S1 S2 S3 S4 S5 S6].
  destruct (weak_lock_cases w) as [Hn|(r0 & o & Hi & Ho & Hs & Hw)].
  - (* nothing alive: the slow path *)
    assert (Hl : snd (weak_lock w) = None) by (rewrite Hn; reflexivity).
    destruct (Z.eq_dec (os_open H (opens w) (lib_file H)) 0) as [Hz|Hnz].
    { rewrite (getInstance_slow H tid w Hl S1) in Hg.
      unfold new_shared, bind in Hg.
      rewrite (ctor_open_null H (set_mutex (Some tid) w)) in Hg by exact Hz.
      discriminate. }
    destruct (getInstance_constructs H tid w S1 Hl Hnz) as (self & Hc & Hh & _).
    rewrite Hc in Hg. injection Hg as <- <-.
    pose proof (settled_all_dead w HS Hl) as Hdead.
    constructor; cbn [opens trace objs instance mutex].
    + reflexivity.
    + intros r' o' Ho' Hs'.
      apply lookup_app_Some in Ho' as [Ho'|[Hge Ho']].
      * exfalso. apply Hs'. apply (Hdead r' o' Ho').
      * f_equal. destruct (r' - length (objs w))%nat eqn:Hd; [lia|discriminate].
    + rewrite count_opens_app, S3, length_app.
      match goal with
      | |- context [count_opens (EvOpen ?f :: ?l)] =>
          change (count_opens (EvOpen f :: l)) with 1%nat
      end. reflexivity.
    + rewrite count_closes_app, S4, fmap_app, sum_list_with_app.
      match goal with
      | |- context [count_closes (EvOpen ?f :: ?l)] =>
          change (count_closes (EvOpen f :: l)) with 0%nat
      end. cbn. lia.
    + intros r' o' Ho'.
      apply lookup_app_Some in Ho' as [Ho'|[Hge Ho']]; [eauto|].
      destruct (r' - length (objs w))%nat; [|discriminate].
      injection Ho' as <-. cbn. rewrite Hh. exact Hnz.
    + intros h Hin. apply in_app_or in Hin as [Hin|Hin]; [eauto|].
      repeat (destruct Hin as [He|Hin]; [discriminate|]). destruct Hin.
  - (* the fast path *)
    rewrite (getInstance_shares H tid w r0 o Hi Ho Hs) in Hg.
    injection Hg as <- <-.
    assert (Hr : (r0 < length (objs w))%nat) by (eapply lookup_lt_Some; eauto).
    constructor; cbn [set_objs opens trace objs instance mutex]; try assumption.
    + intros r' o' Ho' Hs'.
      apply list_lookup_insert_Some in Ho' as [(-> & _ & _)|[_ Ho']];
        [exact Hi|eauto].
    + rewrite length_insert. exact S3.
    + rewrite S4.
      pose proof (sum_list_insert dead (objs w) r0 o (add_ref o) Ho) as Hsum.
      unfold dead at 2 4 in Hsum. cbn [add_ref strong] in Hsum.
      destruct (strong o); [contradiction|]. lia.
    + intros r' o' Ho'.
      apply list_lookup_insert_Some in Ho' as [(-> & <- & _)|[_ Ho']];
        [cbn; eauto|eauto].
Qed.

Lemma settled_drop (r : nat) (w w' : World) :
  Settled w -> release r w = (w', Ret tt) -> Settled w'.
Proof.
  intros [S1 S2 S3 S4 S5 S6] Hrel. unfold release in Hrel.
  destruct (objs w !! r) as [o|] eqn:Ho; [|discriminate].
  destruct (strong o) as [|n] eqn:Hs; [discriminate|].
  assert (Hr : (r < length (objs w))%nat) by (eapply lookup_lt_Some; eauto).
  pose proof (sum_list_insert dead (objs w) r o
                {| obj_val := obj_val o; strong := n |} Ho) as Hsum.
  unfold dead at 2 4 in Hsum. rewrite Hs in Hsum. cbn [strong] in Hsum.
  assert (Hinst : instance w = Some r) by (apply (S2 r o Ho); lia).
  destruct n as [|n]; cbn [Nat.eqb] in Hrel.
  - (* the last reference: the destructor closes the handle *)
    unfold CUDADriverWrapper_dtor, dllClose in Hrel. injection Hrel as <-.
    constructor; cbn [emit set_objs opens trace objs instance mutex obj_val].
    + exact S1.
    + intros r' o' Ho' Hs'.
      apply list_lookup_insert_Some in Ho' as [(-> & <- & _)|[_ Ho']];
        [cbn in Hs'; contradiction|eauto].
    + rewrite count_opens_app, length_insert, S3.
      change (count_opens [EvClose (handle (obj_val o))]) with 0%nat. lia.
    + rewrite count_closes_app, S4.
      change (count_closes [EvClose (handle (obj_val o))]) with 1%nat. lia.
    + intros r' o' Ho'.
      apply list_lookup_insert_Some in Ho' as [(-> & <- & _)|[_ Ho']];
        [cbn; eauto|eauto].
    + intros h Hin. apply in_app_or in Hin as [Hin|[He|[]]]; [eauto|].
      injection He as <-. eauto.
  - injection Hrel as <-.
    constructor; cbn [set_objs opens trace objs instance mutex]; try assumption.
    + intros r' o' Ho' Hs'.
      apply list_lookup_insert_Some in Ho' as [(-> & _ & _)|[_ Ho']];
        [exact Hinst|eauto].
    + rewrite length_insert. exact S3.
    + rewrite S4. lia.
    + intros r' o' Ho'.
      apply list_lookup_insert_Some in Ho' as [(-> & <- & _)|[_ Ho']];
        [cbn; eauto|eauto].
Qed.

Lemma settled_do_ops (H : Host) (ops : list ClientOp) :
  forall w w', Settled w -> do_ops H ops w = (w', Ret tt) -> Settled w'.
Proof.
  induction ops as [|op ops IH]; intros w w' HS Hrun.
  - cbn in Hrun. injection Hrun as <-. exact HS.
  - cbn [do_ops] in Hrun. unfold bind at 1 in Hrun.
    destruct (do_op H op w) as [w1 [[]| |]] eqn:Hop; try discriminate.
    apply (IH w1 w'); [|exact Hrun].
    destruct op as [tid|r]; cbn [do_op] in Hop.
    + unfold bind, ret in Hop.
      destruct (getInstance H tid w) as [w2 [r| |]] eqn:Hg; try discriminate.
      injection Hop as <-. eapply settled_acquire; eauto.
    + eapply settled_drop; eauto.
Qed.

(** The live objects of a settled world: none or the one the weak
    pointer designates. *)
Lemma settled_dead_count (w : World) :
  Settled w ->
  (sum_list (dead <$> objs w)
   + match snd (weak_lock w) with Some _ => 1 | None => 0 end
   = length (objs w))%nat.
Proof.
  intros HS. pose proof HS as [S1 S2 S3 S4 S5 S6].
  assert (Hgen : forall (l : list Obj) (r : option nat),
             (forall i o, l !! i = Some o -> strong o <> 0%nat -> r = Some i) ->
             (sum_list (dead <$> l)
              + match r with
                | Some i => match l !! i with
                            | Some o => if Nat.eqb (strong o) 0 then 0 else 1
                            | None => 0
                            end
                | None => 0
                end = length l)%nat).
  { induction l as [|o l IH]; intros r Hal; [destruct r as [[|i]|]; reflexivity|].
    csimpl. destruct r as [[|i]|].
    - (* the head is the designated object: the tail is dead *)
      assert (Htl : sum_list (dead <$> l) = length l).
      { specialize (IH None). cbn in IH. rewrite <- IH; [lia|].
        intros j o' Hj Hs'. specialize (Hal (S j) o' Hj Hs'). discriminate. }
      cbn. unfold dead at 1. destruct (strong o); cbn; lia.
    - assert (Hd : strong o = 0%nat).
      { destruct (Nat.eq_dec (strong o) 0%nat) as [Hz|Hnz]; [exact Hz|].
        specialize (Hal 0%nat o eq_refl Hnz). discriminate. }
      unfold dead at 1. rewrite Hd. cbn [lookup list_lookup].
      specialize (IH (Some i)). cbn beta iota in IH. change (l !! i) with (l !! i).
      rewrite <- IH at 1; [cbn; lia|].
      intros j o' Hj Hs'. specialize (Hal (S j) o' Hj Hs'). congruence.
    - assert (Hd : strong o = 0%nat).
      { destruct (Nat.eq_dec (strong o) 0%nat) as [Hz|Hnz]; [exact Hz|].
        specialize (Hal 0%nat o eq_refl Hnz). discriminate. }
      unfold dead at 1. rewrite Hd.
      specialize (IH None). cbn beta iota in IH. rewrite <- IH at 1; [lia|].
      intros j o' Hj Hs'. specialize (Hal (S j) o' Hj Hs'). discriminate. }
  specialize (Hgen (objs w) (instance w) S2).
  unfold weak_lock. destruct (instance w) as [r|]; [|exact Hgen].
  destruct (objs w !! r) as [o|]; [|exact Hgen].
  destruct (Nat.eqb (strong o) 0); exact Hgen.
Qed.

(** X14.  The library handle over any use of the accessor by a client.
    A client takes references with [getInstance] and drops references
    it holds, in any order and any number of times.  If none of these
    steps fails, then at the end every library that was opened has been
    closed, except the one behind the live instance when there is one:
    the trace has as many closes as opens when the weak pointer has
    expired, one fewer when it has not, and no close was given a null
    handle. *)
Theorem library_handle_balance (H : Host) (ops : list ClientOp) (w : World) :
  do_ops H ops world0 = (w, Ret tt) ->
  (count_opens (trace w)
   = count_closes (trace w)
     + match snd (weak_lock w) with Some _ => 1 | None => 0 end)%nat
  /\ (forall h, In (EvClose h) (trace w) -> h <> 0).
Proof.
  intros Hrun.
  pose proof (settled_do_ops H ops world0 w settled_world0 Hrun) as HS.
  split.
  - rewrite (settled_opens w HS), (settled_closes w HS).
    symmetry. apply settled_dead_count. exact HS.
  - exact (settled_closed w HS).
Qed.

Lemma library_handle_balance_witness :
  exists w,
    do_ops host_ok client_demo world0 = (w, Ret tt)
    /\ count_opens (trace w) = 2%nat
    /\ count_closes (trace w) = 1%nat
    /\ snd (weak_lock w) = Some 1%nat.
Proof.
  exists (fst (do_ops host_ok client_demo world0)).
  set (w := fst (do_ops host_ok client_demo world0)).
  assert (Hrun : do_ops host_ok client_demo world0 = (w, Ret tt))
    by (vm_compute; reflexivity).
  pose proof (library_handle_balance host_ok client_demo w Hrun) as [Hb _].
  assert (Hl : snd (weak_lock w) = Some 1%nat) by (vm_compute; reflexivity).
  assert (Hc : count_closes (trace w) = 1%nat) by (vm_compute; reflexivity).
  rewrite Hl, Hc in Hb.
  split; [exact Hrun|]. split; [exact Hb|]. split; [exact Hc|exact Hl].
Defined.
